(** * Task queue, fleet reconciliation, key cache and scope gate

    A shallow embedding of
      - [server/services/taskSubmissionService.js] (task queue on the shared store),
      - [server/services/agentDiscoveryService.js] (fleet reconciler),
      - [server/middleware/janua-auth.js] (key cache and scope gate),
    and the properties of the system specification that concern them.

    JavaScript values that cross these modules are JSON documents; object
    fields that may be missing are [option]s ([None] is [undefined]).
    Numbers are modelled by the integers [Z]: every number the code
    computes with (priorities, millisecond clocks, counters) is an integer
    far below 2^53, where IEEE doubles are exact.  What [JSON.parse]
    accepts is not fixed here: the functions that read stored text take it
    as a parameter, and their properties hold for every such function. *)

From Stdlib Require Import ZArith Ascii String Decimal DecimalPos DecimalN DecimalZ.
From stdpp Require Import base option list sorting gmap strings fin_maps.

Local Open Scope string_scope.
Local Open Scope Z_scope.

#[local] Set Warnings "-register-all".

(** ** JSON values *)

Inductive JSON : Type :=
| JNull
| JBool (b : bool)
| JNum (n : Z)
| JStr (s : string)
| JArr (xs : list JSON)
| JObj (kvs : list (string * JSON)).

(** A value read from an object field: [None] is [undefined]. *)
Abbreviation JsVal := (option JSON).

(** The empty object literal [{}]. *)
Definition empty_object : JSON := JObj [].

(** Structural induction that reaches the elements of arrays and objects. *)
Section JSON_induction.
Variable P : JSON → Prop.
Hypothesis Hnull : P JNull.
Hypothesis Hbool : ∀ b, P (JBool b).
Hypothesis Hnum : ∀ n, P (JNum n).
Hypothesis Hstr : ∀ s, P (JStr s).
Hypothesis Harr : ∀ xs, Forall P xs → P (JArr xs).
Hypothesis Hobj : ∀ kvs, Forall (λ kv, P kv.2) kvs → P (JObj kvs).

Fixpoint JSON_deep_ind (v : JSON) : P v :=
  match v with
  | JNull => Hnull
  | JBool b => Hbool b
  | JNum n => Hnum n
  | JStr s => Hstr s
  | JArr xs =>
      Harr xs ((fix go (l : list JSON) : Forall P l :=
                  match l with
                  | [] => Forall_nil_2 P
                  | x :: l' => Forall_cons_2 P x l' (JSON_deep_ind x) (go l')
                  end) xs)
  | JObj kvs =>
      Hobj kvs ((fix go (l : list (string * JSON)) : Forall (λ kv, P kv.2) l :=
                   match l with
                   | [] => Forall_nil_2 _
                   | kv :: l' => Forall_cons_2 _ kv l' (JSON_deep_ind kv.2) (go l')
                   end) kvs)
  end.
End JSON_induction.

(** JavaScript truthiness ([if (v)], [v || d], [!v]): the falsy values are
    [undefined], [null], [false], [0] and the empty string. *)
Definition truthy_json (v : JSON) : bool :=
  match v with
  | JNull => false
  | JBool b => b
  | JNum n => negb (n =? 0)
  | JStr s => negb (String.eqb s "")
  | JArr _ | JObj _ => true
  end.

Definition truthy (v : JsVal) : bool :=
  match v with
  | None => false
  | Some j => truthy_json j
  end.

(** Truthiness of a field the source types as a string. *)
Definition truthy_str (v : option string) : bool :=
  match v with
  | None => false
  | Some s => negb (String.eqb s "")
  end.

(** Truthiness of a field the source types as a number. *)
Definition truthy_num (v : option Z) : bool :=
  match v with
  | None => false
  | Some n => negb (n =? 0)
  end.

(** [a || b] on possibly missing values. *)
Definition js_or (a : JsVal) (b : JSON) : JSON :=
  match a with
  | Some j => if truthy_json j then j else b
  | None => b
  end.

(** [v === s] for a string [s]: strict equality with a string holds only
    for the same string. *)
Definition strict_eq_str (v : JsVal) (s : string) : bool :=
  match v with
  | Some (JStr x) => String.eqb x s
  | _ => false
  end.

(** ** Rendering numbers *)

(** Printers take the text that follows as an argument, so that a printed
    value is always seen in front of its continuation. *)
Fixpoint print_uint (d : uint) (k : string) : string :=
  match d with
  | Nil => k
  | D0 d => String "0" (print_uint d k)
  | D1 d => String "1" (print_uint d k)
  | D2 d => String "2" (print_uint d k)
  | D3 d => String "3" (print_uint d k)
  | D4 d => String "4" (print_uint d k)
  | D5 d => String "5" (print_uint d k)
  | D6 d => String "6" (print_uint d k)
  | D7 d => String "7" (print_uint d k)
  | D8 d => String "8" (print_uint d k)
  | D9 d => String "9" (print_uint d k)
  end.

Definition print_number (n : Z) (k : string) : string :=
  match Z.to_int n with
  | Pos d => print_uint d k
  | Neg d => String "-" (print_uint d k)
  end.

(** [Number.prototype.toString()] on an integer: plain decimal digits with
    a leading minus sign for negatives. *)
Definition number_toString (n : Z) : string := print_number n "".

Definition digit36 (d : Z) : ascii :=
  if d <? 10 then ascii_of_N (Z.to_N (48 + d)) else ascii_of_N (Z.to_N (87 + d)).

Fixpoint toString36_go (fuel : nat) (n : Z) (acc : string) : string :=
  match fuel with
  | O => acc
  | S fuel' =>
      let acc' := String (digit36 (n mod 36)) acc in
      if n / 36 =? 0 then acc' else toString36_go fuel' (n / 36) acc'
  end.

(** [n.toString(36)] for a non-negative integer [n]. *)
Definition toString36 (n : Z) : string :=
  toString36_go (S (Z.to_nat (Z.log2 n))) n "".

(** [String(v)] / template-literal interpolation of a value. *)
Fixpoint js_String_json (v : JSON) : string :=
  match v with
  | JNull => "null"
  | JBool true => "true"
  | JBool false => "false"
  | JNum n => number_toString n
  | JStr s => s
  | JArr xs =>
      (fix join (l : list JSON) : string :=
         match l with
         | [] => ""
         | [x] => match x with JNull => "" | _ => js_String_json x end
         | x :: l' =>
             (match x with JNull => "" | _ => js_String_json x end) +:+ "," +:+ join l'
         end) xs
  | JObj _ => "[object Object]"
  end.

Definition js_String (v : JsVal) : string :=
  match v with
  | None => "undefined"
  | Some j => js_String_json j
  end.

(** ** JSON text: [JSON.stringify] and [JSON.parse]

    Strings are byte strings: characters above U+007F travel as their
    UTF-8 bytes, which [JSON.stringify] leaves unescaped. *)

Definition dquote : ascii := "034"%char.
Definition backslash : ascii := "092"%char.

Definition hex_digit (n : N) : ascii :=
  if (n <? 10)%N then ascii_of_N (48 + n) else ascii_of_N (87 + n).

(** The escape [JSON.stringify] writes for one character of a string. *)
Definition quote_char (c : ascii) (k : string) : string :=
  if Ascii.eqb c dquote then String backslash (String dquote k)
  else if Ascii.eqb c backslash then String backslash (String backslash k)
  else if Ascii.eqb c "008" then String backslash (String "b" k)
  else if Ascii.eqb c "009" then String backslash (String "t" k)
  else if Ascii.eqb c "010" then String backslash (String "n" k)
  else if Ascii.eqb c "012" then String backslash (String "f" k)
  else if Ascii.eqb c "013" then String backslash (String "r" k)
  else if (N_of_ascii c <? 32)%N then
    String backslash (String "u" (String "0" (String "0"
      (String (hex_digit (N_of_ascii c / 16)) (String (hex_digit (N_of_ascii c mod 16)) k)))))
  else String c k.

Fixpoint quote_body (s : string) (k : string) : string :=
  match s with
  | EmptyString => String dquote k
  | String c s' => quote_char c (quote_body s' k)
  end.

Definition quote (s : string) (k : string) : string := String dquote (quote_body s k).

Fixpoint stringify_k (v : JSON) (k : string) : string :=
  match v with
  | JNull => String "n" (String "u" (String "l" (String "l" k)))
  | JBool true => String "t" (String "r" (String "u" (String "e" k)))
  | JBool false => String "f" (String "a" (String "l" (String "s" (String "e" k))))
  | JNum n => print_number n k
  | JStr s => quote s k
  | JArr xs =>
      match xs with
      | [] => String "[" (String "]" k)
      | x :: xs' =>
          String "[" (stringify_k x
            ((fix tail (l : list JSON) : string :=
                match l with
                | [] => String "]" k
                | y :: l' => String "," (stringify_k y (tail l'))
                end) xs'))
      end
  | JObj kvs =>
      match kvs with
      | [] => String "{" (String "}" k)
      | (key, x) :: kvs' =>
          String "{" (quote key (String ":" (stringify_k x
            ((fix tail (l : list (string * JSON)) : string :=
                match l with
                | [] => String "}" k
                | (key', y) :: l' =>
                    String "," (quote key' (String ":" (stringify_k y (tail l'))))
                end) kvs'))))
      end
  end.

(** [JSON.stringify(v)]. *)
Definition JSON_stringify (v : JSON) : string := stringify_k v "".

Definition is_ws (c : ascii) : bool :=
  Ascii.eqb c " " || Ascii.eqb c "009" || Ascii.eqb c "010" || Ascii.eqb c "013".

Fixpoint skip_ws (s : string) : string :=
  match s with
  | String c r => if is_ws c then skip_ws r else s
  | EmptyString => EmptyString
  end.

Definition digit_of (c : ascii) : option (uint → uint) :=
  match c with
  | "0" => Some D0 | "1" => Some D1 | "2" => Some D2 | "3" => Some D3
  | "4" => Some D4 | "5" => Some D5 | "6" => Some D6 | "7" => Some D7
  | "8" => Some D8 | "9" => Some D9
  | _ => None
  end%char.

Fixpoint parse_digits (s : string) : uint * string :=
  match s with
  | String c r =>
      match digit_of c with
      | Some d => let '(u, r') := parse_digits r in (d u, r')
      | None => (Nil, s)
      end
  | EmptyString => (Nil, EmptyString)
  end.

(** The integer part of a JSON number is "0" or starts with a non-zero digit. *)
Definition int_digits_ok (d : uint) : bool :=
  match d with
  | Nil => false
  | D0 Nil => true
  | D0 _ => false
  | _ => true
  end.

(** Fractions and exponents denote numbers outside the integers of this
    model and are not read. *)
Definition starts_fraction (s : string) : bool :=
  match s with
  | String c _ => Ascii.eqb c "." || Ascii.eqb c "e" || Ascii.eqb c "E"
  | EmptyString => false
  end.

Definition parse_number (s : string) : option (Z * string) :=
  match s with
  | String "-" r =>
      let '(d, rest) := parse_digits r in
      if int_digits_ok d && negb (starts_fraction rest)
      then Some (- Z.of_uint d, rest) else None
  | _ =>
      let '(d, rest) := parse_digits s in
      if int_digits_ok d && negb (starts_fraction rest)
      then Some (Z.of_uint d, rest) else None
  end.

Definition hex_value (c : ascii) : option N :=
  let n := N_of_ascii c in
  if (48 <=? n)%N && (n <=? 57)%N then Some (n - 48)%N
  else if (97 <=? n)%N && (n <=? 102)%N then Some (n - 87)%N
  else if (65 <=? n)%N && (n <=? 70)%N then Some (n - 55)%N
  else None.

Definition unescape (e : ascii) : option ascii :=
  if Ascii.eqb e dquote then Some dquote
  else if Ascii.eqb e backslash then Some backslash
  else if Ascii.eqb e "/" then Some "/"%char
  else if Ascii.eqb e "b" then Some "008"%char
  else if Ascii.eqb e "t" then Some "009"%char
  else if Ascii.eqb e "n" then Some "010"%char
  else if Ascii.eqb e "f" then Some "012"%char
  else if Ascii.eqb e "r" then Some "013"%char
  else None.

(** The characters of a string literal after its opening quote, up to and
    including the closing quote.  A [\uXXXX] escape above U+007F has no
    single byte and is not read. *)
Fixpoint parse_string_body (s : string) : option (string * string) :=
  match s with
  | EmptyString => None
  | String c r =>
      if Ascii.eqb c dquote then Some (EmptyString, r)
      else if Ascii.eqb c backslash then
        match r with
        | String e r' =>
            match unescape e with
            | Some c' =>
                match parse_string_body r' with
                | Some (str, rest) => Some (String c' str, rest)
                | None => None
                end
            | None =>
                if Ascii.eqb e "u" then
                  match r' with
                  | String h1 (String h2 (String h3 (String h4 r''))) =>
                      match hex_value h1, hex_value h2, hex_value h3, hex_value h4 with
                      | Some a, Some b, Some c2, Some d =>
                          let n := (((a * 16 + b) * 16 + c2) * 16 + d)%N in
                          if (n <? 128)%N then
                            match parse_string_body r'' with
                            | Some (str, rest) => Some (String (ascii_of_N n) str, rest)
                            | None => None
                            end
                          else None
                      | _, _, _, _ => None
                      end
                  | _ => None
                  end
                else None
            end
        | EmptyString => None
        end
      else if (N_of_ascii c <? 32)%N then None
      else
        match parse_string_body r with
        | Some (str, rest) => Some (String c str, rest)
        | None => None
        end
  end.

Fixpoint parse_value (fuel : nat) (s : string) : option (JSON * string) :=
  match fuel with
  | O => None
  | S f =>
      match skip_ws s with
      | EmptyString => None
      | String c r =>
          if Ascii.eqb c "n" then
            match r with
            | String "u" (String "l" (String "l" r')) => Some (JNull, r')
            | _ => None
            end
          else if Ascii.eqb c "t" then
            match r with
            | String "r" (String "u" (String "e" r')) => Some (JBool true, r')
            | _ => None
            end
          else if Ascii.eqb c "f" then
            match r with
            | String "a" (String "l" (String "s" (String "e" r'))) => Some (JBool false, r')
            | _ => None
            end
          else if Ascii.eqb c dquote then
            match parse_string_body r with
            | Some (str, r') => Some (JStr str, r')
            | None => None
            end
          else if Ascii.eqb c "[" then
            match skip_ws r with
            | String "]" r' => Some (JArr [], r')
            | _ =>
                match parse_elements f r with
                | Some (xs, r') => Some (JArr xs, r')
                | None => None
                end
            end
          else if Ascii.eqb c "{" then
            match skip_ws r with
            | String "}" r' => Some (JObj [], r')
            | _ =>
                match parse_members f r with
                | Some (kvs, r') => Some (JObj kvs, r')
                | None => None
                end
            end
          else
            match parse_number (String c r) with
            | Some (n, r') => Some (JNum n, r')
            | None => None
            end
      end
  end
with parse_elements (fuel : nat) (s : string) : option (list JSON * string) :=
  match fuel with
  | O => None
  | S f =>
      match parse_value f s with
      | None => None
      | Some (v, r) =>
          match skip_ws r with
          | String "," r' =>
              match parse_elements f r' with
              | Some (vs, r'') => Some (v :: vs, r'')
              | None => None
              end
          | String "]" r' => Some ([v], r')
          | _ => None
          end
      end
  end
with parse_members (fuel : nat) (s : string) : option (list (string * JSON) * string) :=
  match fuel with
  | O => None
  | S f =>
      match skip_ws s with
      | String c r =>
          if Ascii.eqb c dquote then
            match parse_string_body r with
            | None => None
            | Some (key, r1) =>
                match skip_ws r1 with
                | String ":" r2 =>
                    match parse_value f r2 with
                    | None => None
                    | Some (v, r3) =>
                        match skip_ws r3 with
                        | String "," r4 =>
                            match parse_members f r4 with
                            | Some (kvs, r5) => Some ((key, v) :: kvs, r5)
                            | None => None
                            end
                        | String "}" r4 => Some ([(key, v)], r4)
                        | _ => None
                        end
                    end
                | _ => None
                end
            end
          else None
      | EmptyString => None
      end
  end.

(** A reader of JSON text, for the examples and for the round trip with
    [JSON_stringify].  Where it answers a value, [JSON.parse] returns that
    value (for integers of magnitude below 2^53); it answers [None] where
    [JSON.parse] throws, and also for JSON text it does not read: a
    number with a fraction or an exponent, a [\u] escape above U+007F.
    The members of an object are kept in document order.  The services
    below take [JSON.parse] itself as a parameter. *)
Definition read_json (text : string) : option JSON :=
  match parse_value (S (String.length text)) text with
  | Some (v, rest) =>
      match skip_ws rest with
      | EmptyString => Some v
      | _ => None
      end
  | None => None
  end.

(** *** Measures used to reason about the parser *)

(** The recursion depth the parser needs for a value: one step for the
    value and one for each element or member it holds. *)
Fixpoint json_size (v : JSON) : nat :=
  match v with
  | JArr xs =>
      S ((fix go (l : list JSON) : nat :=
            match l with
            | [] => O
            | x :: l' => S (json_size x + go l')
            end) xs)
  | JObj kvs =>
      S ((fix go (l : list (string * JSON)) : nat :=
            match l with
            | [] => O
            | kv :: l' => S (json_size kv.2 + go l')
            end) kvs)
  | _ => 1%nat
  end.

Definition starts_digit (s : string) : bool :=
  match s with
  | String c _ => match digit_of c with Some _ => true | None => false end
  | EmptyString => false
  end.

(** Text that may follow a number: no digit, fraction or exponent. *)
Definition number_end (s : string) : bool :=
  negb (starts_digit s) && negb (starts_fraction s).

Definition number_start (c : ascii) : bool :=
  Ascii.eqb c "-" || match digit_of c with Some _ => true | None => false end.

(** The first character of a printed value: not white space, and not a
    closing bracket. *)
Definition value_start (c : ascii) : bool :=
  negb (is_ws c) && negb (Ascii.eqb c "]") && negb (Ascii.eqb c "}").

(** What [stringify_k] prints after the first element of an array, and
    after the first member of an object. *)
Definition arr_tail (k : string) : list JSON → string :=
  fix tail (l : list JSON) : string :=
    match l with
    | [] => String "]" k
    | y :: l' => String "," (stringify_k y (tail l'))
    end.

Definition obj_tail (k : string) : list (string * JSON) → string :=
  fix tail (l : list (string * JSON)) : string :=
    match l with
    | [] => String "}" k
    | (key', y) :: l' => String "," (quote key' (String ":" (stringify_k y (tail l'))))
    end.

(** ** Exceptions and results *)

(** What a [throw] carries: [new Error(message)], [new TypeError(message)],
    or the [SyntaxError] of [JSON.parse]. *)
Inductive Exn : Type :=
| Error (message : string)
| TypeError (message : string)
| SyntaxError.

(** [error.message] *)
Definition exn_message (e : Exn) : string :=
  match e with
  | Error m => m
  | TypeError m => m
  | SyntaxError => "Unexpected token in JSON"
  end.

Inductive outcome (A : Type) : Type :=
| Returns (a : A)
| Throws (e : Exn).
Arguments Returns {A} a.
Arguments Throws {A} e.

(** The error taxonomy of the specification, by the message the code throws. *)
Definition ValidationError : Exn := Error "Task must include instruction and repository".
Definition NotFoundError : Exn := Error "Task not found".
Definition AuthorizationError : Exn := Error "Not authorized to cancel this task".
Definition InvalidStateError (status : JsVal) : Exn :=
  Error ("Cannot cancel task with status: " +:+ js_String status).

(** ** The shared store *)

Module Redis.

(** Modelled from the spec: the shared key-value/sorted-set store is an
    external service (section 6: hash-map operations read-all-fields and
    write-fields, sorted-set operations insert-with-score, remove, rank and
    cardinality).  A hash keeps the field values that reach it, which are
    text (see the client below); a sorted set is the list of its (score,
    member) entries in ascending order of score, members of equal score in
    lexicographic order.  The store is taken to be reachable and the
    client connected: the operations always answer. *)
Record Store : Type := {
  hashes : gmap string (gmap string JSON);
  zsets : gmap string (list (Z * string))
}.

Definition empty : Store := {| hashes := ∅; zsets := ∅ |}.

(** HGETALL: all fields of the hash at [key], none when there is no hash. *)
Definition hGetAll (key : string) (st : Store) : gmap string JSON :=
  default ∅ (hashes st !! key).

(** HSET: write the given fields, keeping the other fields of the hash. *)
Definition hSet (key : string) (fields : gmap string JSON) (st : Store) : Store :=
  {| hashes := <[key := fields ∪ hGetAll key st]> (hashes st);
     zsets := zsets st |}.

Definition entry_leb (a b : Z * string) : bool :=
  (a.1 <? b.1) || ((a.1 =? b.1) && String.leb a.2 b.2).

Fixpoint zset_insert (e : Z * string) (z : list (Z * string)) : list (Z * string) :=
  match z with
  | [] => [e]
  | x :: z' => if entry_leb e x then e :: x :: z' else x :: zset_insert e z'
  end.

Fixpoint zset_remove (member : string) (z : list (Z * string)) : list (Z * string) :=
  match z with
  | [] => []
  | x :: z' =>
      if String.eqb x.2 member then zset_remove member z' else x :: zset_remove member z'
  end.

Definition zset_add (score : Z) (member : string) (z : list (Z * string)) :
    list (Z * string) :=
  zset_insert (score, member) (zset_remove member z).

Fixpoint zset_rank (member : string) (z : list (Z * string)) : option nat :=
  match z with
  | [] => None
  | x :: z' =>
      if String.eqb x.2 member then Some O
      else match zset_rank member z' with
           | Some r => Some (S r)
           | None => None
           end
  end.

Fixpoint zset_score (member : string) (z : list (Z * string)) : option Z :=
  match z with
  | [] => None
  | x :: z' => if String.eqb x.2 member then Some x.1 else zset_score member z'
  end.

(** The order a sorted set keeps: scores never decrease along the list. *)
Fixpoint scores_sorted (z : list (Z * string)) : bool :=
  match z with
  | [] => true
  | x :: z' => forallb (λ y, x.1 <=? y.1) z' && scores_sorted z'
  end.

Definition zRange (key : string) (st : Store) : list (Z * string) :=
  default [] (zsets st !! key).

(** ZADD: insert the member with its score, replacing an entry it already has. *)
Definition zAdd (key : string) (score : Z) (member : string) (st : Store) : Store :=
  {| hashes := hashes st;
     zsets := <[key := zset_add score member (zRange key st)]> (zsets st) |}.

(** ZREM. *)
Definition zRem (key : string) (member : string) (st : Store) : Store :=
  {| hashes := hashes st;
     zsets := <[key := zset_remove member (zRange key st)]> (zsets st) |}.

(** ZRANK: 0-indexed position of the member, [None] (null) when absent. *)
Definition zRank (key : string) (member : string) (st : Store) : option nat :=
  zset_rank member (zRange key st).

(** ZCARD. *)
Definition zCard (key : string) (st : Store) : nat :=
  length (zRange key st).

(** *** The client

    The services reach the store through the client the project pins
    ([redis@^4.6.12]).  The client sends a command only when every
    argument is text.  For [hSet] with an object it turns each field value
    that is a number into its decimal text ([convertValue]); a value that
    is then not text ([null], a boolean, an array, an object) makes the
    call fail with [TypeError: Invalid argument type] before anything is
    sent, so that nothing is written. *)
Definition convertValue (value : JSON) : JSON :=
  match value with
  | JNum n => JStr (number_toString n)
  | _ => value
  end.

Definition is_text (value : JSON) : bool :=
  match value with
  | JStr _ => true
  | _ => false
  end.

(** Every field value is text once converted. *)
Definition encodable (fields : gmap string JSON) : bool :=
  bool_decide (map_Forall (λ _ value, is_text (convertValue value) = true) fields).

Definition InvalidArgumentType : Exn := TypeError "Invalid argument type".

(** [redis.hSet(key, fields)] *)
Definition client_hSet (key : string) (fields : gmap string JSON) (st : Store) :
    outcome Store :=
  if encodable fields
  then Returns (hSet key (convertValue <$> fields) st)
  else Throws InvalidArgumentType.

End Redis.

(** ** Task submission service ([taskSubmissionService.js]) *)

Module TaskService.
Import Redis.

Definition TASK_QUEUE_PREFIX : string := "autoclaudeQueue".
Definition TASK_DETAILS_PREFIX : string := "task".

Definition pending_key : string := TASK_QUEUE_PREFIX +:+ ":pending".
Definition task_key (taskId : string) : string := TASK_DETAILS_PREFIX +:+ ":" +:+ taskId.

(** The task specification, with the field types of the source's
    documentation; [None] is a field the caller left out. *)
Record TaskSpec : Type := {
  instruction : option string;
  repository : option string;
  branch : option string;
  priority : option Z;
  context : JsVal
}.

(** What one call of [submitTask] reads from its environment: the clock
    and the random bytes of [generateTaskId], the clock of
    [new Date().toISOString()] already rendered, and the clock of the
    score. *)
Record SubmitEnv : Type := {
  id_clock : Z;
  id_random : string;
  submitted_iso : string;
  score_clock : Z
}.

Definition generateTaskId (env : SubmitEnv) : string :=
  "task-" +:+ toString36 (id_clock env) +:+ "-" +:+ id_random env.

(** The [task] object of [submitTask]. *)
Record Task : Type := {
  id : string;
  t_instruction : option string;
  t_repository : option string;
  t_branch : string;
  t_priority : Z;
  t_context : JSON;
  submittedBy : string;
  submittedAt : string;
  status : string
}.

Definition str_or (a : option string) (b : string) : string :=
  if truthy_str a then default b a else b.

Definition num_or (a : option Z) (b : Z) : Z :=
  if truthy_num a then default b a else b.

Definition new_task (taskId : string) (taskSpec : TaskSpec) (userId : string)
    (env : SubmitEnv) : Task :=
  {| id := taskId;
     t_instruction := instruction taskSpec;
     t_repository := repository taskSpec;
     t_branch := str_or (branch taskSpec) "main";
     t_priority := num_or (priority taskSpec) 3;
     t_context := js_or (context taskSpec) empty_object;
     submittedBy := userId;
     submittedAt := submitted_iso env;
     status := "pending" |}.

(** A string field as a stored value; a missing one is written as null
    (the required fields are never missing once validation has passed). *)
Definition str_value (v : option string) : JSON :=
  match v with
  | Some s => JStr s
  | None => JNull
  end.

(** The fields handed to [hSet]: [{...task, context: JSON.stringify(task.context)}]. *)
Definition task_fields (task : Task) : gmap string JSON :=
  <["context" := JStr (JSON_stringify (t_context task))]>
    (list_to_map
       [ ("id", JStr (id task));
         ("instruction", str_value (t_instruction task));
         ("repository", str_value (t_repository task));
         ("branch", JStr (t_branch task));
         ("priority", JNum (t_priority task));
         ("context", t_context task);
         ("submittedBy", JStr (submittedBy task));
         ("submittedAt", JStr (submittedAt task));
         ("status", JStr (status task));
         ("agentId", JNull);
         ("startedAt", JNull);
         ("completedAt", JNull);
         ("result", JNull);
         ("error", JNull) ]).

(** The order key of a queue entry. *)
Definition score (priority now : Z) : Z := priority * 1000000 + now.

Definition getQueuePosition (taskId : string) (st : Store) : option nat :=
  zRank pending_key taskId st.

(** [Math.ceil(a / b)] for a positive divisor. *)
Definition ceil_div (a b : Z) : Z := - ((- a) / b).

Definition estimateWaitTime (st : Store) : Z :=
  let queueDepth := Z.of_nat (zCard pending_key st) in
  let avgTaskDuration := 600 in
  let estimatedAgents := Z.max 1 (ceil_div queueDepth 3) in
  ceil_div (queueDepth * avgTaskDuration) estimatedAgents.

Record SubmitResult : Type := {
  r_taskId : string;
  r_status : string;
  queuePosition : option nat;
  estimatedWaitTime : Z
}.

(** [submitTask].  The record goes to the store through the client, which
    may refuse it; the queue entry is added after the record is written. *)
Definition submitTask (taskSpec : TaskSpec) (userId : string) (env : SubmitEnv)
    (st : Store) : outcome SubmitResult * Store :=
  if negb (truthy_str (instruction taskSpec)) || negb (truthy_str (repository taskSpec))
  then (Throws (Error "Task must include instruction and repository"), st)
  else
    let taskId := generateTaskId env in
    let task := new_task taskId taskSpec userId env in
    match client_hSet (task_key taskId) (task_fields task) st with
    | Throws error => (Throws error, st)
    | Returns st1 =>
        let st2 := zAdd pending_key (score (t_priority task) (score_clock env)) taskId st1 in
        (Returns {| r_taskId := taskId;
                    r_status := "pending";
                    queuePosition := getQueuePosition taskId st2;
                    estimatedWaitTime := estimateWaitTime st2 |},
         st2)
    end.

(** [getTaskDetails]: [Returns None] is the [null] of a task that is not
    stored.  [JSON_parse] is [JSON.parse] of the runtime, [None] where it
    throws its [SyntaxError]. *)
Definition getTaskDetails (JSON_parse : string → option JSON) (taskId : string)
    (st : Store) : outcome (option (gmap string JSON)) :=
  let taskData := hGetAll (task_key taskId) st in
  if Nat.eqb (size taskData) 0 then Returns None
  else
    match JSON_parse (js_String_json (js_or (taskData !! "context") (JStr "{}"))) with
    | Some ctx => Returns (Some (<["context" := ctx]> taskData))
    | None => Throws SyntaxError
    end.

Record CancelResult : Type := {
  c_taskId : string;
  c_status : string;
  c_message : string
}.

(** The fields [cancelTask] writes:
    [{status: 'cancelled', cancelledAt: ..., cancelledBy: userId}]. *)
Definition cancellation (now_iso userId : string) : gmap string JSON :=
  list_to_map
    [ ("status", JStr "cancelled");
      ("cancelledAt", JStr now_iso);
      ("cancelledBy", JStr userId) ].

(** [cancelTask]; [now_iso] is what [new Date().toISOString()] yields.  The
    three fields it writes are text, which the client sends as they are. *)
Definition cancelTask (JSON_parse : string → option JSON) (taskId userId : string)
    (now_iso : string) (st : Store) : outcome CancelResult * Store :=
  match getTaskDetails JSON_parse taskId st with
  | Throws e => (Throws e, st)
  | Returns None => (Throws (Error "Task not found"), st)
  | Returns (Some task) =>
      if negb (strict_eq_str (task !! "submittedBy") userId)
      then (Throws (Error "Not authorized to cancel this task"), st)
      else if negb (strict_eq_str (task !! "status") "pending")
      then (Throws (Error ("Cannot cancel task with status: " +:+ js_String (task !! "status"))), st)
      else
        let st1 := zRem pending_key taskId st in
        let st2 := hSet (task_key taskId) (cancellation now_iso userId) st1 in
        (Returns {| c_taskId := taskId;
                    c_status := "cancelled";
                    c_message := "Task cancelled successfully" |},
         st2)
  end.

(** *** Vocabulary of the properties *)

(** A task record is stored under the identifier. *)
Definition task_exists (taskId : string) (st : Store) : bool :=
  negb (Nat.eqb (size (hGetAll (task_key taskId) st)) 0).

(** [JSON.parse] reads the stored context of a record, so that reading
    the record does not throw. *)
Definition context_parses (JSON_parse : string → option JSON) (h : gmap string JSON) :
    bool :=
  match JSON_parse (js_String_json (js_or (h !! "context") (JStr "{}"))) with
  | Some _ => true
  | None => false
  end.

(** The branch and the priority a specification gets: a missing or falsy
    field takes the default. *)
Definition default_branch (b : option string) : string :=
  match b with
  | Some s => if String.eqb s "" then "main" else s
  | None => "main"
  end.

Definition default_priority (p : option Z) : Z :=
  match p with
  | Some n => if n =? 0 then 3 else n
  | None => 3
  end.

(** The store after a successful cancellation. *)
Definition cancelled_store (taskId userId now_iso : string) (st : Store) : Store :=
  hSet (task_key taskId) (cancellation now_iso userId) (zRem pending_key taskId st).



End TaskService.

(** ** Fleet reconciler ([agentDiscoveryService.js]) *)

Module Discovery.

(** *** The orchestrator's pod listing *)

Record Condition : Type := { c_type : string; c_status : string }.

Record RawContainerStatus : Type := {
  raw_name : string;
  raw_ready : bool;
  raw_restartCount : Z;
  raw_state : option (list (string * JSON))
}.

Record PodItem : Type := {
  metadata_name : string;
  metadata_uid : string;
  status_phase : string;
  status_conditions : option (list Condition);
  status_podIP : option string;
  spec_nodeName : option string;
  status_startTime : option string;
  status_containerStatuses : option (list RawContainerStatus)
}.

Record ContainerStatus : Type := {
  cs_name : string;
  cs_ready : bool;
  cs_restartCount : Z;
  cs_state : option string
}.

Record Pod : Type := {
  name : string;
  uid : string;
  phase : string;
  ready : bool;
  podIP : option string;
  nodeName : option string;
  startTime : option string;
  containerStatuses : option (list ContainerStatus)
}.

(** [conditions?.find(c => c.type === 'Ready')?.status === 'True'] *)
Definition pod_ready (conditions : option (list Condition)) : bool :=
  match conditions with
  | None => false
  | Some cs =>
      match List.find (λ c, String.eqb (c_type c) "Ready") cs with
      | Some c => String.eqb (c_status c) "True"
      | None => false
      end
  end.

Definition to_container_status (cs : RawContainerStatus) : ContainerStatus :=
  {| cs_name := raw_name cs;
     cs_ready := raw_ready cs;
     cs_restartCount := raw_restartCount cs;
     cs_state := head (List.map fst (default [] (raw_state cs))) |}.

Definition to_pod (pod : PodItem) : Pod :=
  {| name := metadata_name pod;
     uid := metadata_uid pod;
     phase := status_phase pod;
     ready := pod_ready (status_conditions pod);
     podIP := status_podIP pod;
     nodeName := spec_nodeName pod;
     startTime := status_startTime pod;
     containerStatuses :=
       option_map (List.map to_container_status) (status_containerStatuses pod) |}.

(** [discoverAgentPods]; the argument is the answer of the orchestrator's
    list call. *)
Definition discoverAgentPods (listing : outcome (list PodItem)) : outcome (list Pod) :=
  match listing with
  | Returns items => Returns (List.map to_pod items)
  | Throws e => Throws (Error ("Kubernetes API error: " +:+ exn_message e))
  end.

(** *** Self-reported state *)

Definition is_js_space (c : ascii) : bool :=
  Ascii.eqb c " " || Ascii.eqb c "009" || Ascii.eqb c "010" || Ascii.eqb c "011"
  || Ascii.eqb c "012" || Ascii.eqb c "013".

(** The white space of the language above U+007F by its UTF-8 bytes:
    U+00A0 after [C2]; U+1680 after [E1]; U+2000 to U+200A, U+2028,
    U+2029, U+202F and U+205F after [E2]; U+3000 after [E3]; U+FEFF after
    [EF]. *)
Definition is_wide_space (lead b d : N) : bool :=
  ((lead =? 225) && (b =? 154) && (d =? 128)
   || (lead =? 226) && (b =? 128)
        && ((128 <=? d) && (d <=? 138) || (d =? 168) || (d =? 169) || (d =? 175))
   || (lead =? 226) && (b =? 129) && (d =? 159)
   || (lead =? 227) && (b =? 128) && (d =? 128)
   || (lead =? 239) && (b =? 187) && (d =? 191))%N.

(** The string without its leading white space, as [parseInt] skips it. *)
Fixpoint trim_start (s : string) : string :=
  match s with
  | String c r =>
      if is_js_space c then trim_start r
      else
        match r with
        | String b r1 =>
            if ((N_of_ascii c =? 194) && (N_of_ascii b =? 160))%N then trim_start r1
            else
              match r1 with
              | String d r2 =>
                  if is_wide_space (N_of_ascii c) (N_of_ascii b) (N_of_ascii d)
                  then trim_start r2
                  else s
              | EmptyString => s
              end
        | EmptyString => s
        end
  | EmptyString => EmptyString
  end.

Fixpoint hex_prefix (s : string) (acc : option N) : option N :=
  match s with
  | String c r =>
      match hex_value c with
      | Some d => hex_prefix r (Some (default 0%N acc * 16 + d)%N)
      | None => acc
      end
  | EmptyString => acc
  end.

Definition parse_magnitude (s : string) : option Z :=
  match s with
  | String "0" (String x r) =>
      if Ascii.eqb x "x" || Ascii.eqb x "X"
      then option_map Z.of_N (hex_prefix r None)
      else match (parse_digits s).1 with
           | Nil => None
           | d => Some (Z.of_uint d)
           end
  | _ =>
      match (parse_digits s).1 with
      | Nil => None
      | d => Some (Z.of_uint d)
      end
  end.

(** [parseInt(s)] without a radix: [None] is [NaN].  The digits are read
    as the integer they denote; that is the result of the source for
    magnitudes up to 2^53, beyond which the source rounds to the nearest
    binary64. *)
Definition parseInt (s : string) : option Z :=
  match trim_start s with
  | String "-" r => option_map Z.opp (parse_magnitude r)
  | String "+" r => parse_magnitude r
  | t => parse_magnitude t
  end.

(** [new Date(v)], kept as the value it was built from. *)
Inductive JsDate : Type := MkDate (source : JSON).

(** The object [getAgentStateFromRedis] builds. *)
Record AgentState : Type := {
  as_status : JSON;
  as_currentTask : JSON;
  as_worktreePath : JSON;
  as_lastHeartbeat : option JsDate;   (* [None] is [null] *)
  as_tasksCompleted : option Z;       (* [None] is [NaN] *)
  as_tasksFailed : option Z
}.

Definition agent_key (agentId : string) : string := "agent:" +:+ agentId.

(** [getAgentStateFromRedis]; [read] is the answer to reading the hash at
    a key, [Throws] when the read is rejected.  [None] is the [null] the
    function returns.  A read that is never answered (the client queues
    the command while it keeps retrying a refused connection) has no
    answer here: the function, and the listing that awaits it, describe
    the reads that settle. *)
Definition getAgentStateFromRedis (read : string → outcome (gmap string JSON))
    (agentId : string) : option AgentState :=
  match read (agent_key agentId) with
  | Throws _ => None
  | Returns agentState =>
      if Nat.eqb (size agentState) 0 then None
      else
        Some {| as_status := js_or (agentState !! "status") (JStr "unknown");
                as_currentTask := js_or (agentState !! "task") JNull;
                as_worktreePath := js_or (agentState !! "worktree") JNull;
                as_lastHeartbeat :=
                  if truthy (agentState !! "lastHeartbeat")
                  then option_map MkDate (agentState !! "lastHeartbeat")
                  else None;
                as_tasksCompleted :=
                  parseInt (js_String_json (js_or (agentState !! "tasksCompleted") (JStr "0")));
                as_tasksFailed :=
                  parseInt (js_String_json (js_or (agentState !! "tasksFailed") (JStr "0"))) |}
  end.

(** A property that may be [undefined] ([Undefined]), [null] ([Null]) or
    hold a value. *)
Inductive Nullable (A : Type) : Type :=
| Undefined
| Null
| Value (a : A).
Arguments Undefined {A}.
Arguments Null {A}.
Arguments Value {A} a.

Record Metrics : Type := { tasksCompleted : Z; tasksFailed : Z }.

Record AgentView : Type := {
  v_id : string;
  v_uid : string;
  v_status : string;
  v_podStatus : string;
  v_ready : bool;
  v_podIP : option string;
  v_nodeName : option string;
  v_startTime : option string;
  v_containers : option (list ContainerStatus);
  agentStatus : JSON;
  currentTask : Nullable JSON;
  worktreePath : Nullable JSON;
  lastHeartbeat : Nullable JsDate;
  metrics : Metrics
}.

Definition lower (c : ascii) : ascii :=
  let n := N_of_ascii c in
  if (65 <=? n)%N && (n <=? 90)%N then ascii_of_N (n + 32) else c.

Fixpoint toLowerCase (s : string) : string :=
  match s with
  | String c r => String (lower c) (toLowerCase r)
  | EmptyString => EmptyString
  end.

(** [redisState?.field] for a field holding a JSON value. *)
Definition opt_field (redisState : option AgentState) (f : AgentState → JSON) :
    Nullable JSON :=
  match redisState with
  | None => Undefined
  | Some s => match f s with JNull => Null | v => Value v end
  end.

(** [redisState?.status || 'unknown'] *)
Definition status_or_unknown (redisState : option AgentState) : JSON :=
  match redisState with
  | Some s => if truthy_json (as_status s) then as_status s else JStr "unknown"
  | None => JStr "unknown"
  end.

(** [redisState?.counter || 0]: [undefined], [NaN] and [0] all give 0. *)
Definition counter_or_zero (redisState : option AgentState)
    (f : AgentState → option Z) : Z :=
  match redisState with
  | Some s => default 0 (f s)
  | None => 0
  end.

(** The body of the [pods.map] callback of [discoverAgents]. *)
Definition agent_view (read : string → outcome (gmap string JSON)) (pod : Pod) : AgentView :=
  let redisState := getAgentStateFromRedis read (name pod) in
  {| v_id := name pod;
     v_uid := uid pod;
     v_status := if ready pod then "ready" else toLowerCase (phase pod);
     v_podStatus := phase pod;
     v_ready := ready pod;
     v_podIP := podIP pod;
     v_nodeName := nodeName pod;
     v_startTime := startTime pod;
     v_containers := containerStatuses pod;
     agentStatus := status_or_unknown redisState;
     currentTask := opt_field redisState as_currentTask;
     worktreePath := opt_field redisState as_worktreePath;
     lastHeartbeat :=
       match redisState with
       | None => Undefined
       | Some s => match as_lastHeartbeat s with Some d => Value d | None => Null end
       end;
     metrics := {| tasksCompleted := counter_or_zero redisState as_tasksCompleted;
                   tasksFailed := counter_or_zero redisState as_tasksFailed |} |}.

(** [discoverAgents]: the listing of the orchestrator joined with the
    self-reported state of each pod. *)
Definition discoverAgents (listing : outcome (list PodItem))
    (read : string → outcome (gmap string JSON)) : outcome (list AgentView) :=
  match discoverAgentPods listing with
  | Throws e => Throws e
  | Returns pods => Returns (List.map (agent_view read) pods)
  end.

(** The worker has not reported: reading its record fails, or there is
    no record. *)
Definition unreported (read : string → outcome (gmap string JSON)) (agentId : string) :
    bool :=
  match read (agent_key agentId) with
  | Throws _ => true
  | Returns h => Nat.eqb (size h) 0
  end.

End Discovery.

(** ** Key cache and scope gate ([janua-auth.js]) *)

Module JanuaAuth.

Definition JWKS_CACHE_DURATION : Z := 3600 * 1000.

(** The two module-level variables [jwksCache] and [jwksCacheTime]. *)
Record KeyCache : Type := {
  jwksCache : JSON;
  jwksCacheTime : Z
}.

(** The state at start-up: [jwksCache = null], [jwksCacheTime = 0]. *)
Definition initial : KeyCache := {| jwksCache := JNull; jwksCacheTime := 0 |}.

(** The answer of the issuer to one request; [json_body] is what
    [response.json()] gives. *)
Record Response : Type := {
  ok : bool;
  resp_status : Z;
  json_body : outcome JSON
}.

(** What a call does besides returning: requests sent and console lines. *)
Inductive Event : Type :=
| Fetched (url : string)
| Logged (line : string)
| Warned (line : string)
| ErrorLogged (e : Exn).

Definition is_fetch (ev : Event) : bool :=
  match ev with
  | Fetched _ => true
  | _ => false
  end.

(** The [try] block of [getJWKS]: the request, the status check and the
    decoding of the body. *)
Definition fetch_keys (net : outcome Response) : outcome JSON :=
  match net with
  | Throws e => Throws e
  | Returns response =>
      if negb (ok response)
      then Throws (Error ("Failed to fetch JWKS: " +:+ number_toString (resp_status response)))
      else json_body response
  end.

Record Run : Type := {
  result : outcome JSON;
  cache_after : KeyCache;
  events : list Event
}.

(** [getJWKS]: [now] is [Date.now()], [net] the answer the issuer would
    give if it were asked. *)
Definition getJWKS (JANUA_URL : string) (now : Z) (net : outcome Response)
    (st : KeyCache) : Run :=
  if truthy_json (jwksCache st) && (now - jwksCacheTime st <? JWKS_CACHE_DURATION)
  then {| result := Returns (jwksCache st); cache_after := st; events := [] |}
  else
    let url := JANUA_URL +:+ "/.well-known/jwks.json" in
    match fetch_keys net with
    | Returns keys =>
        {| result := Returns keys;
           cache_after := {| jwksCache := keys; jwksCacheTime := now |};
           events := [Fetched url; Logged "JWKS fetched and cached from Janua"] |}
    | Throws error =>
        if truthy_json (jwksCache st)
        then {| result := Returns (jwksCache st);
                cache_after := st;
                events := [Fetched url; ErrorLogged error; Warned "Using stale JWKS cache"] |}
        else {| result := Throws error;
                cache_after := st;
                events := [Fetched url; ErrorLogged error] |}
    end.

(** *** Requests and middleware *)

(** [s.split(' ')]. *)
Fixpoint split_space (s : string) : list string :=
  match s with
  | EmptyString => [EmptyString]
  | String c r =>
      if Ascii.eqb c " " then EmptyString :: split_space r
      else match split_space r with
           | h :: t => String c h :: t
           | [] => [String c EmptyString]
           end
  end.

(** The claims of a verified token that the middleware reads. *)
Record Payload : Type := {
  sub : option string;
  email : option string;
  p_name : option string;
  scope : option string
}.

Record User : Type := {
  u_id : option string;
  u_username : option string;
  u_email : option string;
  u_name : option string;
  scopes : option (list string)
}.

Record Request : Type := {
  authorization : option string;
  user : option User
}.

(** A middleware either calls [next()] with the request as it now is, or
    answers with a status and a JSON body. *)
Inductive Handled : Type :=
| Next (req : Request)
| Respond (code : Z) (body : JSON).

(** [payload.scope ? payload.scope.split(' ') : []] *)
Definition scopes_of (p : Payload) : list string :=
  if truthy_str (scope p) then split_space (default EmptyString (scope p)) else [].

Definition user_of (p : Payload) : User :=
  {| u_id := sub p;
     u_username := sub p;
     u_email := email p;
     u_name := p_name p;
     scopes := Some (scopes_of p) |}.

(** [authHeader && authHeader.split(' ')[1]] *)
Definition bearer_token (authHeader : option string) : option string :=
  if truthy_str authHeader
  then split_space (default EmptyString authHeader) !! 1%nat
  else None.

(** [authenticateJanuaToken]; [verifyJanuaToken] stands for the key
    lookup and the signature check of the token. *)
Definition authenticateJanuaToken (verifyJanuaToken : string → outcome Payload)
    (req : Request) : Handled :=
  let token := bearer_token (authorization req) in
  if negb (truthy_str token)
  then Respond 401
         (JObj [ ("error", JStr "Access denied. No token provided.");
                 ("hint", JStr ("Include " +:+ String dquote "Authorization: Bearer <token>"
                                 +:+ String dquote " header")) ])
  else
    match verifyJanuaToken (default EmptyString token) with
    | Returns payload =>
        Next {| authorization := authorization req; user := Some (user_of payload) |}
    | Throws error =>
        Respond 403
          (JObj [ ("error", JStr "Invalid or expired token");
                  ("details", JStr (exn_message error)) ])
    end.

(** [userScopes.includes(requiredScope)] *)
Definition includes (userScopes : list string) (requiredScope : string) : bool :=
  existsb (String.eqb requiredScope) userScopes.

(** [req.user?.scopes || []] *)
Definition user_scopes (req : Request) : list string :=
  match user req with
  | Some u => default [] (scopes u)
  | None => []
  end.

Definition requireScope (requiredScope : string) (req : Request) : Handled :=
  let userScopes := user_scopes req in
  if negb (includes userScopes requiredScope)
  then Respond 403
         (JObj [ ("error", JStr "Insufficient permissions");
                 ("required_scope", JStr requiredScope);
                 ("user_scopes", JArr (List.map JStr userScopes)) ])
  else Next req.

(** *** Vocabulary of the properties *)

Definition cached_set_exists (st : KeyCache) : bool := truthy_json (jwksCache st).

(** The age of the cache is below the freshness window. *)
Definition cache_fresh (now : Z) (st : KeyCache) : bool :=
  now - jwksCacheTime st <? JWKS_CACHE_DURATION.

(** The attempt to fetch fails: no answer, an answer that is not OK, or
    a body that is not JSON. *)
Definition fetch_fails (net : outcome Response) : bool :=
  match fetch_keys net with
  | Throws _ => true
  | Returns _ => false
  end.

Fixpoint has_space (t : string) : bool :=
  match t with
  | String c r => Ascii.eqb c " " || has_space r
  | EmptyString => false
  end.

(** A scope token: not empty, and without a space. *)
Definition scope_token (t : string) : bool :=
  negb (String.eqb t "") && negb (has_space t).

(** The capability string that lists the tokens, separated by single spaces. *)
Definition scope_string (tokens : list string) : string := String.concat " " tokens.

(** The answer of [requireScope] to a request without the scope. *)
Definition insufficient (requiredScope : string) (userScopes : list string) : Handled :=
  Respond 403
    (JObj [ ("error", JStr "Insufficient permissions");
            ("required_scope", JStr requiredScope);
            ("user_scopes", JArr (List.map JStr userScopes)) ]).

End JanuaAuth.

(** ** Example data *)

Module Examples.
Import Redis TaskService.

Definition t0 : Z := 1700000000000.

Definition env_at (clock : Z) (random iso : string) : SubmitEnv :=
  {| id_clock := clock; id_random := random; submitted_iso := iso; score_clock := clock |}.

Definition env0 : SubmitEnv := env_at t0 "0a0b0c0d" "2023-11-14T22:13:20.000Z".
Definition env_soon : SubmitEnv := env_at (t0 + 5) "1a1b1c1d" "2023-11-14T22:13:20.005Z".
Definition env_late : SubmitEnv :=
  env_at (t0 + 1000001) "2a2b2c2d" "2023-11-14T22:30:00.001Z".

Definition with_priority (p : option Z) : TaskSpec :=
  {| instruction := Some "fix bug"; repository := Some "janua";
     branch := None; priority := p; context := None |}.

(** The scenario of the specification: an urgent fix submitted by alice. *)
Definition fix_bug : TaskSpec := with_priority (Some 1).

Definition payload : JSON :=
  JObj [ ("files", JArr [JStr "login.ts"; JStr "session.ts"]);
         ("retries", JNum 2);
         ("notes", JStr "see issue 42") ].

Definition with_context : TaskSpec :=
  {| instruction := Some "fix bug"; repository := Some "janua";
     branch := Some "develop"; priority := Some 1; context := Some payload |}.

Definition id0 : string := generateTaskId env0.
Definition id_soon : string := generateTaskId env_soon.
Definition id_late : string := generateTaskId env_late.

(** A pending task as the hash holds it: every value is text. *)
Definition record (taskId owner : string) (p : Z) (contextText submittedAt : string) :
    gmap string JSON :=
  list_to_map
    [ ("id", JStr taskId);
      ("instruction", JStr "fix bug");
      ("repository", JStr "janua");
      ("branch", JStr "main");
      ("priority", JStr (number_toString p));
      ("context", JStr contextText);
      ("submittedBy", JStr owner);
      ("submittedAt", JStr submittedAt);
      ("status", JStr "pending") ].

(** The store with one more pending task: its record, and its queue
    entry under the order key of its priority and clock. *)
Definition queued (owner : string) (p : Z) (contextText : string) (env : SubmitEnv)
    (st : Store) : Store :=
  zAdd pending_key (score p (score_clock env)) (generateTaskId env)
    (hSet (task_key (generateTaskId env))
       (record (generateTaskId env) owner p contextText (submitted_iso env)) st).

(** The urgent fix of alice is pending. *)
Definition store1 : Store := queued "alice" 1 "{}" env0 empty.

(** Two pending tasks of the default priority, five milliseconds apart. *)
Definition store_fifo : Store := queued "bob" 3 "{}" env_soon (queued "alice" 3 "{}" env0 empty).

(** A routine task, and an urgent one 1000.001 seconds later. *)
Definition store_inverted : Store :=
  queued "bob" 1 "{}" env_late (queued "alice" 2 "{}" env0 empty).

(** A record whose context is no JSON text. *)
Definition store_unreadable : Store := queued "alice" 1 "{oops" env0 empty.

Import Discovery.

Definition pod_item (podName : string) : PodItem :=
  {| metadata_name := podName; metadata_uid := "uid-" +:+ podName;
     status_phase := "Running";
     status_conditions := Some [ {| c_type := "Ready"; c_status := "True" |} ];
     status_podIP := Some "10.0.0.7"; spec_nodeName := Some "node-1";
     status_startTime := Some "2023-11-14T22:00:00Z";
     status_containerStatuses := None |}.

(** agent-a has reported, the record of agent-b cannot be read, and
    agent-c has no record. *)
Definition reader (key : string) : outcome (gmap string JSON) :=
  if String.eqb key "agent:agent-a"
  then Returns (list_to_map [ ("status", JStr "busy"); ("tasksCompleted", JStr "12") ])
  else if String.eqb key "agent:agent-b"
  then Throws (Error "Socket closed unexpectedly")
  else Returns ∅.

Definition fleet : list PodItem := [pod_item "agent-a"; pod_item "agent-b"; pod_item "agent-c"].

Import JanuaAuth.

Definition issuer : string := "https://auth.madfam.io".
Definition key_set : JSON := JObj [ ("keys", JArr [ JObj [ ("kid", JStr "k1") ] ]) ].
Definition stale_cache : KeyCache := {| jwksCache := key_set; jwksCacheTime := t0 |}.
Definition outage : outcome Response := Throws (Error "getaddrinfo ENOTFOUND auth.madfam.io").

Definition viewer : Payload :=
  {| sub := Some "alice"; email := None; p_name := None;
     scope := Some "openid agent:view" |}.
Definition verify_viewer (token : string) : outcome Payload := Returns viewer.
Definition request : Request :=
  {| authorization := Some "Bearer abc.def.ghi"; user := None |}.

End Examples.

(** ** Task queries ([getUserTasks], [getQueueStats]) *)

Module TaskQueries.
Import Redis TaskService.

(** The object [getQueueStats] returns. *)
Record QueueStats : Type := {
  pending : nat;
  active : nat;
  completed : nat;
  failed : nat;
  total : nat
}.

(** [getQueueStats]; [lLen] is the length the store answers for a list
    (the lists are written by the workers). *)
Definition getQueueStats (lLen : string → nat) (st : Store) : QueueStats :=
  let pending := zCard (TASK_QUEUE_PREFIX +:+ ":pending") st in
  let active := lLen (TASK_QUEUE_PREFIX +:+ ":active") in
  let completed := lLen (TASK_QUEUE_PREFIX +:+ ":completed") in
  let failed := lLen (TASK_QUEUE_PREFIX +:+ ":failed") in
  {| pending := pending;
     active := active;
     completed := completed;
     failed := failed;
     total := pending + active + completed + failed |}.

(** The loop of [getUserTasks] over the scanned keys: the records of the
    user, each with its context parsed; a context that does not parse
    throws. *)
Fixpoint collect_user_tasks (JSON_parse : string → option JSON) (taskKeys : list string)
    (userId : string) (st : Store) : outcome (list (gmap string JSON)) :=
  match taskKeys with
  | [] => Returns []
  | key :: taskKeys' =>
      let taskData := hGetAll key st in
      if strict_eq_str (taskData !! "submittedBy") userId then
        match JSON_parse (js_String_json (js_or (taskData !! "context") (JStr "{}"))) with
        | None => Throws SyntaxError
        | Some ctx =>
            match collect_user_tasks JSON_parse taskKeys' userId st with
            | Returns tasks => Returns (<["context" := ctx]> taskData :: tasks)
            | Throws e => Throws e
            end
        end
      else collect_user_tasks JSON_parse taskKeys' userId st
  end.

(** The comparator [(a, b) => new Date(b.submittedAt) - new Date(a.submittedAt)];
    [getTime] is the time value of [new Date(v)], [None] for an invalid
    date.  A difference that is NaN counts as 0, as the sort takes it. *)
Definition compare_tasks (getTime : JsVal → option Z) (a b : gmap string JSON) : Z :=
  match getTime (b !! "submittedAt"), getTime (a !! "submittedAt") with
  | Some tb, Some ta => tb - ta
  | _, _ => 0
  end.

(** [Array.prototype.sort] with a comparator: a stable sort, here by
    insertion.  (For a comparator that is no consistent order the
    language leaves the result to the implementation.) *)
Fixpoint sort_insert {A} (cmp : A → A → Z) (x : A) (l : list A) : list A :=
  match l with
  | [] => [x]
  | y :: l' => if cmp x y <=? 0 then x :: y :: l' else y :: sort_insert cmp x l'
  end.

Fixpoint sort {A} (cmp : A → A → Z) (l : list A) : list A :=
  match l with
  | [] => []
  | x :: l' => sort_insert cmp x (sort cmp l')
  end.

(** [getUserTasks]; [scanned] is what the scan for [task:*] yields, in the
    order it yields it. *)
Definition getUserTasks (JSON_parse : string → option JSON) (getTime : JsVal → option Z)
    (scanned : list string) (userId : string) (st : Store) :
    outcome (list (gmap string JSON)) :=
  match collect_user_tasks JSON_parse scanned userId st with
  | Returns tasks => Returns (sort (compare_tasks getTime) tasks)
  | Throws e => Throws e
  end.

(** *** Vocabulary of the properties *)

(** The record at a key belongs to the user. *)
Definition owned_by (userId : string) (st : Store) (key : string) : bool :=
  strict_eq_str (hGetAll key st !! "submittedBy") userId.

(** The submission date of a record is a valid date. *)
Definition dated (getTime : JsVal → option Z) (st : Store) (key : string) : bool :=
  match getTime (hGetAll key st !! "submittedAt") with
  | Some _ => true
  | None => false
  end.

(** No member occurs twice in a sorted set. *)
Fixpoint members_unique (z : list (Z * string)) : bool :=
  match z with
  | [] => true
  | x :: z' => negb (existsb (λ y, String.eqb y.2 x.2) z') && members_unique z'
  end.

End TaskQueries.

(** ** Instruction heuristics ([parseNaturalLanguageInstruction]) *)

Module Instruction.

(** A pattern of literal characters under the [i] flag, matched at the
    head of a string: the text it matched and what follows. *)
Fixpoint ci_strip (pat s : string) : option (string * string) :=
  match pat with
  | EmptyString => Some (EmptyString, s)
  | String p pat' =>
      match s with
      | EmptyString => None
      | String c s' =>
          if Ascii.eqb (Discovery.lower c) (Discovery.lower p) then
            match ci_strip pat' s' with
            | Some (m, r) => Some (String c m, r)
            | None => None
            end
          else None
      end
  end.

(** The pattern matches somewhere in the string. *)
Fixpoint contains_ci (pat s : string) : bool :=
  match ci_strip pat s with
  | Some _ => true
  | None =>
      match s with
      | String _ s' => contains_ci pat s'
      | EmptyString => false
      end
  end.

(** [/a|b|.../i.test(s)] for alternatives of literal characters. *)
Definition test_any (alternatives : list string) (s : string) : bool :=
  existsb (λ pat, contains_ci pat s) alternatives.

Definition urgent_words : list string := ["urgent"; "critical"; "asap"; "immediately"].
Definition important_words : list string := ["important"; "soon"].
Definition low_words : list string := ["low priority"; "whenever"; "eventually"].
Definition repositories : list string :=
  ["janua"; "enclii"; "sim4d"; "avala"; "forj"; "forgesight"; "cotiza-studio"; "dhanam"].

(** A word character of a regular expression: a letter, a digit or [_]. *)
Definition is_word (c : ascii) : bool :=
  let n := N_of_ascii c in
  ((48 <=? n) && (n <=? 57) || (65 <=? n) && (n <=? 90) || (97 <=? n) && (n <=? 122)
   || (n =? 95))%N.

Definition starts_word (s : string) : bool :=
  match s with
  | String c _ => is_word c
  | EmptyString => false
  end.

(** One alternative of [\b(...)\b] at the head of a string: it matches,
    and a word boundary follows. *)
Definition match_alternative (alt s : string) : option string :=
  match ci_strip alt s with
  | Some (m, r) => if starts_word r then None else Some m
  | None => None
  end.

Fixpoint first_alternative (alternatives : list string) (s : string) : option string :=
  match alternatives with
  | [] => None
  | alt :: rest =>
      match match_alternative alt s with
      | Some m => Some m
      | None => first_alternative rest s
      end
  end.

(** [instruction.match(repoPattern)]: the leftmost match, as the capture
    group holds it.  [prev_word] tells whether the character before the
    string is a word character; every alternative starts with a letter,
    so the leading word boundary asks for it not to be. *)
Fixpoint find_repository (prev_word : bool) (s : string) : option string :=
  match s with
  | EmptyString => None
  | String c r =>
      match (if prev_word then None else first_alternative repositories s) with
      | Some m => Some m
      | None => find_repository (is_word c) r
      end
  end.

Record ParsedInstruction : Type := {
  repository : option string;
  priority : Z;
  suggestedRepository : option string
}.

Definition parseNaturalLanguageInstruction (instruction : string) : ParsedInstruction :=
  let repoMatch := find_repository false instruction in
  let priority :=
    if test_any urgent_words instruction then 1
    else if test_any important_words instruction then 2
    else if test_any low_words instruction then 4
    else 3 in
  {| repository := option_map Discovery.toLowerCase repoMatch;
     priority := priority;
     suggestedRepository := option_map Discovery.toLowerCase repoMatch |}.

(** *** Vocabulary of the properties *)

(** The text mentions the word, in whatever letter case. *)
Definition mentions (word text : string) : Prop :=
  ∃ before m after,
    text = before +:+ m +:+ after ∧ Discovery.toLowerCase m = word.

(** The last character of the string is a word character. *)
Fixpoint ends_word (s : string) : bool :=
  match s with
  | EmptyString => false
  | String c EmptyString => is_word c
  | String _ r => ends_word r
  end.

(** The text mentions the word as a whole word: no word character right
    before it or right after it. *)
Definition mentions_word (word text : string) : Prop :=
  ∃ before m after,
    text = before +:+ m +:+ after ∧ Discovery.toLowerCase m = word ∧
    ends_word before = false ∧ starts_word after = false.

End Instruction.

(** ** Client initialisation and single-agent lookup *)

Module Clients.
Import Discovery.

(** What an initialisation does to the outside: a cluster configuration
    is loaded, a connection to the store is attempted. *)
Inductive ClientEvent : Type :=
| ConfigLoaded
| ConnectAttempted.

(** The two module-level variables of the discovery service: [k8sApi] and
    [redisClient], each [null] ([false]) or set. *)
Record DiscoveryClients : Type := {
  k8sApi : bool;
  redisClient : bool
}.

Definition no_clients : DiscoveryClients := {| k8sApi := false; redisClient := false |}.

(** How a call ends: [Some] of what it returns or throws, [None] when it
    never settles (an awaited promise that stays pending).  With it, the
    variables as the call leaves them at its last step, and what it did
    to the outside. *)
Record Init (S : Type) : Type := {
  answer : option (outcome unit);
  clients : S;
  trace : list ClientEvent
}.
Arguments answer {S} _.
Arguments clients {S} _.
Arguments trace {S} _.

(** [initKubernetesClient]; [load] is the outcome of loading the
    configuration and making the API client. *)
Definition initKubernetesClient (load : outcome unit) (s : DiscoveryClients) :
    Init DiscoveryClients :=
  if k8sApi s then {| answer := Some (Returns ()); clients := s; trace := [] |}
  else
    match load with
    | Throws e => {| answer := Some (Throws e); clients := s; trace := [ConfigLoaded] |}
    | Returns _ =>
        {| answer := Some (Returns ());
           clients := {| k8sApi := true; redisClient := redisClient s |};
           trace := [ConfigLoaded] |}
    end.

(** [initRedisClient] of the discovery service; [connect] is how
    [redisClient.connect()] ends: it resolves, rejects, or never settles
    (the pinned client keeps retrying a refused connection).  The
    variable is assigned before the connection is awaited. *)
Definition initRedisClient (connect : option (outcome unit)) (s : DiscoveryClients) :
    Init DiscoveryClients :=
  if redisClient s then {| answer := Some (Returns ()); clients := s; trace := [] |}
  else
    let s' := {| k8sApi := k8sApi s; redisClient := true |} in
    match connect with
    | None => {| answer := None; clients := s'; trace := [ConnectAttempted] |}
    | Some (Throws e) =>
        {| answer := Some (Throws e); clients := s'; trace := [ConnectAttempted] |}
    | Some (Returns _) =>
        {| answer := Some (Returns ()); clients := s'; trace := [ConnectAttempted] |}
    end.

(** What [isAgentDiscoveryAvailable] answers, [None] when it never does. *)
Record Availability : Type := {
  available : option bool;
  clients_after : DiscoveryClients;
  attempts : list ClientEvent
}.

(** [isAgentDiscoveryAvailable] *)
Definition isAgentDiscoveryAvailable (load : outcome unit) (connect : option (outcome unit))
    (s : DiscoveryClients) : Availability :=
  let k := initKubernetesClient load s in
  match answer k with
  | Some (Returns _) =>
      let r := initRedisClient connect (clients k) in
      match answer r with
      | Some (Returns _) =>
          {| available := Some true; clients_after := clients r;
             attempts := trace k ++ trace r |}
      | Some (Throws _) =>
          {| available := Some false; clients_after := clients r;
             attempts := trace k ++ trace r |}
      | None =>
          {| available := None; clients_after := clients r;
             attempts := trace k ++ trace r |}
      end
  | Some (Throws _) =>
      {| available := Some false; clients_after := clients k; attempts := trace k |}
  | None => {| available := None; clients_after := clients k; attempts := trace k |}
  end.

(** The object [getAgentDetails] returns. *)
Record AgentDetails : Type := {
  d_id : string;
  d_uid : string;
  d_status : string;
  d_ready : bool;
  d_podIP : option string;
  d_nodeName : option string;
  d_startTime : option string;
  d_labels : option (list (string * string));
  d_containers : option (list RawContainerStatus);
  d_agentStatus : JSON;
  d_currentTask : Nullable JSON;
  d_worktreePath : Nullable JSON;
  d_lastHeartbeat : Nullable JsDate;
  d_metrics : Metrics
}.

(** [getAgentDetails]; [readPod] is the answer of the orchestrator for a
    pod name: the pod and its labels, or a failure, which is thrown on as
    it is. *)
Definition getAgentDetails
    (readPod : string → outcome (PodItem * option (list (string * string))))
    (read : string → outcome (gmap string JSON)) (agentId : string) : outcome AgentDetails :=
  match readPod agentId with
  | Throws error => Throws error
  | Returns (pod, labels) =>
      let redisState := getAgentStateFromRedis read agentId in
      Returns
        {| d_id := metadata_name pod;
           d_uid := metadata_uid pod;
           d_status := status_phase pod;
           d_ready := pod_ready (status_conditions pod);
           d_podIP := status_podIP pod;
           d_nodeName := spec_nodeName pod;
           d_startTime := status_startTime pod;
           d_labels := labels;
           d_containers := status_containerStatuses pod;
           d_agentStatus := status_or_unknown redisState;
           d_currentTask := opt_field redisState as_currentTask;
           d_worktreePath := opt_field redisState as_worktreePath;
           d_lastHeartbeat :=
             match redisState with
             | None => Undefined
             | Some s => match as_lastHeartbeat s with Some d => Value d | None => Null end
             end;
           d_metrics := {| tasksCompleted := counter_or_zero redisState as_tasksCompleted;
                           tasksFailed := counter_or_zero redisState as_tasksFailed |} |}
  end.

End Clients.

(** ** Token verification and the middleware chain ([janua-auth.js]) *)

Module JanuaVerify.
Import JanuaAuth.

Record Verification : Type := {
  verified : outcome Payload;
  keys_after : KeyCache;
  key_events : list Event
}.

(** [verifyJanuaToken]: the key set is fetched first, outside the [try];
    [jwtVerify] stands for the signature, issuer and audience check of the
    token against the issuer's remote key set.  Whatever that check
    throws is replaced by one error. *)
Definition verifyJanuaToken (JANUA_URL : string) (now : Z) (net : outcome Response)
    (jwtVerify : string → outcome Payload) (token : string) (st : KeyCache) : Verification :=
  let run := getJWKS JANUA_URL now net st in
  match result run with
  | Throws e => {| verified := Throws e; keys_after := cache_after run; key_events := events run |}
  | Returns _ =>
      {| verified :=
           match jwtVerify token with
           | Returns payload => Returns payload
           | Throws _ => Throws (Error "Invalid or expired token")
           end;
         keys_after := cache_after run;
         key_events := events run |}
  end.

(** Two middlewares of one route in turn: the second runs when the first
    calls [next()]. *)
Definition chain (first second : Request → Handled) (req : Request) : Handled :=
  match first req with
  | Next req' => second req'
  | Respond code body => Respond code body
  end.

(** The guard of the routes:
    [authenticateJanuaToken, requireScope(requiredScope)]. *)
Definition guard (verify : string → outcome Payload) (requiredScope : string) :
    Request → Handled :=
  chain (authenticateJanuaToken verify) (requireScope requiredScope).

(** What [authenticateFlexible] passes on: the request, and the
    [auth_provider] property it gave the user ([None] when the local
    middleware set the user). *)
Inductive FlexHandled : Type :=
| FlexNext (req : Request) (auth_provider : option string)
| FlexRespond (code : Z) (body : JSON).

Definition of_handled (h : Handled) : FlexHandled :=
  match h with
  | Next req => FlexNext req None
  | Respond code body => FlexRespond code body
  end.

(** [authenticateFlexible]; [authenticateToken] is the local middleware of
    [./auth.js]: [Throws] is a failed import or an exception it throws. *)
Definition authenticateFlexible (verify : string → outcome Payload)
    (authenticateToken : Request → outcome Handled) (req : Request) : FlexHandled :=
  let token := bearer_token (authorization req) in
  if negb (truthy_str token)
  then FlexRespond 401 (JObj [ ("error", JStr "Access denied. No token provided.") ])
  else
    match verify (default EmptyString token) with
    | Returns payload =>
        FlexNext {| authorization := authorization req; user := Some (user_of payload) |}
          (Some "janua")
    | Throws _ =>
        match authenticateToken req with
        | Returns h => of_handled h
        | Throws _ => FlexRespond 403 (JObj [ ("error", JStr "Invalid token") ])
        end
    end.

End JanuaVerify.

(** ** What [getUserTasks] shows of a record *)

Module TaskViews.
Import Redis TaskService TaskQueries.

(** The object [getUserTasks] builds from the record at a key: its fields,
    with the context parsed; none when the context is no JSON text. *)
Definition task_view (JSON_parse : string → option JSON) (st : Store) (key : string) :
    option (gmap string JSON) :=
  let taskData := hGetAll key st in
  match JSON_parse (js_String_json (js_or (taskData !! "context") (JStr "{}"))) with
  | Some ctx => Some (<["context" := ctx]> taskData)
  | None => None
  end.

(** The submission time of a returned task. *)
Definition submitted_time (getTime : JsVal → option Z) (task : gmap string JSON) : option Z :=
  getTime (task !! "submittedAt").

End TaskViews.

(** ** Reading base-36 text *)

Module Base36.

(** The value of a digit [n.toString(36)] writes: [0]-[9], then [a]-[z]. *)
Definition digit36_value (c : ascii) : Z :=
  let n := Z.of_N (N_of_ascii c) in
  if n <? 58 then n - 48 else n - 87.

(** The number a base-36 text denotes, continuing from the value [v] of
    the digits before it. *)
Fixpoint value36 (s : string) (v : Z) : Z :=
  match s with
  | EmptyString => v
  | String c r => value36 r (v * 36 + digit36_value c)
  end.

(** No character of the text is the separator of a task identifier. *)
Fixpoint no_dash (s : string) : bool :=
  match s with
  | EmptyString => true
  | String c r => negb (Ascii.eqb c "-") && no_dash r
  end.

End Base36.

(** ** More example data *)

Module Scenarios.
Import Redis TaskService TaskQueries Examples.

(** A routine task, and an urgent one five milliseconds later. *)
Definition store_window : Store :=
  queued "bob" 1 "{}" env_soon (queued "alice" 2 "{}" env0 empty).

(** Two tasks of alice around one of bob. *)
Definition store_shared : Store :=
  queued "alice" 2 "{}" env_late
    (queued "bob" 3 "{}" env_soon
       (queued "alice" 1 (JSON_stringify payload) env0 empty)).

Definition scanned_keys : list string := [task_key id0; task_key id_soon; task_key id_late].

(** The time value of the submission dates of the examples. *)
Definition clock (v : JsVal) : option Z :=
  match v with
  | Some (JStr iso) =>
      if String.eqb iso (submitted_iso env0) then Some t0
      else if String.eqb iso (submitted_iso env_soon) then Some (t0 + 5)
      else if String.eqb iso (submitted_iso env_late) then Some (t0 + 1000001)
      else None
  | _ => None
  end.

Definition alice_tasks : list (gmap string JSON) :=
  match getUserTasks read_json clock scanned_keys "alice" store_shared with
  | Returns tasks => tasks
  | Throws _ => []
  end.

(** alice has cancelled her urgent fix, and lists her tasks. *)
Definition cancel_time : string := "2023-11-14T22:14:00.000Z".

Definition alice_cancelled_tasks : list (gmap string JSON) :=
  match getUserTasks read_json clock [task_key id0] "alice"
          (cancelTask read_json id0 "alice" cancel_time store1).2 with
  | Returns tasks => tasks
  | Throws _ => []
  end.

(** No list of the workers has an entry. *)
Definition no_lists (key : string) : nat := 0.

Import Discovery.

(** The orchestrator knows the pods of the fleet, without labels. *)
Definition read_pod (podName : string) :
    outcome (PodItem * option (list (string * string))) :=
  Returns (pod_item podName, None).

(** The store refuses connections: the client retries, and [connect()]
    never settles. *)
Definition refused : option (outcome unit) := None.

(** The signature check while the issuer cannot be reached: it loads the
    remote key set itself, and fails. *)
Definition verify_offline (token : string) : outcome JanuaAuth.Payload :=
  Throws (Error "getaddrinfo ENOTFOUND auth.madfam.io").

End Scenarios.

(** * Properties *)

(** ** Sorted sets *)

Section zset_facts.
Import Redis.
Implicit Types (z : list (Z * string)) (e x : Z * string) (m a b : string).

Lemma zset_remove_rank m z : zset_rank m (zset_remove m z) = None.
Proof.
  induction z as [|x z IH]; simpl; [done|].
  destruct (String.eqb x.2 m) eqn:E; [done|].
  simpl. by rewrite E, IH.
Qed.

Lemma zset_insert_lookup e z :
  zset_rank e.2 z = None →
  ∃ r, zset_rank e.2 (zset_insert e z) = Some r ∧ zset_insert e z !! r = Some e.
Proof.
  induction z as [|x z IH]; simpl.
  - intros _. rewrite String.eqb_refl. by exists O.
  - destruct (String.eqb x.2 e.2) eqn:E; [done|].
    destruct (zset_rank e.2 z) eqn:Hr; [done|]. intros _.
    destruct (entry_leb e x).
    + simpl. rewrite String.eqb_refl. by exists O.
    + simpl. rewrite E. destruct (IH eq_refl) as (r & -> & Hl). by exists (S r).
Qed.

(** The member just added has a rank, and the entry at that rank is its own. *)
Lemma zset_add_lookup s m z :
  ∃ r, zset_rank m (zset_add s m z) = Some r ∧ zset_add s m z !! r = Some (s, m).
Proof.
  unfold zset_add. apply (zset_insert_lookup (s, m)). apply zset_remove_rank.
Qed.

Lemma scores_sorted_cons x z :
  scores_sorted (x :: z) = true ↔ Forall (λ y, x.1 ≤ y.1) z ∧ scores_sorted z = true.
Proof.
  simpl. rewrite andb_true_iff, forallb_forall, Forall_forall.
  split; intros [H1 H2]; (split; [|done]); intros y Hy.
  - apply Z.leb_le, H1. by apply list_elem_of_In.
  - apply Z.leb_le, H1. by apply list_elem_of_In.
Qed.

Lemma zset_remove_subset m z y : y ∈ zset_remove m z → y ∈ z.
Proof.
  induction z as [|x z IH]; simpl; [done|].
  destruct (String.eqb x.2 m).
  - intros H. right. auto.
  - rewrite !elem_of_cons. intros [->|H]; auto.
Qed.

Lemma zset_remove_sorted m z :
  scores_sorted z = true → scores_sorted (zset_remove m z) = true.
Proof.
  induction z as [|x z IH]; [done|].
  rewrite scores_sorted_cons. intros [Hx Hz]. simpl.
  destruct (String.eqb x.2 m); [by apply IH|].
  apply scores_sorted_cons. split; [|by apply IH].
  apply Forall_forall. intros y Hy. apply zset_remove_subset in Hy.
  by eapply Forall_forall in Hx.
Qed.

Lemma entry_leb_true e x : entry_leb e x = true → e.1 ≤ x.1.
Proof. unfold entry_leb. lia. Qed.

Lemma entry_leb_false e x : entry_leb e x = false → x.1 ≤ e.1.
Proof. unfold entry_leb. lia. Qed.

Lemma zset_insert_elem e z y : y ∈ zset_insert e z → y = e ∨ y ∈ z.
Proof.
  induction z as [|x z IH]; simpl.
  - rewrite list_elem_of_singleton. auto.
  - destruct (entry_leb e x); rewrite !elem_of_cons; [tauto|].
    intros [->|H]; [auto|]. destruct (IH H); auto.
Qed.

Lemma zset_insert_sorted e z :
  scores_sorted z = true → scores_sorted (zset_insert e z) = true.
Proof.
  induction z as [|x z IH]; [done|].
  rewrite scores_sorted_cons. intros [Hx Hz]. simpl.
  destruct (entry_leb e x) eqn:E.
  - apply scores_sorted_cons. split; [|by apply scores_sorted_cons].
    apply entry_leb_true in E. constructor; [done|].
    eapply Forall_impl; [exact Hx|]. simpl. lia.
  - apply scores_sorted_cons. split; [|by apply IH].
    apply entry_leb_false in E. apply Forall_forall. intros y Hy.
    apply zset_insert_elem in Hy as [->|Hy]; [done|].
    by eapply Forall_forall in Hx.
Qed.

(** Adding and removing keep a sorted set sorted. *)
Lemma zset_add_sorted s m z :
  scores_sorted z = true → scores_sorted (zset_add s m z) = true.
Proof. intros. by apply zset_insert_sorted, zset_remove_sorted. Qed.

Lemma zset_score_elem m z s : zset_score m z = Some s → (s, m) ∈ z.
Proof.
  induction z as [|x z IH]; simpl; [done|].
  destruct (String.eqb x.2 m) eqn:E.
  - apply String.eqb_eq in E. intros [= <-]. subst m. destruct x. left.
  - intros. right. auto.
Qed.

Lemma zset_score_rank m z s : zset_score m z = Some s → is_Some (zset_rank m z).
Proof.
  induction z as [|x z IH]; simpl; [done|].
  destruct (String.eqb x.2 m); [eauto|].
  intros H. destruct (IH H) as [r ->]. eauto.
Qed.

(** In a sorted set a member of strictly smaller score has the smaller rank. *)
Lemma zset_rank_lt a b z sa sb :
  scores_sorted z = true →
  zset_score a z = Some sa → zset_score b z = Some sb → sa < sb →
  ∃ ra rb, zset_rank a z = Some ra ∧ zset_rank b z = Some rb ∧ (ra < rb)%nat.
Proof.
  induction z as [|x z IH]; [done|].
  rewrite scores_sorted_cons. intros [Hx Hz]. simpl.
  destruct (String.eqb x.2 a) eqn:Ea, (String.eqb x.2 b) eqn:Eb.
  - intros [= <-] [= <-]. lia.
  - intros _ Hb Hlt. destruct (zset_score_rank _ _ _ Hb) as [rb ->].
    exists O, (S rb). split_and!; [done..|lia].
  - intros Ha [= <-] Hlt. apply zset_score_elem in Ha.
    eapply Forall_forall in Hx; [|exact Ha]. simpl in Hx. lia.
  - intros Ha Hb Hlt. destruct (IH Hz Ha Hb Hlt) as (ra & rb & -> & -> & ?).
    exists (S ra), (S rb). split_and!; [done..|lia].
Qed.
End zset_facts.

(** ** Store operations *)

Section store_facts.
Import Redis.
Implicit Types (st : Store) (key : string) (fields : gmap string JSON).

Lemma hGetAll_hSet key fields st :
  hGetAll key (hSet key fields st) = fields ∪ hGetAll key st.
Proof. unfold hGetAll at 1, hSet. simpl. by rewrite lookup_insert_eq. Qed.

Lemma hGetAll_hSet_ne key key' fields st :
  key ≠ key' → hGetAll key' (hSet key fields st) = hGetAll key' st.
Proof. intros. unfold hGetAll, hSet. simpl. by rewrite lookup_insert_ne. Qed.

Lemma hGetAll_zAdd key k s m st : hGetAll key (zAdd k s m st) = hGetAll key st.
Proof. done. Qed.

Lemma hGetAll_zRem key k m st : hGetAll key (zRem k m st) = hGetAll key st.
Proof. done. Qed.

Lemma zRange_hSet k key fields st : zRange k (hSet key fields st) = zRange k st.
Proof. done. Qed.

Lemma zRange_zAdd k s m st : zRange k (zAdd k s m st) = zset_add s m (zRange k st).
Proof. unfold zRange at 1, zAdd. simpl. by rewrite lookup_insert_eq. Qed.

Lemma zRange_zRem k m st : zRange k (zRem k m st) = zset_remove m (zRange k st).
Proof. unfold zRange at 1, zRem. simpl. by rewrite lookup_insert_eq. Qed.

Lemma size_nonzero (m : gmap string JSON) k v :
  m !! k = Some v → Nat.eqb (size m) 0 = false.
Proof.
  intros H. apply Nat.eqb_neq. intros Hs. apply map_size_empty_iff in Hs.
  subst m. by rewrite lookup_empty in H.
Qed.
End store_facts.

(** ** JSON text: parsing what was printed *)

Section codec.

Lemma parse_digits_print d k :
  starts_digit k = false → parse_digits (print_uint d k) = (d, k).
Proof.
  intros Hk. induction d; simpl; rewrite ?IHd; try done.
  destruct k as [|c k]; [done|]. simpl in *.
  by destruct (digit_of c).
Qed.

Lemma int_digits_ok_unorm d : int_digits_ok (unorm d) = true.
Proof. induction d; simpl; done. Qed.

Lemma int_digits_ok_pos p : int_digits_ok (Pos.to_uint p) = true.
Proof.
  pose proof (DecimalPos.Unsigned.to_of (Pos.to_uint p)) as H.
  rewrite DecimalPos.Unsigned.of_to in H. simpl in H. rewrite H.
  apply int_digits_ok_unorm.
Qed.

Lemma of_uint_pos p : Z.of_uint (Pos.to_uint p) = Z.pos p.
Proof. unfold Z.of_uint. by rewrite DecimalPos.Unsigned.of_to. Qed.

Lemma parse_quote_char c rest :
  parse_string_body (quote_char c rest) =
    match parse_string_body rest with
    | Some (str, r) => Some (String c str, r)
    | None => None
    end.
Proof.
  destruct c as [[] [] [] [] [] [] [] []]; reflexivity.
Qed.

Lemma parse_quote_body s k : parse_string_body (quote_body s k) = Some (s, k).
Proof.
  induction s as [|c s IH]; simpl.
  - done.
  - by rewrite parse_quote_char, IH.
Qed.

Lemma parse_number_print n k :
  number_end k = true → parse_number (print_number n k) = Some (n, k).
Proof.
  unfold number_end. intros [Hd Hf]%andb_true_iff.
  apply negb_true_iff in Hd. unfold print_number.
  destruct n as [|p|p]; cbn [Z.to_int].
  - unfold parse_number. change (print_uint zero k) with (String "0" k).
    change (String "0" k) with (print_uint (D0 Nil) k).
    rewrite parse_digits_print by done. cbn [int_digits_ok andb]. by rewrite Hf.
  - pose proof (int_digits_ok_pos p) as Hok. pose proof (of_uint_pos p) as Hv.
    assert (Hp : parse_number (print_uint (Pos.to_uint p) k) =
                 let '(d, rest) := parse_digits (print_uint (Pos.to_uint p) k) in
                 if int_digits_ok d && negb (starts_fraction rest)
                 then Some (Z.of_uint d, rest) else None).
    { destruct (Pos.to_uint p); try done. }
    rewrite Hp, parse_digits_print by done. by rewrite Hok, Hf, Hv.
  - pose proof (int_digits_ok_pos p) as Hok. pose proof (of_uint_pos p) as Hv.
    unfold parse_number. rewrite parse_digits_print by done.
    by rewrite Hok, Hf, Hv.
Qed.

Lemma print_number_head n k :
  ∃ c r, print_number n k = String c r ∧ number_start c = true.
Proof.
  unfold print_number. destruct n as [|p|p]; cbn [Z.to_int].
  - by exists "0"%char, k.
  - pose proof (int_digits_ok_pos p) as Hok.
    destruct (Pos.to_uint p); try done; simpl; eauto.
  - eauto.
Qed.

Lemma parse_value_number f c r :
  number_start c = true →
  parse_value (S f) (String c r) =
    match parse_number (String c r) with
    | Some (n, r') => Some (JNum n, r')
    | None => None
    end.
Proof.
  intros H. destruct c as [[] [] [] [] [] [] [] []]; try discriminate H; reflexivity.
Qed.

Lemma number_start_value_start c : number_start c = true → value_start c = true.
Proof.
  intros H. destruct c as [[] [] [] [] [] [] [] []]; try discriminate H; reflexivity.
Qed.

Lemma stringify_head v k : ∃ c r, stringify_k v k = String c r ∧ value_start c = true.
Proof.
  destruct v as [|[]|n|s|[|x xs]|[|[key x] kvs]]; try (simpl; eauto; fail).
  destruct (print_number_head n k) as (c & r & E & H). simpl. rewrite E.
  eauto using number_start_value_start.
Qed.

Lemma number_end_arr_tail k xs : number_end (arr_tail k xs) = true.
Proof. by destruct xs. Qed.

Lemma number_end_obj_tail k kvs : number_end (obj_tail k kvs) = true.
Proof. by destruct kvs as [|[] ?]. Qed.

Lemma parse_value_array f c r :
  value_start c = true →
  parse_value (S f) (String "[" (String c r)) =
    match parse_elements f (String c r) with
    | Some (xs, r') => Some (JArr xs, r')
    | None => None
    end.
Proof.
  intros H. destruct c as [[] [] [] [] [] [] [] []]; try discriminate H; reflexivity.
Qed.

Lemma parse_value_object f r :
  parse_value (S f) (String "{" (String dquote r)) =
    match parse_members f (String dquote r) with
    | Some (kvs, r') => Some (JObj kvs, r')
    | None => None
    end.
Proof. reflexivity. Qed.

Section elements_and_members.
Variable k : string.
Hypothesis Hk : number_end k = true.

Lemma parse_elements_print xs :
  Forall (λ v, ∀ fuel k', (json_size v ≤ fuel)%nat → number_end k' = true →
                 parse_value fuel (stringify_k v k') = Some (v, k')) xs →
  ∀ fuel, (json_size (JArr xs) ≤ S fuel)%nat →
  ∀ x xs', xs = x :: xs' →
  parse_elements fuel (stringify_k x (arr_tail k xs')) = Some (xs, k).
Proof.
  induction 1 as [|y ys Hy Hys IH]; [done|].
  intros fuel Hfuel x xs' [= <- <-].
  destruct fuel as [|f]; [simpl in Hfuel; lia|].
  cbn [parse_elements]. rewrite Hy; [|simpl in Hfuel |- *; lia|apply number_end_arr_tail].
  destruct ys as [|z zs]; [done|].
  cbn [arr_tail skip_ws is_ws]. cbn.
  rewrite (IH f); [done| |done]. simpl in Hfuel |- *. lia.
Qed.

Lemma parse_members_print kvs :
  Forall (λ kv, ∀ fuel k', (json_size kv.2 ≤ fuel)%nat → number_end k' = true →
                  parse_value fuel (stringify_k kv.2 k') = Some (kv.2, k')) kvs →
  ∀ fuel, (json_size (JObj kvs) ≤ S fuel)%nat →
  ∀ key x kvs', kvs = (key, x) :: kvs' →
  parse_members fuel (quote key (String ":" (stringify_k x (obj_tail k kvs')))) =
    Some (kvs, k).
Proof.
  induction 1 as [|[key' y] ys Hy Hys IH]; [done|].
  intros fuel Hfuel key x kvs' [= <- <- <-].
  destruct fuel as [|f]; [simpl in Hfuel; lia|].
  unfold quote. cbn [parse_members skip_ws is_ws]. cbn.
  rewrite parse_quote_body. cbn.
  simpl in Hy. rewrite Hy; [|simpl in Hfuel |- *; lia|apply number_end_obj_tail].
  destruct ys as [|[key2 z] zs]; [done|].
  cbn [obj_tail]. cbn.
  rewrite (IH f); [done| |done]. simpl in Hfuel |- *. lia.
Qed.
End elements_and_members.

Lemma parse_stringify v :
  ∀ fuel k, (json_size v ≤ fuel)%nat → number_end k = true →
  parse_value fuel (stringify_k v k) = Some (v, k).
Proof.
  induction v as [|b|n|s|xs IH|kvs IH] using JSON_deep_ind; intros fuel k Hfuel Hk;
    (destruct fuel as [|f]; [simpl in Hfuel; lia|]).
  - reflexivity.
  - by destruct b.
  - destruct (print_number_head n k) as (c & r & E & H).
    cbn [stringify_k]. rewrite E, parse_value_number by done.
    by rewrite <- E, parse_number_print.
  - cbn [stringify_k]. unfold quote. cbn. by rewrite parse_quote_body.
  - destruct xs as [|x xs']; [reflexivity|].
    change (stringify_k (JArr (x :: xs')) k)
      with (String "[" (stringify_k x (arr_tail k xs'))).
    destruct (stringify_head x (arr_tail k xs')) as (c & r & E & H).
    rewrite E, parse_value_array by done. rewrite <- E.
    by erewrite parse_elements_print.
  - destruct kvs as [|[key x] kvs']; [reflexivity|].
    change (stringify_k (JObj ((key, x) :: kvs')) k)
      with (String "{" (quote key (String ":" (stringify_k x (obj_tail k kvs'))))).
    unfold quote at 1. rewrite parse_value_object.
    change (String dquote (quote_body key ?r)) with (quote key r).
    by erewrite parse_members_print.
Qed.

Lemma length_print_uint d k :
  String.length (print_uint d k) = (nb_digits d + String.length k)%nat.
Proof. induction d; simpl; lia. Qed.

Lemma length_print_number n k : (1 + String.length k ≤ String.length (print_number n k))%nat.
Proof.
  unfold print_number. destruct n as [|p|p]; cbn [Z.to_int String.length];
    rewrite length_print_uint; [simpl; lia| |lia].
  pose proof (int_digits_ok_pos p). destruct (Pos.to_uint p); simpl; try done; lia.
Qed.

Lemma length_quote_char c k : (1 + String.length k ≤ String.length (quote_char c k))%nat.
Proof. destruct c as [[] [] [] [] [] [] [] []]; simpl; lia. Qed.

Lemma length_quote_body s k : (1 + String.length k ≤ String.length (quote_body s k))%nat.
Proof.
  induction s as [|c s IH]; simpl; [lia|].
  pose proof (length_quote_char c (quote_body s k)). lia.
Qed.

Lemma json_size_arr_cons x xs :
  json_size (JArr (x :: xs)) = (1 + json_size x + json_size (JArr xs))%nat.
Proof. simpl. lia. Qed.

Lemma json_size_obj_cons kv kvs :
  json_size (JObj (kv :: kvs)) = (1 + json_size kv.2 + json_size (JObj kvs))%nat.
Proof. simpl. lia. Qed.

Lemma length_stringify v :
  ∀ k, (json_size v + String.length k ≤ String.length (stringify_k v k))%nat.
Proof.
  induction v as [|b|n|s|xs IH|kvs IH] using JSON_deep_ind; intros k.
  - simpl. lia.
  - destruct b; simpl; lia.
  - pose proof (length_print_number n k). simpl. lia.
  - pose proof (length_quote_body s k). simpl. lia.
  - destruct xs as [|x xs']; [simpl; lia|].
    change (stringify_k (JArr (x :: xs')) k)
      with (String "[" (stringify_k x (arr_tail k xs'))).
    apply Forall_cons in IH as [Hx IH].
    assert (Ht : (json_size (JArr xs') + String.length k ≤
                  String.length (arr_tail k xs'))%nat).
    { clear Hx. induction IH as [|y ys Hy _ IHys]; [simpl; lia|].
      specialize (Hy (arr_tail k ys)). rewrite json_size_arr_cons.
      change (arr_tail k (y :: ys)) with (String "," (stringify_k y (arr_tail k ys))).
      cbn [String.length]. lia. }
    specialize (Hx (arr_tail k xs')). rewrite json_size_arr_cons.
    cbn [String.length]. lia.
  - destruct kvs as [|[key x] kvs']; [simpl; lia|].
    change (stringify_k (JObj ((key, x) :: kvs')) k)
      with (String "{" (quote key (String ":" (stringify_k x (obj_tail k kvs'))))).
    apply Forall_cons in IH as [Hx IH].
    assert (Ht : (json_size (JObj kvs') + String.length k ≤
                  String.length (obj_tail k kvs'))%nat).
    { clear Hx. induction IH as [|[key' y] ys Hy _ IHys]; [simpl; lia|].
      specialize (Hy (obj_tail k ys)).
      pose proof (length_quote_body key' (String ":" (stringify_k y (obj_tail k ys)))) as Hq.
      rewrite json_size_obj_cons.
      change (obj_tail k ((key', y) :: ys))
        with (String "," (quote key' (String ":" (stringify_k y (obj_tail k ys))))).
      unfold quote. cbn [String.length snd] in *. lia. }
    specialize (Hx (obj_tail k kvs')).
    pose proof (length_quote_body key (String ":" (stringify_k x (obj_tail k kvs')))) as Hq.
    rewrite json_size_obj_cons. unfold quote. cbn [String.length snd] in *. lia.
Qed.

(** Parsing the text of a value gives the value back. *)
Lemma read_json_stringify v : read_json (JSON_stringify v) = Some v.
Proof.
  unfold read_json, JSON_stringify.
  rewrite parse_stringify; [done| |done].
  pose proof (length_stringify v ""). lia.
Qed.

Lemma JSON_stringify_nonempty v : String.eqb (JSON_stringify v) "" = false.
Proof.
  unfold JSON_stringify. by destruct (stringify_head v "") as (c & r & -> & _).
Qed.
End codec.

(** ** Task submission *)

Section submit_facts.
Import Redis TaskService.
Implicit Types (st : Store) (taskSpec : TaskSpec) (userId : string) (env : SubmitEnv).

Lemma str_or_default b : str_or b "main" = default_branch b.
Proof. destruct b as [s|]; [|done]. unfold str_or; simpl. by destruct (String.eqb s ""). Qed.

Lemma num_or_default p : num_or p 3 = default_priority p.
Proof. destruct p as [n|]; [|done]. unfold num_or; simpl. by destruct (n =? 0). Qed.

Lemma truthy_str_Some v : truthy_str v = true → ∃ s, v = Some s ∧ s ≠ "".
Proof.
  destruct v as [s|]; [|done]. simpl. intros H. exists s. split; [done|].
  intros ->. done.
Qed.

Lemma submitTask_rejected taskSpec userId env st :
  truthy_str (instruction taskSpec) = false ∨ truthy_str (repository taskSpec) = false →
  submitTask taskSpec userId env st = (Throws ValidationError, st).
Proof.
  unfold submitTask. intros [-> | ->]; [done|]. by rewrite orb_true_r.
Qed.

(** The record of a new task holds [null] where a worker will write
    later; the client does not take such a record. *)
Lemma task_fields_null task f :
  f ∈ ["agentId"; "startedAt"; "completedAt"; "result"; "error"] →
  task_fields task !! f = Some JNull.
Proof.
  intros Hf. unfold task_fields.
  repeat (apply elem_of_cons in Hf as [->|Hf]; [reflexivity|]).
  by apply elem_of_nil in Hf.
Qed.

Lemma task_fields_refused task : encodable (task_fields task) = false.
Proof.
  unfold encodable. apply bool_decide_eq_false. intros H.
  specialize (H "agentId" JNull (task_fields_null task "agentId" ltac:(left))).
  done.
Qed.

Lemma client_hSet_refused key task st :
  client_hSet key (task_fields task) st = Throws InvalidArgumentType.
Proof. unfold client_hSet. by rewrite task_fields_refused. Qed.

(** What the client takes is written as text. *)
Lemma client_hSet_accepted key fields st :
  encodable fields = true →
  client_hSet key fields st = Returns (hSet key (convertValue <$> fields) st).
Proof. unfold client_hSet. by intros ->. Qed.

Lemma submitTask_refused taskSpec userId env st :
  truthy_str (instruction taskSpec) = true → truthy_str (repository taskSpec) = true →
  submitTask taskSpec userId env st = (Throws InvalidArgumentType, st).
Proof.
  intros Hi Hr. unfold submitTask. rewrite Hi, Hr. cbn [negb orb].
  by rewrite client_hSet_refused.
Qed.

(** No call of [submitTask] changes the store. *)
Lemma submitTask_store taskSpec userId env st : (submitTask taskSpec userId env st).2 = st.
Proof.
  destruct (truthy_str (instruction taskSpec)) eqn:Hi;
    [|by rewrite submitTask_rejected by auto].
  destruct (truthy_str (repository taskSpec)) eqn:Hr;
    [|by rewrite submitTask_rejected by auto].
  by rewrite submitTask_refused.
Qed.

(** C8. [submitTask] throws the validation error exactly when the
    instruction or the repository is absent (left out, or empty: falsy).
    Otherwise it builds the record of a pending task: branch (default
    "main") and priority (default 3) with a missing or falsy field
    defaulted, status "pending", and null agentId, startedAt, completedAt,
    result and error.  It does not persist it: the client refuses a field
    value that is null, so the call throws the TypeError "Invalid argument
    type" before anything is written or queued.  No call returns, and
    every call leaves the store as it was. *)
Theorem submitTask_writes_nothing taskSpec userId env st :
  let run := submitTask taskSpec userId env st in
  let record := task_fields (new_task (generateTaskId env) taskSpec userId env) in
  (run.1 = Throws ValidationError ↔
     truthy_str (instruction taskSpec) = false ∨ truthy_str (repository taskSpec) = false) ∧
  (record !! "branch" = Some (JStr (default_branch (branch taskSpec))) ∧
   record !! "priority" = Some (JNum (default_priority (priority taskSpec))) ∧
   record !! "status" = Some (JStr "pending") ∧
   record !! "agentId" = Some JNull ∧
   record !! "startedAt" = Some JNull ∧
   record !! "completedAt" = Some JNull ∧
   record !! "result" = Some JNull ∧
   record !! "error" = Some JNull) ∧
  client_hSet (task_key (generateTaskId env)) record st = Throws InvalidArgumentType ∧
  (truthy_str (instruction taskSpec) = true → truthy_str (repository taskSpec) = true →
     run.1 = Throws InvalidArgumentType) ∧
  run.2 = st ∧
  (∀ answer, run.1 ≠ Returns answer) ∧
  submitTask Examples.fix_bug "alice" Examples.env0 empty =
    (Throws (TypeError "Invalid argument type"), empty).
Proof.
  intros run record. subst run record. split_and!.
  - split.
    + destruct (truthy_str (instruction taskSpec)) eqn:Hi; [|by left].
      destruct (truthy_str (repository taskSpec)) eqn:Hr; [|by right].
      by rewrite submitTask_refused.
    + intros H. by rewrite submitTask_rejected.
  - unfold new_task, task_fields. cbn [t_branch]. rewrite str_or_default.
    rewrite lookup_insert_ne by done. reflexivity.
  - unfold new_task, task_fields. cbn [t_priority]. rewrite num_or_default.
    rewrite lookup_insert_ne by done. reflexivity.
  - unfold task_fields. rewrite lookup_insert_ne by done. reflexivity.
  - apply task_fields_null; set_solver.
  - apply task_fields_null; set_solver.
  - apply task_fields_null; set_solver.
  - apply task_fields_null; set_solver.
  - apply task_fields_null; set_solver.
  - apply client_hSet_refused.
  - intros Hi Hr. by rewrite submitTask_refused.
  - apply submitTask_store.
  - intros answer.
    destruct (truthy_str (instruction taskSpec)) eqn:Hi;
      [|by rewrite submitTask_rejected by auto].
    destruct (truthy_str (repository taskSpec)) eqn:Hr;
      [|by rewrite submitTask_rejected by auto].
    by rewrite submitTask_refused.
  - by apply submitTask_refused.
Qed.
End submit_facts.

(** ** Cancellation *)

Section cancel_facts.
Import Redis TaskService.
Implicit Types (st : Store) (taskId userId now : string).
Implicit Types (JSON_parse : string → option JSON).

Lemma getTaskDetails_absent JSON_parse taskId st :
  task_exists taskId st = false → getTaskDetails JSON_parse taskId st = Returns None.
Proof.
  unfold task_exists, getTaskDetails. intros H%negb_false_iff. by rewrite H.
Qed.

Lemma getTaskDetails_present JSON_parse taskId st :
  task_exists taskId st = true →
  context_parses JSON_parse (hGetAll (task_key taskId) st) = true →
  ∃ ctx, getTaskDetails JSON_parse taskId st =
           Returns (Some (<["context" := ctx]> (hGetAll (task_key taskId) st))).
Proof.
  unfold task_exists, context_parses, getTaskDetails. intros H%negb_true_iff. rewrite H.
  destruct (JSON_parse _) as [ctx|]; [eauto|done].
Qed.

Lemma getTaskDetails_unreadable JSON_parse taskId st :
  task_exists taskId st = true →
  context_parses JSON_parse (hGetAll (task_key taskId) st) = false →
  getTaskDetails JSON_parse taskId st = Throws SyntaxError.
Proof.
  unfold task_exists, context_parses, getTaskDetails. intros H%negb_true_iff. rewrite H.
  by destruct (JSON_parse _) as [ctx|].
Qed.

Lemma cancellation_other now userId f :
  f ∉ ["status"; "cancelledAt"; "cancelledBy"] → cancellation now userId !! f = None.
Proof.
  rewrite !not_elem_of_cons. intros (? & ? & ? & _). unfold cancellation.
  cbn [list_to_map foldr uncurry fst snd].
  by rewrite !lookup_insert_ne by done.
Qed.

(** The client takes the fields of a cancellation as they are. *)
Lemma cancellation_encodable now userId :
  encodable (cancellation now userId) = true ∧
  convertValue <$> cancellation now userId = cancellation now userId.
Proof.
  split.
  - unfold encodable. apply bool_decide_eq_true. intros f v Hf.
    destruct (decide (f = "status")) as [->|?]; [by injection Hf as <-|].
    destruct (decide (f = "cancelledAt")) as [->|?]; [by injection Hf as <-|].
    destruct (decide (f = "cancelledBy")) as [->|?]; [by injection Hf as <-|].
    rewrite cancellation_other in Hf; [done|].
    rewrite !not_elem_of_cons. split_and!; [done..|apply not_elem_of_nil].
  - unfold cancellation. cbn [list_to_map foldr uncurry fst snd].
    by rewrite !fmap_insert, fmap_empty.
Qed.

(** The three checks of [cancelTask] on a record that can be read. *)
Lemma cancelTask_cases JSON_parse taskId userId now st :
  let h := hGetAll (task_key taskId) st in
  task_exists taskId st = true → context_parses JSON_parse h = true →
  cancelTask JSON_parse taskId userId now st =
    if negb (strict_eq_str (h !! "submittedBy") userId)
    then (Throws AuthorizationError, st)
    else if negb (strict_eq_str (h !! "status") "pending")
    then (Throws (InvalidStateError (h !! "status")), st)
    else (Returns {| c_taskId := taskId; c_status := "cancelled";
                     c_message := "Task cancelled successfully" |},
          cancelled_store taskId userId now st).
Proof.
  intros h He Hp. unfold cancelTask.
  destruct (getTaskDetails_present _ _ _ He Hp) as [ctx ->].
  rewrite !lookup_insert_ne by done. done.
Qed.

Lemma cancelTask_unreadable JSON_parse taskId userId now st :
  task_exists taskId st = true →
  context_parses JSON_parse (hGetAll (task_key taskId) st) = false →
  cancelTask JSON_parse taskId userId now st = (Throws SyntaxError, st).
Proof.
  intros He Hp. unfold cancelTask. by rewrite getTaskDetails_unreadable.
Qed.

Lemma cancelled_store_record taskId userId now st f :
  hGetAll (task_key taskId) (cancelled_store taskId userId now st) !! f =
    match cancellation now userId !! f with
    | Some v => Some v
    | None => hGetAll (task_key taskId) st !! f
    end.
Proof.
  unfold cancelled_store. rewrite hGetAll_hSet, hGetAll_zRem.
  destruct (cancellation now userId !! f) as [v|] eqn:E.
  - by apply lookup_union_Some_l.
  - by apply lookup_union_r.
Qed.

(** Whatever its outcome, [cancelTask] leaves the store as it was or
    performs the cancellation. *)
Lemma cancelTask_store JSON_parse taskId userId now st :
  (cancelTask JSON_parse taskId userId now st).2 = st ∨
  (cancelTask JSON_parse taskId userId now st).2 = cancelled_store taskId userId now st.
Proof.
  unfold cancelTask.
  destruct (getTaskDetails JSON_parse taskId st) as [[task|]|e]; [|by left..].
  destruct (negb (strict_eq_str (task !! "submittedBy") userId)); [by left|].
  destruct (negb (strict_eq_str (task !! "status") "pending")); [by left|by right].
Qed.

(** A record whose stored context is no JSON text: alice, its submitter,
    cannot cancel her pending task; the call throws the error of the
    parser and the task stays queued. *)
Lemma cancelTask_unreadable_record :
  task_exists Examples.id0 Examples.store_unreadable = true ∧
  hGetAll (task_key Examples.id0) Examples.store_unreadable !! "submittedBy" =
    Some (JStr "alice") ∧
  hGetAll (task_key Examples.id0) Examples.store_unreadable !! "status" =
    Some (JStr "pending") ∧
  hGetAll (task_key Examples.id0) Examples.store_unreadable !! "context" =
    Some (JStr "{oops") ∧
  read_json "{oops" = None ∧
  cancelTask read_json Examples.id0 "alice" "2023-11-14T22:14:00.000Z"
    Examples.store_unreadable = (Throws SyntaxError, Examples.store_unreadable) ∧
  zRank pending_key Examples.id0 Examples.store_unreadable = Some 0%nat.
Proof. split_and!; vm_compute; reflexivity. Qed.

(** C3, amended.  [cancelTask] fails with the not-found error when no
    record is stored for the identifier.  On a stored record it first
    reads the record, and throws the SyntaxError of [JSON.parse] when that
    does not read the stored context.  When it does, [cancelTask] fails
    with the authorization error when the stored submitter is not the
    caller, and with the invalid-state error when the stored status is not
    "pending"; each failure leaves the store unchanged.  Otherwise it
    removes the entry of the task from the pending sorted set (the other
    entries stay), sets status "cancelled" with cancelledBy and
    cancelledAt, changes no other field and no other record.  A second
    cancellation by the same caller then fails with the invalid-state
    error and changes nothing, so the record stays cancelled with the
    metadata of the first. *)
Theorem cancelTask_contract JSON_parse taskId userId now st :
  let h := hGetAll (task_key taskId) st in
  let run := cancelTask JSON_parse taskId userId now st in
  (task_exists taskId st = false → run = (Throws NotFoundError, st)) ∧
  (task_exists taskId st = true → context_parses JSON_parse h = false →
     run = (Throws SyntaxError, st)) ∧
  (task_exists taskId st = true → context_parses JSON_parse h = true →
     (strict_eq_str (h !! "submittedBy") userId = false →
        run = (Throws AuthorizationError, st)) ∧
     (strict_eq_str (h !! "submittedBy") userId = true →
      strict_eq_str (h !! "status") "pending" = false →
        run = (Throws (InvalidStateError (h !! "status")), st)) ∧
     (strict_eq_str (h !! "submittedBy") userId = true →
      strict_eq_str (h !! "status") "pending" = true →
        let h' := hGetAll (task_key taskId) run.2 in
        run.1 = Returns {| c_taskId := taskId; c_status := "cancelled";
                           c_message := "Task cancelled successfully" |} ∧
        zRange pending_key run.2 = zset_remove taskId (zRange pending_key st) ∧
        zRank pending_key taskId run.2 = None ∧
        h' !! "status" = Some (JStr "cancelled") ∧
        h' !! "cancelledBy" = Some (JStr userId) ∧
        h' !! "cancelledAt" = Some (JStr now) ∧
        (∀ f, f ∉ ["status"; "cancelledAt"; "cancelledBy"] → h' !! f = h !! f) ∧
        (∀ key, key ≠ task_key taskId → hGetAll key run.2 = hGetAll key st) ∧
        (∀ later, cancelTask JSON_parse taskId userId later run.2 =
                    (Throws (InvalidStateError (Some (JStr "cancelled"))), run.2)))).
Proof.
  intros h run. split_and!.
  { intros He. subst run. unfold cancelTask. by rewrite getTaskDetails_absent. }
  { intros He Hp. subst run. by apply cancelTask_unreadable. }
  intros He Hp. subst run. rewrite cancelTask_cases by done. fold h. split_and!.
  - by intros ->.
  - by intros -> ->.
  - intros Hs Hq. rewrite Hs, Hq. cbn [negb fst snd].
    assert (Hrec : ∀ f, hGetAll (task_key taskId) (cancelled_store taskId userId now st) !! f =
                        match cancellation now userId !! f with
                        | Some v => Some v
                        | None => h !! f
                        end) by apply cancelled_store_record.
    split_and!.
    + done.
    + unfold cancelled_store. by rewrite zRange_hSet, zRange_zRem.
    + unfold zRank, cancelled_store. rewrite zRange_hSet, zRange_zRem. apply zset_remove_rank.
    + by rewrite Hrec.
    + by rewrite Hrec.
    + by rewrite Hrec.
    + intros f Hf. by rewrite Hrec, cancellation_other.
    + intros key Hk. unfold cancelled_store. by rewrite hGetAll_hSet_ne, hGetAll_zRem.
    + intros later.
      assert (He' : task_exists taskId (cancelled_store taskId userId now st) = true).
      { unfold task_exists. erewrite size_nonzero; [done|]. by rewrite (Hrec "status"). }
      assert (Hp' : context_parses JSON_parse
                      (hGetAll (task_key taskId) (cancelled_store taskId userId now st)) = true).
      { unfold context_parses. rewrite (Hrec "context"). exact Hp. }
      rewrite cancelTask_cases by done.
      rewrite (Hrec "submittedBy"), (Hrec "status").
      change (cancellation now userId !! "submittedBy") with (@None JSON).
      change (cancellation now userId !! "status") with (Some (JStr "cancelled")).
      cbv beta iota. fold h. rewrite Hs. done.
Qed.

(** alice cancels her pending task: the first cancellation succeeds, the
    task leaves the queue, and a second one is refused. *)
Lemma cancelTask_contract_witness :
  let run := cancelTask read_json Examples.id0 "alice" "2023-11-14T22:14:00.000Z"
               Examples.store1 in
  task_exists Examples.id0 Examples.store1 = true ∧
  context_parses read_json (hGetAll (task_key Examples.id0) Examples.store1) = true ∧
  strict_eq_str (hGetAll (task_key Examples.id0) Examples.store1 !! "submittedBy") "alice"
    = true ∧
  strict_eq_str (hGetAll (task_key Examples.id0) Examples.store1 !! "status") "pending"
    = true ∧
  run.1 = Returns {| c_taskId := Examples.id0; c_status := "cancelled";
                     c_message := "Task cancelled successfully" |} ∧
  zRank pending_key Examples.id0 run.2 = None ∧
  hGetAll (task_key Examples.id0) run.2 !! "status" = Some (JStr "cancelled") ∧
  (∀ later, cancelTask read_json Examples.id0 "alice" later run.2 =
              (Throws (InvalidStateError (Some (JStr "cancelled"))), run.2)).
Proof.
  cbn zeta.
  assert (He : task_exists Examples.id0 Examples.store1 = true) by (vm_compute; reflexivity).
  assert (Hp : context_parses read_json (hGetAll (task_key Examples.id0) Examples.store1)
               = true) by (vm_compute; reflexivity).
  assert (Hs : strict_eq_str
                 (hGetAll (task_key Examples.id0) Examples.store1 !! "submittedBy") "alice"
               = true) by (vm_compute; reflexivity).
  assert (Hq : strict_eq_str
                 (hGetAll (task_key Examples.id0) Examples.store1 !! "status") "pending"
               = true) by (vm_compute; reflexivity).
  destruct (cancelTask_contract read_json Examples.id0 "alice" "2023-11-14T22:14:00.000Z"
              Examples.store1) as (_ & _ & H).
  destruct (H He Hp) as (_ & _ & H3). cbn zeta in H3.
  destruct (H3 Hs Hq) as (? & ? & ? & ? & ? & ? & ? & ? & ?).
  split_and!; assumption.
Defined.

(** bob is not the submitter of the record whose context is no JSON
    text: his cancellation is answered with the error of the parser, not
    with the authorization error. *)
Lemma cancelTask_not_owner_unreadable :
  hGetAll (task_key Examples.id0) Examples.store_unreadable !! "submittedBy" =
    Some (JStr "alice") ∧
  "bob" ≠ "alice" ∧
  (cancelTask read_json Examples.id0 "bob" "2023-11-14T22:14:00.000Z"
     Examples.store_unreadable).1 = Throws SyntaxError ∧
  (cancelTask read_json Examples.id0 "bob" "2023-11-14T22:14:00.000Z"
     Examples.store_unreadable).1 ≠ Throws AuthorizationError.
Proof.
  split_and!; [vm_compute; reflexivity|discriminate|vm_compute; reflexivity|].
  vm_compute. discriminate.
Qed.

(** C4, amended.  A caller who is not the stored submitter of a task never
    cancels it, and the whole store (every field of the record, its
    status, the pending queue, every other record) is left unchanged.  The
    call fails with the authorization error when [JSON.parse] reads the
    stored context of the record, and with the SyntaxError of the parser
    when it does not. *)
Theorem cancelTask_not_owner JSON_parse taskId owner caller now st :
  let h := hGetAll (task_key taskId) st in
  let run := cancelTask JSON_parse taskId caller now st in
  h !! "submittedBy" = Some (JStr owner) →
  caller ≠ owner →
  run.2 = st ∧
  (context_parses JSON_parse h = true → run.1 = Throws AuthorizationError) ∧
  (context_parses JSON_parse h = false → run.1 = Throws SyntaxError) ∧
  (∀ answer, run.1 ≠ Returns answer).
Proof.
  intros h run Ho Hne. subst run.
  assert (He : task_exists taskId st = true).
  { unfold task_exists. fold h. by erewrite size_nonzero. }
  apply String.eqb_neq in Hne. rewrite String.eqb_sym in Hne.
  destruct (context_parses JSON_parse h) eqn:Hp.
  - rewrite cancelTask_cases by done. fold h. rewrite Ho. cbn [strict_eq_str].
    rewrite Hne. cbn [negb fst snd]. done.
  - rewrite cancelTask_unreadable by done. done.
Qed.

(** bob tries to cancel the task of alice. *)
Lemma cancelTask_not_owner_witness :
  hGetAll (task_key Examples.id0) Examples.store1 !! "submittedBy" = Some (JStr "alice") ∧
  "bob" ≠ "alice" ∧
  context_parses read_json (hGetAll (task_key Examples.id0) Examples.store1) = true ∧
  cancelTask read_json Examples.id0 "bob" "2023-11-14T22:14:00.000Z" Examples.store1 =
    (Throws AuthorizationError, Examples.store1).
Proof.
  assert (Ho : hGetAll (task_key Examples.id0) Examples.store1 !! "submittedBy"
               = Some (JStr "alice")) by (vm_compute; reflexivity).
  assert (Hp : context_parses read_json (hGetAll (task_key Examples.id0) Examples.store1)
               = true) by (vm_compute; reflexivity).
  assert (Hne : "bob" ≠ "alice") by discriminate.
  destruct (cancelTask_not_owner read_json Examples.id0 "alice" "bob"
              "2023-11-14T22:14:00.000Z" Examples.store1 Ho Hne) as (Hst & Hauth & _).
  split_and!; [exact Ho | exact Hne | exact Hp |].
  rewrite (surjective_pairing (cancelTask _ _ _ _ _)). by rewrite Hst, (Hauth Hp).
Defined.
End cancel_facts.

(** ** The order of the pending queue *)

Section ordering_facts.
Import Redis TaskService.
Implicit Types (st : Store) (z : list (Z * string)).

Lemma zset_score_remove_eq m z : zset_score m (zset_remove m z) = None.
Proof.
  induction z as [|x z IH]; simpl; [done|].
  destruct (String.eqb x.2 m) eqn:E; [done|]. simpl. by rewrite E.
Qed.

Lemma zset_score_remove_ne m a z : a ≠ m → zset_score a (zset_remove m z) = zset_score a z.
Proof.
  intros Hne. induction z as [|x z IH]; simpl; [done|].
  destruct (String.eqb x.2 m) eqn:Em, (String.eqb x.2 a) eqn:Ea; simpl; rewrite ?Ea; try done.
  apply String.eqb_eq in Em, Ea. congruence.
Qed.

Lemma zset_score_insert_eq e z :
  zset_score e.2 z = None → zset_score e.2 (zset_insert e z) = Some e.1.
Proof.
  induction z as [|x z IH]; simpl.
  - by rewrite String.eqb_refl.
  - destruct (String.eqb x.2 e.2) eqn:E; [done|]. intros H.
    destruct (entry_leb e x); simpl.
    + by rewrite String.eqb_refl.
    + rewrite E. auto.
Qed.

Lemma zset_score_insert_ne e a z :
  a ≠ e.2 → zset_score a (zset_insert e z) = zset_score a z.
Proof.
  intros Hne. apply not_eq_sym, String.eqb_neq in Hne.
  induction z as [|x z IH]; simpl.
  - by rewrite Hne.
  - destruct (entry_leb e x); simpl; rewrite ?Hne; [done|].
    by rewrite IH.
Qed.

Lemma zset_score_add_eq s m z : zset_score m (zset_add s m z) = Some s.
Proof.
  unfold zset_add. apply (zset_score_insert_eq (s, m)), zset_score_remove_eq.
Qed.

Lemma zset_score_add_ne s m a z : a ≠ m → zset_score a (zset_add s m z) = zset_score a z.
Proof.
  intros. unfold zset_add.
  rewrite (zset_score_insert_ne (s, m)) by done. by apply zset_score_remove_ne.
Qed.

(** A cancellation keeps the pending set sorted; a submission does not
    change it. *)
Lemma cancelTask_pending_sorted JSON_parse taskId userId now st :
  scores_sorted (zRange pending_key st) = true →
  scores_sorted (zRange pending_key (cancelTask JSON_parse taskId userId now st).2) = true.
Proof.
  intros Hs. destruct (cancelTask_store JSON_parse taskId userId now st) as [-> | ->]; [done|].
  unfold cancelled_store. rewrite zRange_hSet, zRange_zRem. by apply zset_remove_sorted.
Qed.

(** The order key compares two tasks by their priorities only while their
    timestamps are less than 1000000 ms per priority step apart. *)
Lemma score_lt_iff p1 t1 p2 t2 :
  score p1 t1 < score p2 t2 ↔ t1 - t2 < (p2 - p1) * 1000000.
Proof. unfold score. lia. Qed.

Lemma queue_positions_ordered st a b sa sb :
  scores_sorted (zRange pending_key st) = true →
  zset_score a (zRange pending_key st) = Some sa →
  zset_score b (zRange pending_key st) = Some sb →
  sa < sb →
  ∃ ra rb, getQueuePosition a st = Some ra ∧ getQueuePosition b st = Some rb ∧ (ra < rb)%nat.
Proof. unfold getQueuePosition, zRank. apply zset_rank_lt. Qed.

(** C1. The order key of [submitTask], [priority * 1000000 + Date.now()],
    does not rank a task of smaller priority number first regardless of
    the timestamps: it orders by priority only while the timestamps are
    less than 1000 seconds per priority step apart.  For a routine task
    (priority 2) and an urgent one (priority 1) 1000.001 seconds later the
    urgent task has the larger key, and the pending sorted set that holds
    the two entries under these keys ranks the urgent task behind the
    routine one.  In general a task of smaller priority number has the
    larger or equal key as soon as it comes 1000 seconds per priority
    step later. *)
Theorem urgent_task_ranks_behind_routine :
  score 2 Examples.t0 < score 1 (Examples.t0 + 1000001) ∧
  zRange pending_key Examples.store_inverted =
    [ (score 2 Examples.t0, Examples.id0);
      (score 1 (Examples.t0 + 1000001), Examples.id_late) ] ∧
  zRange pending_key
    (zAdd pending_key (score 1 (Examples.t0 + 1000001)) Examples.id_late
       (zAdd pending_key (score 2 Examples.t0) Examples.id0 empty)) =
    zRange pending_key Examples.store_inverted ∧
  getQueuePosition Examples.id0 Examples.store_inverted = Some 0%nat ∧
  getQueuePosition Examples.id_late Examples.store_inverted = Some 1%nat ∧
  (∀ p1 p2 t1 t2, p1 < p2 → (p2 - p1) * 1000000 ≤ t1 - t2 → score p2 t2 ≤ score p1 t1).
Proof.
  split_and!; [vm_compute; reflexivity..|].
  intros p1 p2 t1 t2 Hp Ht. unfold score. lia.
Qed.

(** C2. Of two tasks of equal priority the one with the earlier
    submission timestamp gets the strictly smaller order key
    [priority * 1000000 + timestamp], and in every pending sorted set that
    holds both under these keys the earlier one has the smaller position:
    it ranks first. *)
Theorem fifo_within_priority (p t1 t2 : Z) :
  t1 < t2 →
  score p t1 < score p t2 ∧
  (∀ st a b,
     scores_sorted (zRange pending_key st) = true →
     zset_score a (zRange pending_key st) = Some (score p t1) →
     zset_score b (zRange pending_key st) = Some (score p t2) →
     ∃ ra rb,
       getQueuePosition a st = Some ra ∧ getQueuePosition b st = Some rb ∧ (ra < rb)%nat).
Proof.
  intros Hlt.
  assert (Hkey : score p t1 < score p t2) by (unfold score; lia).
  split; [done|].
  intros st a b Hs Ha Hb. by eapply queue_positions_ordered.
Qed.

(** Two pending tasks of the default priority, five milliseconds apart. *)
Lemma fifo_within_priority_witness :
  Examples.t0 < Examples.t0 + 5 ∧
  scores_sorted (zRange pending_key Examples.store_fifo) = true ∧
  zset_score Examples.id0 (zRange pending_key Examples.store_fifo)
    = Some (score 3 Examples.t0) ∧
  zset_score Examples.id_soon (zRange pending_key Examples.store_fifo)
    = Some (score 3 (Examples.t0 + 5)) ∧
  ∃ ra rb,
    getQueuePosition Examples.id0 Examples.store_fifo = Some ra ∧
    getQueuePosition Examples.id_soon Examples.store_fifo = Some rb ∧ (ra < rb)%nat.
Proof.
  assert (Hlt : Examples.t0 < Examples.t0 + 5) by (vm_compute; reflexivity).
  assert (Hs : scores_sorted (zRange pending_key Examples.store_fifo) = true)
    by (vm_compute; reflexivity).
  assert (Ha : zset_score Examples.id0 (zRange pending_key Examples.store_fifo)
               = Some (score 3 Examples.t0)) by (vm_compute; reflexivity).
  assert (Hb : zset_score Examples.id_soon (zRange pending_key Examples.store_fifo)
               = Some (score 3 (Examples.t0 + 5))) by (vm_compute; reflexivity).
  split_and!; [exact Hlt | exact Hs | exact Ha | exact Hb |].
  exact (proj2 (fifo_within_priority 3 Examples.t0 (Examples.t0 + 5) Hlt)
           Examples.store_fifo Examples.id0 Examples.id_soon Hs Ha Hb).
Defined.
End ordering_facts.

(** ** What is stored of a task *)

Section record_facts.
Import Redis TaskService.
Implicit Types (st : Store) (taskSpec : TaskSpec) (userId : string) (env : SubmitEnv).
Implicit Types (JSON_parse : string → option JSON).





(** C10. The context of an accepted specification is not read back.  The
    record built for it carries the context as JSON text, but the client
    refuses the record (it holds null fields), so [submitTask] throws and
    stores nothing: [getTaskDetails] for the new identifier answers as it
    did before the submission, with null when no record was stored under
    the identifier. *)
Theorem context_not_read_back JSON_parse taskSpec userId env st :
  truthy_str (instruction taskSpec) = true →
  truthy_str (repository taskSpec) = true →
  let run := submitTask taskSpec userId env st in
  let record := task_fields (new_task (generateTaskId env) taskSpec userId env) in
  record !! "context" =
    Some (JStr (JSON_stringify (js_or (context taskSpec) empty_object))) ∧
  run = (Throws InvalidArgumentType, st) ∧
  getTaskDetails JSON_parse (generateTaskId env) run.2 =
    getTaskDetails JSON_parse (generateTaskId env) st ∧
  (task_exists (generateTaskId env) st = false →
     getTaskDetails JSON_parse (generateTaskId env) run.2 = Returns None).
Proof.
  intros Hi Hr run record. subst run record. rewrite submitTask_refused by done.
  cbn [snd]. split_and!; [|done|done|].
  - unfold task_fields, new_task. cbn [t_context]. apply lookup_insert_eq.
  - apply getTaskDetails_absent.
Qed.

(** alice submits the urgent fix with a structured payload to the empty
    store and asks for the task. *)
Lemma context_not_read_back_witness :
  truthy_str (instruction Examples.with_context) = true ∧
  truthy_str (repository Examples.with_context) = true ∧
  context Examples.with_context = Some Examples.payload ∧
  task_exists Examples.id0 empty = false ∧
  submitTask Examples.with_context "alice" Examples.env0 empty =
    (Throws (TypeError "Invalid argument type"), empty) ∧
  getTaskDetails read_json Examples.id0
    (submitTask Examples.with_context "alice" Examples.env0 empty).2 = Returns None.
Proof.
  destruct (context_not_read_back read_json Examples.with_context "alice" Examples.env0
              empty eq_refl eq_refl) as (_ & Hrun & _ & Hnone).
  split_and!; [reflexivity|reflexivity|reflexivity|reflexivity|exact Hrun|].
  exact (Hnone eq_refl).
Defined.
End record_facts.

(** ** Fleet reconciliation *)

Section discovery_facts.
Import Discovery.

Lemma unreported_state read agentId :
  unreported read agentId = true → getAgentStateFromRedis read agentId = None.
Proof.
  unfold unreported, getAgentStateFromRedis.
  destruct (read (agent_key agentId)) as [h|e]; [|done]. by intros ->.
Qed.

(** The view of a pod depends on the store only through the record of
    that pod. *)
Lemma agent_view_ext read read' pod :
  read' (agent_key (name pod)) = read (agent_key (name pod)) →
  agent_view read' pod = agent_view read pod.
Proof.
  intros H. unfold agent_view, getAgentStateFromRedis. by rewrite H.
Qed.

(** The views of a pod without a record (agent-c) and of a pod whose
    record cannot be read (agent-b) leave lastHeartbeat, currentTask and
    worktreePath undefined: they are not null. *)
Lemma unreported_fields_undefined :
  unreported Examples.reader "agent-b" = true ∧
  unreported Examples.reader "agent-c" = true ∧
  currentTask (agent_view Examples.reader (to_pod (Examples.pod_item "agent-c"))) =
    Undefined ∧
  currentTask (agent_view Examples.reader (to_pod (Examples.pod_item "agent-c"))) ≠ Null ∧
  worktreePath (agent_view Examples.reader (to_pod (Examples.pod_item "agent-c"))) ≠ Null ∧
  lastHeartbeat (agent_view Examples.reader (to_pod (Examples.pod_item "agent-c"))) ≠ Null ∧
  currentTask (agent_view Examples.reader (to_pod (Examples.pod_item "agent-b"))) ≠ Null ∧
  worktreePath (agent_view Examples.reader (to_pod (Examples.pod_item "agent-b"))) ≠ Null ∧
  lastHeartbeat (agent_view Examples.reader (to_pod (Examples.pod_item "agent-b"))) ≠ Null.
Proof. split_and!; try reflexivity; vm_compute; discriminate. Qed.

(** C6, amended.  Whatever the answers to the reads of the store (every
    read being answered), a listing the orchestrator delivered succeeds
    with one view per pod, in order.  The
    view of a pod whose self-reported record is missing or whose read
    fails has agentStatus "unknown", zero tasksCompleted and tasksFailed,
    and undefined (not null) lastHeartbeat, currentTask and worktreePath.
    The view of a pod is the same under any store that answers alike for
    the key of that pod, so a failure to read another record does not
    affect it. *)
Theorem unreported_worker_defaults items read :
  ∃ views,
    discoverAgents (Returns items) read = Returns views ∧
    length views = length items ∧
    (∀ i item,
       items !! i = Some item →
       ∃ view,
         views !! i = Some view ∧
         v_id view = metadata_name item ∧
         (unreported read (metadata_name item) = true →
            agentStatus view = JStr "unknown" ∧
            tasksCompleted (metrics view) = 0 ∧
            tasksFailed (metrics view) = 0 ∧
            lastHeartbeat view = Undefined ∧
            currentTask view = Undefined ∧
            worktreePath view = Undefined) ∧
         (∀ read',
            read' (agent_key (metadata_name item)) = read (agent_key (metadata_name item)) →
            ∃ views', discoverAgents (Returns items) read' = Returns views' ∧
                      views' !! i = Some view)).
Proof.
  exists (List.map (agent_view read) (List.map to_pod items)). split_and!.
  - done.
  - by rewrite !length_map.
  - intros i item Hi. exists (agent_view read (to_pod item)). split_and!.
    + by rewrite !list_lookup_fmap, Hi.
    + done.
    + intros Hu. unfold agent_view. cbn [name to_pod].
      by rewrite (unreported_state _ _ Hu).
    + intros read' Hr. eexists. split; [done|].
      rewrite !list_lookup_fmap, Hi. cbn [fmap option_fmap option_map].
      f_equal. by apply agent_view_ext.
Qed.

(** A fleet of three pods: the record of agent-b cannot be read, and its
    view carries the defaults while the listing succeeds. *)
Lemma unreported_worker_defaults_witness :
  Examples.fleet !! 1%nat = Some (Examples.pod_item "agent-b") ∧
  unreported Examples.reader "agent-b" = true ∧
  ∃ views view,
    discoverAgents (Returns Examples.fleet) Examples.reader = Returns views ∧
    views !! 1%nat = Some view ∧
    v_id view = "agent-b" ∧
    agentStatus view = JStr "unknown" ∧
    tasksCompleted (metrics view) = 0 ∧
    tasksFailed (metrics view) = 0 ∧
    lastHeartbeat view = Undefined ∧
    currentTask view = Undefined ∧
    worktreePath view = Undefined.
Proof.
  split; [reflexivity|]. split; [reflexivity|].
  destruct (unreported_worker_defaults Examples.fleet Examples.reader)
    as (views & Hrun & _ & Hall).
  destruct (Hall 1%nat (Examples.pod_item "agent-b") eq_refl)
    as (view & Hview & Hid & Hdef & _).
  destruct (Hdef eq_refl) as (Hs & Hc & Hf & Hh & Ht & Hw).
  exists views, view. split_and!; assumption.
Defined.
End discovery_facts.

(** ** Key cache *)

Section key_cache_facts.
Import JanuaAuth.

Lemma getJWKS_hit url now net st :
  cached_set_exists st = true → cache_fresh now st = true →
  getJWKS url now net st =
    {| result := Returns (jwksCache st); cache_after := st; events := [] |}.
Proof.
  unfold getJWKS, cached_set_exists, cache_fresh. by intros -> ->.
Qed.

Lemma getJWKS_refresh url now net st keys :
  cached_set_exists st && cache_fresh now st = false →
  fetch_keys net = Returns keys →
  getJWKS url now net st =
    {| result := Returns keys;
       cache_after := {| jwksCache := keys; jwksCacheTime := now |};
       events := [Fetched (url +:+ "/.well-known/jwks.json");
                  Logged "JWKS fetched and cached from Janua"] |}.
Proof.
  unfold getJWKS, cached_set_exists, cache_fresh. by intros -> ->.
Qed.

Lemma getJWKS_stale url now net st error :
  cached_set_exists st && cache_fresh now st = false →
  fetch_keys net = Throws error →
  getJWKS url now net st =
    if cached_set_exists st
    then {| result := Returns (jwksCache st); cache_after := st;
            events := [Fetched (url +:+ "/.well-known/jwks.json"); ErrorLogged error;
                       Warned "Using stale JWKS cache"] |}
    else {| result := Throws error; cache_after := st;
            events := [Fetched (url +:+ "/.well-known/jwks.json"); ErrorLogged error] |}.
Proof.
  unfold getJWKS, cached_set_exists, cache_fresh. by intros -> ->.
Qed.

(** C5. [getJWKS] throws only when no cached key set exists and the
    fetch fails too, and then throws the error of the fetch.  A cached set
    younger than the freshness window (one hour) is returned as it is,
    with no request sent and the cache untouched.  When the fetch fails
    while a cached set exists, however old, that set is returned; and a
    failed fetch never changes the cache.  After a successful fetch the
    cache holds the fetched set with the time of the fetch, and any call
    within the window then returns the same set without a request. *)
Theorem getJWKS_policy url now net st :
  let run := getJWKS url now net st in
  JWKS_CACHE_DURATION = 60 * 60 * 1000 ∧
  ((∃ e, result run = Throws e) ↔ cached_set_exists st = false ∧ fetch_fails net = true) ∧
  (∀ e, result run = Throws e → fetch_keys net = Throws e) ∧
  (cached_set_exists st = true → cache_fresh now st = true →
     result run = Returns (jwksCache st) ∧ cache_after run = st ∧ events run = []) ∧
  (cached_set_exists st = true → fetch_fails net = true →
     result run = Returns (jwksCache st)) ∧
  (fetch_fails net = true → cache_after run = st) ∧
  (∀ keys, cached_set_exists st && cache_fresh now st = false →
     fetch_keys net = Returns keys →
     result run = Returns keys ∧
     cache_after run = {| jwksCache := keys; jwksCacheTime := now |} ∧
     (∀ now' net', truthy_json keys = true → now' - now < JWKS_CACHE_DURATION →
        getJWKS url now' net' (cache_after run) =
          {| result := Returns keys; cache_after := cache_after run; events := [] |})).
Proof.
  intros run. subst run. unfold fetch_fails.
  destruct (cached_set_exists st && cache_fresh now st) eqn:Hhit.
  - apply andb_true_iff in Hhit as [Hc Hf].
    rewrite getJWKS_hit by done. cbn [result cache_after events]. rewrite Hc.
    split_and!; try done;
      try (split; [by intros [e H]|by intros [? ?]]);
      try (by destruct (fetch_keys net)).
  - destruct (fetch_keys net) as [keys|error] eqn:Hn.
    + rewrite (getJWKS_refresh _ _ _ _ keys) by done. cbn [result cache_after events].
      split_and!; try done;
        try (split; [by intros [e H]|by intros [? ?]]);
        try (intros Hc Hf; by rewrite Hc, Hf in Hhit).
      intros ? _ [= <-]. split_and!; [done..|].
      intros now' net' Hk Hnow. apply getJWKS_hit; [done|].
      unfold cache_fresh. cbn [jwksCacheTime]. by apply Z.ltb_lt.
    + rewrite (getJWKS_stale _ _ _ _ error) by done.
      destruct (cached_set_exists st) eqn:Hc; cbn [result cache_after events];
        split_and!; try done;
        try (intros _ Hf; simpl in Hhit; congruence);
        try (split; [by intros [e H]|by intros [? ?]]);
        try (split; [done|by eauto]);
        try (by intros e [= <-]).
Qed.

(** The issuer is unreachable two hours after the last fetch: the stale
    key set is served. *)
Lemma getJWKS_policy_witness :
  cached_set_exists Examples.stale_cache = true ∧
  fetch_fails Examples.outage = true ∧
  result (getJWKS Examples.issuer (Examples.t0 + 7200000) Examples.outage Examples.stale_cache)
    = Returns Examples.key_set.
Proof.
  split; [reflexivity|]. split; [reflexivity|].
  exact (proj1 (proj2 (proj2 (proj2 (proj2
           (getJWKS_policy Examples.issuer (Examples.t0 + 7200000) Examples.outage
              Examples.stale_cache))))) eq_refl eq_refl).
Defined.
End key_cache_facts.

(** ** Scope gate *)

Section scope_facts.
Import JanuaAuth.

Lemma split_space_token t : has_space t = false → split_space t = [t].
Proof.
  induction t as [|c t IH]; [done|]. cbn [has_space split_space].
  intros [Hc Ht]%orb_false_iff. rewrite Hc, IH; done.
Qed.

Lemma split_space_app t s :
  has_space t = false → split_space (t +:+ String " " s) = t :: split_space s.
Proof.
  induction t as [|c t IH]; [done|].
  change (String c t +:+ String " " s) with (String c (t +:+ String " " s)).
  cbn [has_space split_space].
  intros [Hc Ht]%orb_false_iff. rewrite Hc, IH; done.
Qed.

(** Splitting the capability string gives its tokens back. *)
Lemma split_space_scope_string tokens :
  Forall (λ t, scope_token t = true) tokens → tokens ≠ [] →
  split_space (scope_string tokens) = tokens.
Proof.
  unfold scope_string.
  induction 1 as [|t ts Ht Hts IH]; [done|]. intros _.
  apply andb_true_iff in Ht as [_ Ht%negb_true_iff].
  destruct ts as [|t' ts'].
  - by apply split_space_token.
  - change (String.concat " " (t :: t' :: ts'))
      with (t +:+ String " " (String.concat " " (t' :: ts'))).
    rewrite split_space_app by done. by rewrite IH.
Qed.

Lemma scope_string_truthy tokens :
  Forall (λ t, scope_token t = true) tokens → tokens ≠ [] →
  truthy_str (Some (scope_string tokens)) = true.
Proof.
  intros Hts Hne. destruct tokens as [|t ts]; [done|].
  apply Forall_cons in Hts as [Ht _].
  apply andb_true_iff in Ht as [Ht _].
  destruct t as [|c t]; [done|]. by destruct ts.
Qed.

Lemma scopes_of_scope_string p tokens :
  Forall (λ t, scope_token t = true) tokens →
  scope p = Some (scope_string tokens) →
  scopes_of p = tokens.
Proof.
  intros Hts Hp. unfold scopes_of. rewrite Hp.
  destruct tokens as [|t ts]; [done|].
  rewrite scope_string_truthy by done.
  by apply split_space_scope_string.
Qed.

Lemma includes_elem_of userScopes required :
  includes userScopes required = true ↔ required ∈ userScopes.
Proof.
  unfold includes. rewrite existsb_exists. split.
  - intros (x & Hx & ->%String.eqb_eq). by apply list_elem_of_In.
  - intros H. exists required. split; [by apply list_elem_of_In|apply String.eqb_refl].
Qed.

Lemma requireScope_cases required r :
  requireScope required r =
    if includes (user_scopes r) required then Next r
    else insufficient required (user_scopes r).
Proof. unfold requireScope. by destruct (includes _ _). Qed.

(** C7. For a verified identity whose capability string lists scope
    tokens separated by spaces, the request that [authenticateJanuaToken]
    passes on carries exactly these tokens, and [requireScope] lets it
    through (calls the next handler with the request unchanged) if and only
    if the required capability is one of the tokens; otherwise it answers
    403 "Insufficient permissions".  The decision reads the scopes of the
    request and nothing else: two requests with the same scopes are decided
    alike. *)
Theorem requireScope_gate verify req token payload tokens required :
  bearer_token (authorization req) = Some token →
  token ≠ "" →
  verify token = Returns payload →
  forallb scope_token tokens = true →
  scope payload = Some (scope_string tokens) →
  ∃ req',
    authenticateJanuaToken verify req = Next req' ∧
    user_scopes req' = tokens ∧
    (requireScope required req' = Next req' ↔ required ∈ tokens) ∧
    (required ∉ tokens → requireScope required req' = insufficient required tokens) ∧
    (∀ other, user_scopes other = user_scopes req' →
       (requireScope required other = Next other ↔ requireScope required req' = Next req')).
Proof.
  intros Hb Ht Hv Hts Hs.
  assert (Hts' : Forall (λ t, scope_token t = true) tokens).
  { apply Forall_forall. intros t Hin. rewrite forallb_forall in Hts.
    by apply Hts, list_elem_of_In. }
  exists {| authorization := authorization req; user := Some (user_of payload) |}.
  assert (Hu : user_scopes {| authorization := authorization req;
                              user := Some (user_of payload) |} = tokens).
  { unfold user_scopes. cbn. by apply scopes_of_scope_string. }
  split_and!.
  - unfold authenticateJanuaToken. rewrite Hb. simpl.
    apply String.eqb_neq in Ht. rewrite Ht. simpl. by rewrite Hv.
  - done.
  - rewrite requireScope_cases, Hu, <- includes_elem_of. by destruct (includes tokens required).
  - intros Hn. rewrite requireScope_cases, Hu.
    destruct (includes tokens required) eqn:E; [|done].
    by apply includes_elem_of in E.
  - intros other Ho. rewrite !requireScope_cases, Ho.
    by destruct (includes _ required).
Qed.

(** A token with scope "openid agent:view": viewing passes, control is refused. *)
Lemma requireScope_gate_witness :
  bearer_token (authorization Examples.request) = Some "abc.def.ghi" ∧
  "abc.def.ghi" ≠ "" ∧
  forallb scope_token ["openid"; "agent:view"] = true ∧
  scope Examples.viewer = Some (scope_string ["openid"; "agent:view"]) ∧
  ∃ req',
    authenticateJanuaToken Examples.verify_viewer Examples.request = Next req' ∧
    requireScope "agent:view" req' = Next req' ∧
    requireScope "agent:control" req' =
      insufficient "agent:control" ["openid"; "agent:view"].
Proof.
  assert (Hne : "abc.def.ghi" ≠ "") by discriminate.
  split_and!; [reflexivity | exact Hne | reflexivity | reflexivity |].
  destruct (requireScope_gate Examples.verify_viewer Examples.request "abc.def.ghi"
              Examples.viewer ["openid"; "agent:view"] "agent:control"
              eq_refl Hne eq_refl eq_refl eq_refl) as (req' & Hauth & Hu & _ & Hdeny & _).
  exists req'. split_and!.
  - exact Hauth.
  - rewrite requireScope_cases, Hu. reflexivity.
  - apply Hdeny. rewrite !not_elem_of_cons.
    split_and!; [discriminate | discriminate | apply not_elem_of_nil].
Defined.
End scope_facts.

(** ** The queue across operations *)

Section queue_facts.
Import Redis TaskService TaskQueries.
Implicit Types (z : list (Z * string)) (st : Store).
Implicit Types (JSON_parse : string → option JSON).

Lemma ceil_div_spec a b : 0 < b → ceil_div a b = (a + b - 1) / b.
Proof.
  intros Hb. unfold ceil_div.
  pose proof (Z.div_mod (- a) b ltac:(lia)) as H1.
  pose proof (Z.mod_pos_bound (- a) b Hb) as H2.
  pose proof (Z.div_mod (a + b - 1) b ltac:(lia)) as H3.
  pose proof (Z.mod_pos_bound (a + b - 1) b Hb) as H4.
  nia.
Qed.

Lemma estimateWaitTime_queued st :
  let n := Z.of_nat (zCard pending_key st) in
  0 < n → 600 ≤ estimateWaitTime st ≤ 1800 ∧ estimateWaitTime st ≤ 600 * n.
Proof.
  intros n Hpos. unfold estimateWaitTime. fold n.
  rewrite (ceil_div_spec n 3) by lia.
  set (a := Z.max 1 ((n + 3 - 1) / 3)).
  assert (Ha1 : 1 ≤ a) by lia.
  assert (Ha2 : n ≤ 3 * a).
  { pose proof (Z.div_mod (n + 3 - 1) 3 ltac:(lia)).
    pose proof (Z.mod_pos_bound (n + 3 - 1) 3 ltac:(lia)). lia. }
  assert (Ha3 : a ≤ n).
  { pose proof (Z.div_mod (n + 3 - 1) 3 ltac:(lia)).
    pose proof (Z.mod_pos_bound (n + 3 - 1) 3 ltac:(lia)). lia. }
  rewrite ceil_div_spec by lia.
  pose proof (Z.div_mod (n * 600 + a - 1) a ltac:(lia)).
  pose proof (Z.mod_pos_bound (n * 600 + a - 1) a ltac:(lia)).
  nia.
Qed.

(** X1. The estimated wait is 0 for an empty pending queue; for a queue of
    [n > 0] tasks it lies between 600 and 1800 seconds and is at most
    [600 * n]: the assumed number of agents grows with the queue, so the
    estimate never exceeds thirty minutes however deep the queue is. *)
Theorem estimateWaitTime_bounds st :
  let n := Z.of_nat (zCard pending_key st) in
  (n = 0 ∧ estimateWaitTime st = 0) ∨
  (0 < n ∧ 600 ≤ estimateWaitTime st ≤ 1800 ∧ estimateWaitTime st ≤ 600 * n).
Proof.
  intros n. destruct (decide (n = 0)) as [Hz|Hn].
  - left. split; [done|]. unfold estimateWaitTime. fold n. by rewrite Hz.
  - right. assert (0 < n) as Hpos by lia. split; [done|].
    by apply estimateWaitTime_queued.
Qed.

Lemma zset_remove_absent m z : zset_rank m z = None → zset_remove m z = z.
Proof.
  induction z as [|x z IH]; simpl; [done|].
  destruct (String.eqb x.2 m); [done|].
  destruct (zset_rank m z); [done|]. intros _. by rewrite IH.
Qed.

Lemma zset_remove_insert s m z :
  zset_remove m (zset_insert (s, m) z) = zset_remove m z.
Proof.
  induction z as [|x z IH]; simpl.
  - by rewrite String.eqb_refl.
  - destruct (entry_leb (s, m) x); simpl.
    + by rewrite String.eqb_refl.
    + by rewrite IH.
Qed.

Lemma zset_remove_add s m z : zset_remove m (zset_add s m z) = zset_remove m z.
Proof.
  unfold zset_add. rewrite zset_remove_insert.
  apply zset_remove_absent, zset_remove_rank.
Qed.

Lemma length_zset_insert e z : length (zset_insert e z) = S (length z).
Proof.
  induction z as [|x z IH]; simpl; [done|].
  destruct (entry_leb e x); simpl; by rewrite ?IH.
Qed.

Lemma members_unique_rank m z r :
  members_unique z = true → zset_rank m z = Some r →
  S (length (zset_remove m z)) = length z.
Proof.
  revert r. induction z as [|x z IH]; intros r; simpl; [done|].
  intros [Hx Hz]%andb_true_iff.
  destruct (String.eqb x.2 m) eqn:E.
  - intros _. rewrite zset_remove_absent; [done|].
    apply String.eqb_eq in E. subst m.
    apply negb_true_iff in Hx.
    clear -Hx. induction z as [|y z IH]; simpl in *; [done|].
    apply orb_false_iff in Hx as [Hy Hx]. rewrite Hy. by rewrite IH.
  - destruct (zset_rank m z) as [r'|] eqn:Hr; [|done]. intros _.
    simpl. by rewrite (IH r').
Qed.

Lemma existsb_member_remove (a m : string) z :
  existsb (λ y : Z * string, String.eqb y.2 a) (zset_remove m z) = true →
  existsb (λ y : Z * string, String.eqb y.2 a) z = true.
Proof.
  induction z as [|x z IH]; simpl; [done|].
  destruct (String.eqb x.2 m); simpl.
  - intros H. rewrite IH by done. apply orb_true_r.
  - intros [->|H]%orb_true_iff; [done|]. rewrite IH by done. apply orb_true_r.
Qed.

Lemma members_unique_remove m z :
  members_unique z = true → members_unique (zset_remove m z) = true.
Proof.
  induction z as [|x z IH]; simpl; [done|].
  intros [Hx Hz]%andb_true_iff. destruct (String.eqb x.2 m); [auto|].
  simpl. rewrite IH by done. rewrite andb_true_r.
  apply negb_true_iff. apply negb_true_iff in Hx.
  destruct (existsb _ (zset_remove m z)) eqn:E; [|done].
  apply existsb_member_remove in E. congruence.
Qed.

Lemma existsb_member_rank (a : string) z :
  existsb (λ y : Z * string, String.eqb y.2 a) z = false ↔ zset_rank a z = None.
Proof.
  induction z as [|x z IH]; simpl; [done|].
  destruct (String.eqb x.2 a); simpl; [done|].
  rewrite IH. by destruct (zset_rank a z).
Qed.

Lemma members_unique_insert e z :
  members_unique z = true → zset_rank e.2 z = None →
  members_unique (zset_insert e z) = true.
Proof.
  induction z as [|x z IH]; simpl; [done|].
  intros [Hx Hz]%andb_true_iff.
  destruct (String.eqb x.2 e.2) eqn:E; [done|].
  destruct (zset_rank e.2 z) eqn:Hr; [done|]. intros _.
  destruct (entry_leb e x); simpl.
  - rewrite E. simpl. rewrite Hx, Hz.
    apply existsb_member_rank in Hr. by rewrite Hr.
  - rewrite IH by done. rewrite andb_true_r.
    apply negb_true_iff. apply negb_true_iff in Hx.
    clear IH. induction z as [|y z IHz]; simpl in *.
    + rewrite orb_false_r. rewrite String.eqb_sym. done.
    + apply orb_false_iff in Hx as [Hy Hx'].
      apply andb_true_iff in Hz as [Hyu Hz'].
      destruct (String.eqb y.2 e.2) eqn:Eye; [done|].
      destruct (zset_rank e.2 z) eqn:Hr'; [done|].
      destruct (entry_leb e y); simpl.
      * rewrite String.eqb_sym, E. simpl. by rewrite Hy, Hx'.
      * rewrite Hy. simpl. by apply IHz.
Qed.

Lemma members_unique_add s m z :
  members_unique z = true → members_unique (zset_add s m z) = true.
Proof.
  intros H. unfold zset_add.
  apply (members_unique_insert (s, m)); [by apply members_unique_remove|].
  apply zset_remove_rank.
Qed.

Lemma task_key_inj a b : task_key a = task_key b → a = b.
Proof. unfold task_key. intros H. by simplify_eq. Qed.

Lemma cancelTask_success JSON_parse taskId userId now st r :
  (cancelTask JSON_parse taskId userId now st).1 = Returns r →
  (cancelTask JSON_parse taskId userId now st).2 = cancelled_store taskId userId now st.
Proof.
  unfold cancelTask. destruct (getTaskDetails JSON_parse taskId st) as [[task|]|e]; [|done..].
  destruct (negb (strict_eq_str (task !! "submittedBy") userId)); [done|].
  by destruct (negb (strict_eq_str (task !! "status") "pending")).
Qed.

(** X2. A task of smaller priority number submitted less than 1000
    seconds per priority step after a task of larger priority number gets
    the smaller order key, and in every pending queue that holds both it
    has the smaller position. *)
Theorem priority_order_within_window (p1 p2 t1 t2 : Z) :
  p1 < p2 →
  t1 - t2 < (p2 - p1) * 1000000 →
  score p1 t1 < score p2 t2 ∧
  ∀ st a b,
    scores_sorted (zRange pending_key st) = true →
    zset_score a (zRange pending_key st) = Some (score p1 t1) →
    zset_score b (zRange pending_key st) = Some (score p2 t2) →
    ∃ ra rb,
      getQueuePosition a st = Some ra ∧ getQueuePosition b st = Some rb ∧ (ra < rb)%nat.
Proof.
  intros Hp Hw. assert (Hkey : score p1 t1 < score p2 t2) by by apply score_lt_iff.
  split; [done|]. intros st a b Hs Ha Hb. by eapply queue_positions_ordered.
Qed.

Lemma priority_order_within_window_witness :
  1 < 2 ∧
  (Examples.t0 + 5) - Examples.t0 < (2 - 1) * 1000000 ∧
  score 1 (Examples.t0 + 5) < score 2 Examples.t0 ∧
  ∃ ra rb,
    getQueuePosition Examples.id_soon Scenarios.store_window = Some ra ∧
    getQueuePosition Examples.id0 Scenarios.store_window = Some rb ∧ (ra < rb)%nat.
Proof.
  assert (H1 : 1 < 2) by lia.
  assert (H2 : (Examples.t0 + 5) - Examples.t0 < (2 - 1) * 1000000) by (vm_compute; done).
  destruct (priority_order_within_window 1 2 (Examples.t0 + 5) Examples.t0 H1 H2)
    as [Hs Hq].
  split_and!; [done|done|done|].
  apply (Hq Scenarios.store_window Examples.id_soon Examples.id0); reflexivity.
Defined.

(** X5. A successful cancellation of a queued task, in a pending queue
    without duplicate members, lowers the pending count and the total of
    [getQueueStats] by one, and the task has no queue position any more. *)
Theorem queue_stats_after_cancel JSON_parse lLen taskId userId now st r pos :
  (cancelTask JSON_parse taskId userId now st).1 = Returns r →
  members_unique (zRange pending_key st) = true →
  getQueuePosition taskId st = Some pos →
  let before := getQueueStats lLen st in
  let after := getQueueStats lLen (cancelTask JSON_parse taskId userId now st).2 in
  S (pending after) = pending before ∧
  S (total after) = total before ∧
  getQueuePosition taskId (cancelTask JSON_parse taskId userId now st).2 = None.
Proof.
  intros Hok Hu Hq before after. subst before after.
  rewrite (cancelTask_success _ _ _ _ _ _ Hok).
  unfold getQueueStats. cbn [pending active completed failed total].
  change (TASK_QUEUE_PREFIX +:+ ":pending") with pending_key.
  unfold getQueuePosition, zRank, zCard, cancelled_store in *.
  rewrite zRange_hSet, zRange_zRem.
  pose proof (members_unique_rank _ _ _ Hu Hq).
  split_and!; [lia|lia|apply zset_remove_rank].
Qed.

Lemma queue_stats_after_cancel_witness :
  (cancelTask read_json Examples.id0 "alice" "2023-11-14T22:14:00.000Z" Examples.store1).1 =
    Returns {| c_taskId := Examples.id0; c_status := "cancelled";
               c_message := "Task cancelled successfully" |} ∧
  members_unique (zRange pending_key Examples.store1) = true ∧
  getQueuePosition Examples.id0 Examples.store1 = Some 0%nat ∧
  S (pending (getQueueStats Scenarios.no_lists
                (cancelTask read_json Examples.id0 "alice" "2023-11-14T22:14:00.000Z"
                   Examples.store1).2)) =
    pending (getQueueStats Scenarios.no_lists Examples.store1).
Proof.
  split_and!; [reflexivity|reflexivity|reflexivity|].
  exact (proj1 (queue_stats_after_cancel read_json Scenarios.no_lists Examples.id0 "alice"
                  "2023-11-14T22:14:00.000Z" Examples.store1 _ _ eq_refl eq_refl eq_refl)).
Defined.




End queue_facts.

(** ** The tasks of a user ([getUserTasks]) *)

Section user_tasks_facts.
Import Redis TaskService TaskQueries TaskViews.
Implicit Types (JSON_parse : string → option JSON).

Lemma sort_insert_perm {A} (cmp : A → A → Z) x l : sort_insert cmp x l ≡ₚ x :: l.
Proof.
  induction l as [|y l IH]; simpl; [done|].
  destruct (cmp x y <=? 0); [done|]. rewrite IH. apply Permutation_swap.
Qed.

Lemma sort_perm {A} (cmp : A → A → Z) l : sort cmp l ≡ₚ l.
Proof.
  induction l as [|x l IH]; simpl; [done|]. by rewrite sort_insert_perm, IH.
Qed.

Lemma sort_insert_sorted {A} (cmp : A → A → Z) (tm : A → Z) x l :
  Forall (λ y, cmp x y = tm y - tm x) l →
  StronglySorted (λ a b, tm b ≤ tm a) l →
  StronglySorted (λ a b, tm b ≤ tm a) (sort_insert cmp x l).
Proof.
  induction l as [|y l IH]; intros Hc Hs; simpl.
  - repeat constructor.
  - apply Forall_cons in Hc as [Hy Hc]. apply StronglySorted_inv in Hs as [Hs Hl].
    destruct (cmp x y <=? 0) eqn:E.
    + apply Z.leb_le in E. constructor; [by constructor|].
      constructor; [lia|]. eapply Forall_impl; [exact Hl|]. simpl. intros; lia.
    + apply Z.leb_gt in E. constructor; [by apply IH|].
      rewrite sort_insert_perm. constructor; [lia|done].
Qed.

Lemma sort_sorted {A} (cmp : A → A → Z) (tm : A → Z) l :
  Forall (λ x, Forall (λ y, cmp x y = tm y - tm x) l) l →
  StronglySorted (λ a b, tm b ≤ tm a) (sort cmp l).
Proof.
  intros H. assert (Hsub : l ⊆ l) by done. revert Hsub.
  generalize l at 1 3 as l'. induction l' as [|x l' IH]; intros Hsub; simpl.
  - constructor.
  - apply sort_insert_sorted.
    + rewrite sort_perm. rewrite Forall_forall in H.
      assert (Hx : x ∈ l) by (apply Hsub; left).
      specialize (H x Hx). rewrite Forall_forall in H. apply Forall_forall.
      intros y Hy. apply H, Hsub. by right.
    + apply IH. intros y Hy. apply Hsub. by right.
Qed.

Lemma StronglySorted_lookup_le {A} (R : A → A → Prop) l i j a b :
  StronglySorted R l → (i < j)%nat → l !! i = Some a → l !! j = Some b → R a b.
Proof.
  intros Hs. revert i j. induction Hs as [|x l Hs IH Hx]; intros i j Hij Hi Hj; [done|].
  destruct j as [|j]; [lia|]. destruct i as [|i]; simpl in *.
  - simplify_eq. rewrite Forall_forall in Hx. apply Hx. by eapply list_elem_of_lookup_2.
  - eapply IH; [|done..]. lia.
Qed.

Lemma collect_user_tasks_views JSON_parse scanned userId st tasks :
  collect_user_tasks JSON_parse scanned userId st = Returns tasks →
  Some <$> tasks = task_view JSON_parse st <$> (filter (λ key, owned_by userId st key = true) scanned).
Proof.
  revert tasks. induction scanned as [|key scanned IH]; intros tasks; simpl.
  - intros [= <-]. done.
  - rewrite filter_cons.
    destruct (decide (owned_by userId st key = true)) as [Ho|Ho]; unfold owned_by in Ho.
    + rewrite Ho. rewrite fmap_cons. unfold task_view at 1. cbn zeta.
      destruct (JSON_parse _) as [ctx|]; [|done].
      destruct (collect_user_tasks JSON_parse scanned userId st) as [ts|e]; [|done].
      intros [= <-]. rewrite !fmap_cons. by rewrite (IH ts).
    + apply not_true_is_false in Ho. rewrite Ho. apply IH.
Qed.

Lemma collect_user_tasks_outcome JSON_parse scanned userId st :
  match collect_user_tasks JSON_parse scanned userId st with
  | Returns _ =>
      ∀ key, key ∈ scanned → owned_by userId st key = true →
             context_parses JSON_parse (hGetAll key st) = true
  | Throws e =>
      e = SyntaxError ∧
      ∃ key, key ∈ scanned ∧ owned_by userId st key = true ∧
             context_parses JSON_parse (hGetAll key st) = false
  end.
Proof.
  induction scanned as [|key scanned IH]; simpl.
  - intros key H. by apply elem_of_nil in H.
  - destruct (strict_eq_str (hGetAll key st !! "submittedBy") userId) eqn:Ho.
    + destruct (JSON_parse _) as [ctx|] eqn:Hp.
      * destruct (collect_user_tasks JSON_parse scanned userId st) as [ts|e].
        -- intros k [->|Hk]%elem_of_cons Hown; [|by apply IH].
           unfold context_parses. by rewrite Hp.
        -- destruct IH as [-> (k & Hk & Hown & Hbad)]. split; [done|].
           exists k. split_and!; [by right|done..].
      * split; [done|]. exists key. split_and!; [by left|done|].
        unfold context_parses. by rewrite Hp.
    + destruct (collect_user_tasks JSON_parse scanned userId st) as [ts|e].
      * intros k [->|Hk]%elem_of_cons Hown; [|by apply IH].
        unfold owned_by in Hown. congruence.
      * destruct IH as [-> (k & Hk & Hown & Hbad)]. split; [done|].
        exists k. split_and!; [by right|done..].
Qed.

Lemma task_view_field JSON_parse st key task f :
  task_view JSON_parse st key = Some task → f ≠ "context" → task !! f = hGetAll key st !! f.
Proof.
  unfold task_view. destruct (JSON_parse _); [|done]. intros [= <-] Hf.
  by rewrite lookup_insert_ne.
Qed.

Lemma getUserTasks_views JSON_parse getTime scanned userId st tasks :
  getUserTasks JSON_parse getTime scanned userId st = Returns tasks →
  Some <$> tasks ≡ₚ
    task_view JSON_parse st <$> filter (λ key, owned_by userId st key = true) scanned.
Proof.
  unfold getUserTasks.
  destruct (collect_user_tasks JSON_parse scanned userId st) as [ts|e] eqn:Hc; [|done].
  intros [= <-]. apply collect_user_tasks_views in Hc.
  rewrite <- Hc. by rewrite sort_perm.
Qed.

Lemma getUserTasks_elem JSON_parse getTime scanned userId st tasks task :
  getUserTasks JSON_parse getTime scanned userId st = Returns tasks →
  task ∈ tasks ↔
  ∃ key, key ∈ scanned ∧ owned_by userId st key = true ∧ task_view JSON_parse st key = Some task.
Proof.
  intros Hg. apply getUserTasks_views in Hg. split.
  - intros Ht.
    assert (Hin : Some task ∈ Some <$> tasks) by (apply list_elem_of_fmap; eauto).
    rewrite Hg in Hin. apply list_elem_of_fmap in Hin as (key & Hv & Hk).
    apply list_elem_of_filter in Hk as [Ho Hk]. eauto.
  - intros (key & Hk & Ho & Hv).
    assert (Hin : Some task ∈ Some <$> tasks).
    { rewrite Hg. apply list_elem_of_fmap. exists key. split; [done|].
      by apply list_elem_of_filter. }
    apply list_elem_of_fmap in Hin as (t & [= <-] & Ht). done.
Qed.

Lemma owned_by_submitter userId st key :
  owned_by userId st key = true ↔ hGetAll key st !! "submittedBy" = Some (JStr userId).
Proof.
  unfold owned_by, strict_eq_str. split.
  - destruct (hGetAll key st !! "submittedBy") as [[]|]; try done.
    by intros ->%String.eqb_eq.
  - intros ->. apply String.eqb_refl.
Qed.

(** X8. When [getUserTasks] returns, it returns exactly the records of
    the caller among the scanned keys, one task per such key (in some
    order), each with its fields as stored and its context parsed; every
    returned task was submitted by the caller, and no record of another
    user is returned. *)
Theorem getUserTasks_only_own JSON_parse getTime scanned userId st tasks :
  getUserTasks JSON_parse getTime scanned userId st = Returns tasks →
  Some <$> tasks ≡ₚ
    task_view JSON_parse st <$> filter (λ key, owned_by userId st key = true) scanned ∧
  (∀ task, task ∈ tasks → task !! "submittedBy" = Some (JStr userId)) ∧
  (∀ key, key ∈ scanned → owned_by userId st key = false →
     ∀ task, task ∈ tasks → task_view JSON_parse st key ≠ Some task).
Proof.
  intros Hg.
  assert (Hown : ∀ task, task ∈ tasks → task !! "submittedBy" = Some (JStr userId)).
  { intros task (key & Hk & Ho & Hv)%(getUserTasks_elem _ _ _ _ _ _ _ Hg).
    rewrite (task_view_field JSON_parse st key task "submittedBy") by done.
    by apply owned_by_submitter. }
  split_and!; [by eapply getUserTasks_views|done|].
  intros key Hk Hno task Ht Hv. specialize (Hown task Ht).
  rewrite (task_view_field JSON_parse st key task "submittedBy") in Hown by done.
  apply owned_by_submitter in Hown. congruence.
Qed.

Lemma getUserTasks_only_own_witness :
  getUserTasks read_json Scenarios.clock Scenarios.scanned_keys "alice" Scenarios.store_shared =
    Returns Scenarios.alice_tasks ∧
  length Scenarios.alice_tasks = 2%nat ∧
  ∀ task, task ∈ Scenarios.alice_tasks → task !! "submittedBy" = Some (JStr "alice").
Proof.
  assert (H : getUserTasks read_json Scenarios.clock Scenarios.scanned_keys "alice"
                Scenarios.store_shared = Returns Scenarios.alice_tasks) by reflexivity.
  split_and!; [done|reflexivity|].
  exact (proj1 (proj2 (getUserTasks_only_own read_json Scenarios.clock Scenarios.scanned_keys "alice"
                         Scenarios.store_shared Scenarios.alice_tasks H))).
Defined.

(** X9. When every record of the caller among the scanned keys has a
    valid submission date, [getUserTasks] returns the tasks newest first:
    a task never comes before one that was submitted later. *)
Theorem getUserTasks_newest_first JSON_parse getTime scanned userId st tasks :
  forallb (λ key, implb (owned_by userId st key) (dated getTime st key)) scanned = true →
  getUserTasks JSON_parse getTime scanned userId st = Returns tasks →
  ∀ i j a b, (i < j)%nat → tasks !! i = Some a → tasks !! j = Some b →
    ∃ ta tb, submitted_time getTime a = Some ta ∧ submitted_time getTime b = Some tb ∧
             tb ≤ ta.
Proof.
  intros Hd Hg.
  assert (Ht : ∀ t, t ∈ tasks → is_Some (submitted_time getTime t)).
  { intros t (key & Hk & Ho & Hv)%(getUserTasks_elem _ _ _ _ _ _ _ Hg).
    rewrite forallb_forall in Hd. apply list_elem_of_In in Hk.
    specialize (Hd key Hk). rewrite Ho in Hd. cbn [implb] in Hd.
    unfold dated in Hd. unfold submitted_time.
    rewrite (task_view_field JSON_parse st key t "submittedAt") by done.
    by destruct (getTime _). }
  unfold getUserTasks in Hg.
  destruct (collect_user_tasks JSON_parse scanned userId st) as [ts|e] eqn:Hc; [|done].
  injection Hg as <-.
  assert (Hts : ∀ t, t ∈ ts → is_Some (submitted_time getTime t)).
  { intros t Hin. apply Ht. by rewrite sort_perm. }
  set (tm := λ t, default 0 (submitted_time getTime t)).
  assert (Hsorted : StronglySorted (λ a b, tm b ≤ tm a) (sort (compare_tasks getTime) ts)).
  { apply sort_sorted. apply Forall_forall. intros x Hx. apply Forall_forall. intros y Hy.
    destruct (Hts x Hx) as [tx Hx']. destruct (Hts y Hy) as [ty Hy'].
    unfold compare_tasks, tm. unfold submitted_time in *. by rewrite Hx', Hy'. }
  intros i j a b Hij Ha Hb.
  pose proof (StronglySorted_lookup_le _ _ _ _ _ _ Hsorted Hij Ha Hb) as Hle.
  destruct (Ht a (list_elem_of_lookup_2 _ _ _ Ha)) as [ta Hta].
  destruct (Ht b (list_elem_of_lookup_2 _ _ _ Hb)) as [tb Htb].
  exists ta, tb. split_and!; [done|done|]. unfold tm in Hle. by rewrite Hta, Htb in Hle.
Qed.

Lemma getUserTasks_newest_first_witness :
  forallb (λ key, implb (owned_by "alice" Scenarios.store_shared key)
                        (dated Scenarios.clock Scenarios.store_shared key))
    Scenarios.scanned_keys = true ∧
  getUserTasks read_json Scenarios.clock Scenarios.scanned_keys "alice" Scenarios.store_shared =
    Returns Scenarios.alice_tasks ∧
  ∀ i j a b, (i < j)%nat →
    Scenarios.alice_tasks !! i = Some a → Scenarios.alice_tasks !! j = Some b →
    ∃ ta tb, submitted_time Scenarios.clock a = Some ta ∧
             submitted_time Scenarios.clock b = Some tb ∧ tb ≤ ta.
Proof.
  assert (Hd : forallb (λ key, implb (owned_by "alice" Scenarios.store_shared key)
                                     (dated Scenarios.clock Scenarios.store_shared key))
                 Scenarios.scanned_keys = true) by (vm_compute; reflexivity).
  assert (Hg : getUserTasks read_json Scenarios.clock Scenarios.scanned_keys "alice"
                 Scenarios.store_shared = Returns Scenarios.alice_tasks)
    by reflexivity.
  split_and!; [exact Hd|exact Hg|].
  exact (getUserTasks_newest_first read_json Scenarios.clock Scenarios.scanned_keys "alice"
           Scenarios.store_shared Scenarios.alice_tasks Hd Hg).
Defined.

(** X10. Whatever texts [JSON.parse] accepts, [getUserTasks] returns
    exactly when it accepts the context of every record of the caller
    among the scanned keys, and throws the parser's error exactly when it
    refuses one of them; an unreadable record of another user does not
    make it fail. *)
Theorem getUserTasks_outcome JSON_parse getTime scanned userId st :
  ((∃ tasks, getUserTasks JSON_parse getTime scanned userId st = Returns tasks) ↔
     ∀ key, key ∈ scanned → owned_by userId st key = true →
            context_parses JSON_parse (hGetAll key st) = true) ∧
  (getUserTasks JSON_parse getTime scanned userId st = Throws SyntaxError ↔
     ∃ key, key ∈ scanned ∧ owned_by userId st key = true ∧
            context_parses JSON_parse (hGetAll key st) = false).
Proof.
  unfold getUserTasks. pose proof (collect_user_tasks_outcome JSON_parse scanned userId st) as H.
  destruct (collect_user_tasks JSON_parse scanned userId st) as [ts|e].
  - split; split.
    + done.
    + eauto.
    + done.
    + intros (key & Hk & Ho & Hbad). rewrite (H key Hk Ho) in Hbad. done.
  - destruct H as [-> (key & Hk & Ho & Hbad)]. split; split.
    + by intros [? ?].
    + intros Hall. rewrite (Hall key Hk Ho) in Hbad. done.
    + eauto.
    + done.
Qed.

End user_tasks_facts.

(** ** Instruction heuristics *)

Section instruction_facts.
Import Discovery Instruction.

Lemma string_app_nil_r (s : string) : s +:+ "" = s.
Proof. induction s as [|c s IH]; [done|]. change (String c (s +:+ "") = String c s). by rewrite IH. Qed.

Lemma string_app_cons (c : ascii) (s t : string) : String c s +:+ t = String c (s +:+ t).
Proof. done. Qed.

Lemma string_app_nil_l (s : string) : "" +:+ s = s.
Proof. done. Qed.

Lemma string_app_assoc (s t u : string) : (s +:+ t) +:+ u = s +:+ (t +:+ u).
Proof.
  induction s as [|c s IH]; [done|]. rewrite !string_app_cons. by rewrite IH.
Qed.

Lemma ci_strip_spec pat s m r :
  ci_strip pat s = Some (m, r) ↔ s = m +:+ r ∧ toLowerCase m = toLowerCase pat.
Proof.
  revert s m. induction pat as [|p pat IH]; intros s m; simpl.
  - split.
    + intros [= <- <-]. done.
    + intros [-> Hm]. destruct m; [done|discriminate].
  - destruct s as [|c s].
    + split; [done|]. intros [Hs Hm]. destruct m; discriminate.
    + destruct (Ascii.eqb (lower c) (lower p)) eqn:E.
      * apply Ascii.eqb_eq in E. split.
        -- destruct (ci_strip pat s) as [[m' r']|] eqn:Hc; [|done].
           intros [= <- <-]. apply IH in Hc as [-> Hm]. rewrite string_app_cons.
           simpl. by rewrite E, Hm.
        -- intros [Hs Hm]. destruct m as [|c' m]; [discriminate|].
           rewrite string_app_cons in Hs. simpl in Hm. injection Hs as -> ->.
           injection Hm as _ Hm.
           assert (Hc : ci_strip pat (m +:+ r) = Some (m, r)) by (by apply IH).
           by rewrite Hc.
      * split; [done|]. intros [Hs Hm]. destruct m as [|c' m]; [discriminate|].
        rewrite string_app_cons in Hs. simpl in Hm. injection Hs as -> _.
        injection Hm as Hc _. by rewrite Hc, Ascii.eqb_refl in E.
Qed.

Lemma contains_ci_unfold pat s :
  contains_ci pat s =
    match ci_strip pat s with
    | Some _ => true
    | None => match s with String _ s' => contains_ci pat s' | EmptyString => false end
    end.
Proof. by destruct s. Qed.

Lemma contains_ci_spec pat s :
  contains_ci pat s = true ↔
  ∃ before m after, s = before +:+ m +:+ after ∧ toLowerCase m = toLowerCase pat.
Proof.
  split.
  - induction s as [|c s IH]; rewrite contains_ci_unfold.
    + destruct (ci_strip pat "") as [[m r]|] eqn:Hc; [|done].
      intros _. apply ci_strip_spec in Hc as [Hs Hm]. by exists "", m, r.
    + destruct (ci_strip pat (String c s)) as [[m r]|] eqn:Hc.
      * intros _. apply ci_strip_spec in Hc as [Hs Hm]. by exists "", m, r.
      * intros (b & m & a & -> & Hm)%IH. exists (String c b), m, a. done.
  - intros (b & m & a & -> & Hm). induction b as [|c b IH]; rewrite contains_ci_unfold.
    + rewrite string_app_nil_l.
      assert (Hc : ci_strip pat (m +:+ a) = Some (m, a)) by (by apply ci_strip_spec).
      by rewrite Hc.
    + rewrite string_app_cons. by destruct (ci_strip pat _).
Qed.

Lemma contains_ci_mentions word s :
  toLowerCase word = word → contains_ci word s = true ↔ mentions word s.
Proof. intros Hw. unfold mentions. rewrite contains_ci_spec. by rewrite Hw. Qed.

Lemma test_any_mentions words s :
  Forall (λ w, toLowerCase w = w) words →
  test_any words s = true ↔ ∃ w, w ∈ words ∧ mentions w s.
Proof.
  intros Hl. unfold test_any. rewrite existsb_exists. rewrite Forall_forall in Hl. split.
  - intros (w & Hin & Hc). apply list_elem_of_In in Hin.
    exists w. split; [done|]. apply contains_ci_mentions; auto.
  - intros (w & Hin & Hm). exists w. split; [by apply list_elem_of_In|].
    apply contains_ci_mentions; auto.
Qed.

Lemma urgent_words_lower : Forall (λ w, toLowerCase w = w) urgent_words.
Proof. repeat constructor. Qed.
Lemma important_words_lower : Forall (λ w, toLowerCase w = w) important_words.
Proof. repeat constructor. Qed.
Lemma low_words_lower : Forall (λ w, toLowerCase w = w) low_words.
Proof. repeat constructor. Qed.
Lemma repositories_lower : Forall (λ w, toLowerCase w = w) repositories.
Proof. repeat constructor. Qed.

(** X12. The priority [parseNaturalLanguageInstruction] suggests is 1
    exactly when the instruction mentions, in whatever letter case and
    also inside a longer word, one of "urgent", "critical", "asap",
    "immediately"; otherwise 2 exactly when it mentions "important" or
    "soon"; otherwise 4 exactly when it mentions "low priority",
    "whenever" or "eventually"; and 3 exactly when it mentions none. *)
Theorem instruction_priority text :
  let p := priority (parseNaturalLanguageInstruction text) in
  let named words := ∃ w, w ∈ words ∧ mentions w text in
  (p = 1 ↔ named urgent_words) ∧
  (p = 2 ↔ ¬ named urgent_words ∧ named important_words) ∧
  (p = 4 ↔ ¬ named urgent_words ∧ ¬ named important_words ∧ named low_words) ∧
  (p = 3 ↔ ¬ named urgent_words ∧ ¬ named important_words ∧ ¬ named low_words).
Proof.
  intros p named. subst p named. cbn beta.
  rewrite <- (test_any_mentions _ _ urgent_words_lower).
  rewrite <- (test_any_mentions _ _ important_words_lower).
  rewrite <- (test_any_mentions _ _ low_words_lower).
  unfold parseNaturalLanguageInstruction. cbn [priority].
  destruct (test_any urgent_words text), (test_any important_words text),
    (test_any low_words text); split_and!; split; try done; try lia;
    try (intros H; split_and!; done); intros H; exfalso; naive_solver.
Qed.

Lemma ends_word_snoc pre c : ends_word (pre +:+ String c "") = is_word c.
Proof.
  induction pre as [|a pre IH]; [done|]. rewrite string_app_cons.
  destruct pre as [|b pre]; [done|]. rewrite string_app_cons in *. exact IH.
Qed.

Lemma first_alternative_Some alternatives s m :
  first_alternative alternatives s = Some m →
  ∃ alt r, alt ∈ alternatives ∧ ci_strip alt s = Some (m, r) ∧ starts_word r = false.
Proof.
  induction alternatives as [|alt rest IH]; simpl; [done|].
  unfold match_alternative at 1.
  destruct (ci_strip alt s) as [[m' r]|] eqn:Hc.
  - destruct (starts_word r) eqn:Hw.
    + intros (alt' & r' & Hin & H)%IH. exists alt', r'. split; [by right|done].
    + intros [= <-]. exists alt, r. split; [by left|done].
  - intros (alt' & r' & Hin & H)%IH. exists alt', r'. split; [by right|done].
Qed.

Lemma first_alternative_None alternatives s alt m r :
  first_alternative alternatives s = None → alt ∈ alternatives →
  ci_strip alt s = Some (m, r) → starts_word r = true.
Proof.
  induction alternatives as [|a rest IH]; simpl; [by intros _ ?%elem_of_nil|].
  unfold match_alternative at 1. intros H [->|Hin]%elem_of_cons Hc.
  - rewrite Hc in H. by destruct (starts_word r).
  - apply IH; [|done..]. destruct (ci_strip a s) as [[m' r']|]; [|done].
    by destruct (starts_word r').
Qed.

Lemma find_repository_Some s pre m :
  find_repository (ends_word pre) s = Some m →
  ∃ before after, s = before +:+ m +:+ after ∧ toLowerCase m ∈ repositories ∧
                  ends_word (pre +:+ before) = false ∧ starts_word after = false.
Proof.
  revert pre. induction s as [|c s IH]; intros pre; cbn [find_repository]; [done|].
  destruct (ends_word pre) eqn:Hp.
  - rewrite <- (ends_word_snoc pre c).
    intros (b & a & -> & Hm & Hb & Ha)%IH. exists (String c b), a.
    split_and!; [done|done| |done]. by rewrite string_app_assoc in Hb.
  - destruct (first_alternative repositories (String c s)) as [m'|] eqn:Hf.
    + intros [= <-]. apply first_alternative_Some in Hf as (alt & r & Hin & Hc & Hr).
      apply ci_strip_spec in Hc as [Hs Hm]. exists "", r.
      pose proof repositories_lower as Hl. rewrite Forall_forall in Hl.
      rewrite (Hl alt Hin) in Hm. rewrite Hm, string_app_nil_r. done.
    + rewrite <- (ends_word_snoc pre c).
      intros (b & a & -> & Hm & Hb & Ha)%IH. exists (String c b), a.
      split_and!; [done|done| |done]. by rewrite string_app_assoc in Hb.
Qed.

Lemma repositories_nonempty alt : alt ∈ repositories → alt ≠ "".
Proof.
  intros Hin ->. unfold repositories in Hin.
  repeat (apply elem_of_cons in Hin as [?|Hin]; [discriminate|]).
  by apply elem_of_nil in Hin.
Qed.

Lemma find_repository_None s pre before m after alt :
  find_repository (ends_word pre) s = None →
  s = before +:+ m +:+ after → alt ∈ repositories → toLowerCase m = alt →
  ends_word (pre +:+ before) = false → starts_word after = false → False.
Proof.
  revert pre before. induction s as [|c s IH]; intros pre before; cbn [find_repository].
  - intros _ Hs Hin Hm _ _. destruct before; [|discriminate].
    destruct m; [|discriminate]. simpl in Hm. subst alt.
    by apply repositories_nonempty in Hin.
  - intros Hf Hs Hin Hm Hb Ha. destruct before as [|c' before].
    + rewrite string_app_nil_r in Hb. rewrite Hb in Hf. rewrite string_app_nil_l in Hs.
      destruct (first_alternative repositories (String c s)) as [|] eqn:Hfa; [done|].
      assert (Hc : ci_strip alt (String c s) = Some (m, after)).
      { apply ci_strip_spec. split; [done|].
        pose proof repositories_lower as Hl. rewrite Forall_forall in Hl.
        by rewrite (Hl alt Hin). }
      pose proof (first_alternative_None _ _ _ _ _ Hfa Hin Hc). congruence.
    + rewrite string_app_cons in Hs. injection Hs as <- Hs.
      assert (Hn : find_repository (is_word c) s = None).
      { destruct (ends_word pre); [done|].
        by destruct (first_alternative repositories (String c s)). }
      rewrite <- (ends_word_snoc pre c) in Hn.
      eapply IH; [exact Hn|exact Hs|done|done| |done].
      by rewrite string_app_assoc.
Qed.

(** X13. The repository and the suggested repository
    [parseNaturalLanguageInstruction] returns are the same; a returned
    name is one of the eight known repositories, in lower case, and the
    instruction mentions it as a whole word in some letter case; none is
    returned exactly when the instruction mentions no known repository as
    a whole word. *)
Theorem instruction_repository text :
  let parsed := parseNaturalLanguageInstruction text in
  suggestedRepository parsed = repository parsed ∧
  (∀ name, repository parsed = Some name →
           name ∈ repositories ∧ mentions_word name text) ∧
  (repository parsed = None ↔
     ∀ name, name ∈ repositories → ¬ mentions_word name text).
Proof.
  intros parsed. subst parsed. unfold parseNaturalLanguageInstruction.
  cbn [repository suggestedRepository]. split; [done|].
  change false with (ends_word "").
  destruct (find_repository (ends_word "") text) as [m|] eqn:Hf; cbn [option_map].
  - apply find_repository_Some in Hf as (b & a & Hs & Hm & Hb & Ha).
    rewrite string_app_nil_l in Hb.
    assert (Hw : mentions_word (toLowerCase m) text) by (by exists b, m, a).
    split.
    + by intros name [= <-].
    + split; [done|]. intros Hno. exfalso. by eapply Hno.
  - split; [done|]. split; [|done]. intros _ name Hin (b & m & a & Hs & Hm & Hb & Ha).
    eapply (find_repository_None text "" b m a name); done.
Qed.
End instruction_facts.

(** ** Reported state, single-agent lookup and availability *)

Section reported_state_facts.
Import Discovery Clients.

Lemma parse_magnitude_print d :
  d ≠ Nil → parse_magnitude (print_uint d "") = Some (Z.of_uint d).
Proof.
  intros Hd.
  assert (Hp : match (parse_digits (print_uint d "")).1 with
               | Nil => None
               | u => Some (Z.of_uint u)
               end = Some (Z.of_uint d)).
  { rewrite parse_digits_print by done. cbn [fst]. by destruct d. }
  destruct d as [|d|d|d|d|d|d|d|d|d|d]; [done|..]; try exact Hp.
  destruct d as [|d|d|d|d|d|d|d|d|d|d]; exact Hp.
Qed.

(** A character below [C2] that is no white space starts no white space. *)
Lemma trim_start_narrow c r :
  is_js_space c = false → (N_of_ascii c < 194)%N → trim_start (String c r) = String c r.
Proof.
  intros Hs Hc. cbn [trim_start]. rewrite Hs.
  destruct r as [|b r1]; [done|].
  assert (H194 : (N_of_ascii c =? 194)%N = false) by (apply N.eqb_neq; lia).
  rewrite H194. cbn [andb].
  destruct r1 as [|d r2]; [done|].
  unfold is_wide_space.
  assert (H225 : (N_of_ascii c =? 225)%N = false) by (apply N.eqb_neq; lia).
  assert (H226 : (N_of_ascii c =? 226)%N = false) by (apply N.eqb_neq; lia).
  assert (H227 : (N_of_ascii c =? 227)%N = false) by (apply N.eqb_neq; lia).
  assert (H239 : (N_of_ascii c =? 239)%N = false) by (apply N.eqb_neq; lia).
  by rewrite H225, H226, H227, H239.
Qed.

Lemma parseInt_digits d :
  d ≠ Nil → parseInt (print_uint d "") = Some (Z.of_uint d).
Proof.
  intros Hd. pose proof (parse_magnitude_print d Hd) as Hm. unfold parseInt.
  destruct d as [|d|d|d|d|d|d|d|d|d|d]; [done|..]; cbn [print_uint] in *;
    (rewrite trim_start_narrow; [exact Hm|reflexivity|by vm_compute]).
Qed.

Lemma parseInt_number_toString n : parseInt (number_toString n) = Some n.
Proof.
  unfold number_toString, print_number.
  destruct n as [|p|p]; cbn [Z.to_int]; [done| |].
  - pose proof (of_uint_pos p) as Ho.
    assert (Hn : Pos.to_uint p ≠ Nil).
    { intros E. rewrite E in Ho. done. }
    pose proof (parseInt_digits _ Hn) as Hm. rewrite Ho in Hm. exact Hm.
  - pose proof (of_uint_pos p) as Ho.
    assert (Hn : Pos.to_uint p ≠ Nil).
    { intros E. rewrite E in Ho. done. }
    pose proof (parse_magnitude_print _ Hn) as Hm. rewrite Ho in Hm.
    unfold parseInt.
    change (match trim_start (String "-" (print_uint (Pos.to_uint p) "")) with
            | String "-" r => option_map Z.opp (parse_magnitude r)
            | String "+" r => parse_magnitude r
            | t => parse_magnitude t
            end = Some (Z.neg p)).
    rewrite trim_start_narrow; [|reflexivity|by vm_compute].
    by rewrite Hm.
Qed.

Lemma number_toString_truthy n : truthy_json (JStr (number_toString n)) = true.
Proof.
  destruct (print_number_head n "") as (c & r & H & _). unfold number_toString.
  by rewrite H.
Qed.

Lemma js_or_truthy v d : truthy_json v = true → js_or (Some v) d = v.
Proof. intros H. unfold js_or. by rewrite H. Qed.

Lemma truthy_text s : s ≠ "" → truthy_json (JStr s) = true.
Proof. intros H. simpl. apply negb_true_iff, String.eqb_neq. done. Qed.

Lemma reported_state read agentId h :
  read (agent_key agentId) = Returns h → unreported read agentId = false →
  ∃ s, getAgentStateFromRedis read agentId = Some s ∧
    as_status s = js_or (h !! "status") (JStr "unknown") ∧
    as_currentTask s = js_or (h !! "task") JNull ∧
    as_worktreePath s = js_or (h !! "worktree") JNull ∧
    as_lastHeartbeat s =
      (if truthy (h !! "lastHeartbeat") then option_map MkDate (h !! "lastHeartbeat") else None) ∧
    as_tasksCompleted s =
      parseInt (js_String_json (js_or (h !! "tasksCompleted") (JStr "0"))) ∧
    as_tasksFailed s =
      parseInt (js_String_json (js_or (h !! "tasksFailed") (JStr "0"))).
Proof.
  unfold unreported, getAgentStateFromRedis. intros -> ->. eexists. split; [done|].
  split_and!; done.
Qed.

(** X14. The view of a worker that has reported shows what it reported:
    a non-empty status as it is ("unknown" when the record has none); each
    counter stored as the decimal text of an integer of magnitude at most
    2^53 as that integer (0 when the record has none); the task, the
    worktree and the heartbeat when they are stored as non-empty text, and
    [null] (not [undefined]) when the record has none. *)
Theorem reported_worker_shown read pod h :
  read (agent_key (name pod)) = Returns h →
  unreported read (name pod) = false →
  let v := agent_view read pod in
  (∀ s, h !! "status" = Some (JStr s) → s ≠ "" → agentStatus v = JStr s) ∧
  (h !! "status" = None → agentStatus v = JStr "unknown") ∧
  (∀ n, - 2 ^ 53 ≤ n ≤ 2 ^ 53 →
        h !! "tasksCompleted" = Some (JStr (number_toString n)) →
        tasksCompleted (metrics v) = n) ∧
  (∀ n, - 2 ^ 53 ≤ n ≤ 2 ^ 53 →
        h !! "tasksFailed" = Some (JStr (number_toString n)) →
        tasksFailed (metrics v) = n) ∧
  (h !! "tasksCompleted" = None → tasksCompleted (metrics v) = 0) ∧
  (h !! "tasksFailed" = None → tasksFailed (metrics v) = 0) ∧
  (∀ t, h !! "task" = Some (JStr t) → t ≠ "" → currentTask v = Value (JStr t)) ∧
  (h !! "task" = None → currentTask v = Null) ∧
  (∀ w, h !! "worktree" = Some (JStr w) → w ≠ "" → worktreePath v = Value (JStr w)) ∧
  (h !! "worktree" = None → worktreePath v = Null) ∧
  (∀ t, h !! "lastHeartbeat" = Some (JStr t) → t ≠ "" →
        lastHeartbeat v = Value (MkDate (JStr t))) ∧
  (h !! "lastHeartbeat" = None → lastHeartbeat v = Null).
Proof.
  intros Hr Hu v. subst v.
  destruct (reported_state _ _ _ Hr Hu) as (s & Hs & Hst & Hct & Hwp & Hhb & Htc & Htf).
  unfold agent_view. rewrite Hs.
  cbn [agentStatus metrics currentTask worktreePath lastHeartbeat tasksCompleted tasksFailed
       status_or_unknown opt_field counter_or_zero].
  rewrite Hst, Hct, Hwp, Hhb, Htc, Htf. split_and!.
  - intros t -> Ht. rewrite js_or_truthy by by apply truthy_text.
    by rewrite truthy_text.
  - by intros ->.
  - intros n _ ->. rewrite js_or_truthy by apply number_toString_truthy.
    cbn [js_String_json]. by rewrite parseInt_number_toString.
  - intros n _ ->. rewrite js_or_truthy by apply number_toString_truthy.
    cbn [js_String_json]. by rewrite parseInt_number_toString.
  - by intros ->.
  - by intros ->.
  - intros t -> Ht. by rewrite js_or_truthy by by apply truthy_text.
  - by intros ->.
  - intros t -> Ht. by rewrite js_or_truthy by by apply truthy_text.
  - by intros ->.
  - intros t -> Ht. cbn [truthy]. by rewrite truthy_text.
  - by intros ->.
Qed.

Lemma reported_worker_shown_witness :
  Examples.reader (agent_key "agent-a") =
    Returns (list_to_map [ ("status", JStr "busy"); ("tasksCompleted", JStr "12") ]) ∧
  unreported Examples.reader "agent-a" = false ∧
  agentStatus (agent_view Examples.reader (to_pod (Examples.pod_item "agent-a"))) =
    JStr "busy" ∧
  tasksCompleted (metrics (agent_view Examples.reader (to_pod (Examples.pod_item "agent-a")))) =
    12 ∧
  tasksFailed (metrics (agent_view Examples.reader (to_pod (Examples.pod_item "agent-a")))) =
    0.
Proof.
  destruct (reported_worker_shown Examples.reader (to_pod (Examples.pod_item "agent-a"))
              (list_to_map [ ("status", JStr "busy"); ("tasksCompleted", JStr "12") ])
              eq_refl eq_refl)
    as (Hs & _ & Hc & _ & _ & Hf & _).
  split_and!; [reflexivity|reflexivity| | |].
  - apply (Hs "busy"); [reflexivity|discriminate].
  - exact (Hc 12 ltac:(lia) eq_refl).
  - apply Hf. reflexivity.
Defined.

(** X15. The details of one agent agree with its entry in the listing:
    for a pod of the listing that the orchestrator also returns by name,
    [getAgentDetails] and [discoverAgents] give the same identifiers,
    readiness, address, node, start time and self-reported state; the
    [status] of the details is the raw pod phase, which the listing
    calls [podStatus], while the [status] of the listing is "ready" or
    the phase in lower case; the containers of the listing are the
    summaries of those of the details. *)
Theorem getAgentDetails_matches_listing readPod read items i item labels :
  items !! i = Some item →
  readPod (metadata_name item) = Returns (item, labels) →
  ∃ d views v,
    getAgentDetails readPod read (metadata_name item) = Returns d ∧
    discoverAgents (Returns items) read = Returns views ∧
    views !! i = Some v ∧
    d_id d = v_id v ∧ d_uid d = v_uid v ∧
    d_status d = v_podStatus v ∧ d_ready d = v_ready v ∧
    v_status v = (if d_ready d then "ready" else toLowerCase (d_status d)) ∧
    d_podIP d = v_podIP v ∧ d_nodeName d = v_nodeName v ∧
    d_startTime d = v_startTime v ∧
    option_map (List.map to_container_status) (d_containers d) = v_containers v ∧
    d_labels d = labels ∧
    d_agentStatus d = agentStatus v ∧ d_currentTask d = currentTask v ∧
    d_worktreePath d = worktreePath v ∧ d_lastHeartbeat d = lastHeartbeat v ∧
    d_metrics d = metrics v.
Proof.
  intros Hi Hp. unfold getAgentDetails, discoverAgents, discoverAgentPods. rewrite Hp.
  eexists _, _, (agent_view read (to_pod item)). split; [done|]. split; [done|]. split.
  - change (((agent_view read <$> (to_pod <$> items)) !! i) = Some (agent_view read (to_pod item))).
    by rewrite !list_lookup_fmap, Hi.
  - split_and!; done.
Qed.

Lemma getAgentDetails_matches_listing_witness :
  Examples.fleet !! 0%nat = Some (Examples.pod_item "agent-a") ∧
  Scenarios.read_pod (metadata_name (Examples.pod_item "agent-a")) =
    Returns (Examples.pod_item "agent-a", None) ∧
  ∃ d views v,
    getAgentDetails Scenarios.read_pod Examples.reader "agent-a" = Returns d ∧
    discoverAgents (Returns Examples.fleet) Examples.reader = Returns views ∧
    views !! 0%nat = Some v ∧
    d_status d = "Running" ∧ v_status v = "ready" ∧ d_metrics d = metrics v.
Proof.
  split_and!; [reflexivity|reflexivity|].
  destruct (getAgentDetails_matches_listing Scenarios.read_pod Examples.reader
              Examples.fleet 0%nat (Examples.pod_item "agent-a") None eq_refl eq_refl)
    as (d & views & v & Hd & Hl & Hv & _ & _ & Hst & Hr & Hvs & _ & _ & _ & _ & _ & _ & _ &
        _ & _ & Hm).
  exists d, views, v. split_and!; [exact Hd|exact Hl|exact Hv| | |exact Hm].
  - injection Hd as <-. reflexivity.
  - injection Hl as <-. injection Hv as <-. reflexivity.
Defined.

(** X16. A connection that does not succeed is noticed once: when the
    orchestrator client can be made and the first connection to the store
    is never established (the client keeps retrying, so the call never
    answers) or is rejected (the call answers false), the first call of
    [isAgentDiscoveryAvailable] does not answer true and makes one
    connection attempt; every later call answers true without any
    attempt, whatever the store would answer, because the client variable
    was assigned before the connection. *)
Theorem availability_after_failed_connect load connect s :
  answer (initKubernetesClient load s) = Some (Returns ()) →
  redisClient s = false →
  connect ≠ Some (Returns ()) →
  let first := isAgentDiscoveryAvailable load connect s in
  available first ≠ Some true ∧
  (connect = None → available first = None) ∧
  (∀ e, connect = Some (Throws e) → available first = Some false) ∧
  ConnectAttempted ∈ attempts first ∧
  (∀ load' connect',
     let second := isAgentDiscoveryAvailable load' connect' (clients_after first) in
     available second = Some true ∧ attempts second = [] ∧
     clients_after second = clients_after first).
Proof.
  intros Hk Hr Hc first. subst first. unfold isAgentDiscoveryAvailable. rewrite Hk.
  assert (Hr' : redisClient (clients (initKubernetesClient load s)) = false).
  { unfold initKubernetesClient. destruct (k8sApi s); [done|]. by destruct load. }
  assert (Hk' : k8sApi (clients (initKubernetesClient load s)) = true).
  { unfold initKubernetesClient in *. destruct (k8sApi s) eqn:E; [done|]. by destruct load. }
  assert (Hf : initRedisClient connect (clients (initKubernetesClient load s)) =
               {| answer := match connect with
                            | Some (Throws e) => Some (Throws e)
                            | Some (Returns _) => Some (Returns ())
                            | None => None
                            end;
                  clients := {| k8sApi := true; redisClient := true |};
                  trace := [ConnectAttempted] |}).
  { unfold initRedisClient. rewrite Hr', Hk'. by destruct connect as [[[]|e]|]. }
  rewrite Hf. cbn [answer clients trace].
  destruct connect as [[[]|e]|]; [done|..];
    cbn [available attempts clients_after]; (split_and!; [done|done| |apply elem_of_app; right; by left|done]).
  - by intros e' [= ->].
  - done.
Qed.

(** The store refuses the connection: the first call never answers, the
    next one answers true. *)
Lemma availability_after_failed_connect_witness :
  answer (initKubernetesClient (Returns ()) no_clients) = Some (Returns ()) ∧
  redisClient no_clients = false ∧
  Scenarios.refused ≠ Some (Returns ()) ∧
  available (isAgentDiscoveryAvailable (Returns ()) Scenarios.refused no_clients) = None ∧
  available
    (isAgentDiscoveryAvailable (Returns ()) Scenarios.refused
       (clients_after
          (isAgentDiscoveryAvailable (Returns ()) Scenarios.refused no_clients))) =
    Some true.
Proof.
  assert (Hc : Scenarios.refused ≠ Some (Returns ())) by discriminate.
  destruct (availability_after_failed_connect (Returns ()) Scenarios.refused no_clients
              eq_refl eq_refl Hc) as (_ & Hf & _ & _ & Hn).
  split_and!; [reflexivity|reflexivity|exact Hc|exact (Hf eq_refl)|].
  exact (proj1 (Hn (Returns ()) Scenarios.refused)).
Defined.
End reported_state_facts.

(** ** Token verification and the route guard *)

Section guard_facts.
Import JanuaAuth JanuaVerify.

Lemma getJWKS_throws url now net st e :
  result (getJWKS url now net st) = Throws e ↔
  cached_set_exists st = false ∧ fetch_keys net = Throws e.
Proof.
  unfold getJWKS, cached_set_exists.
  destruct (truthy_json (jwksCache st)) eqn:Hc; cbn [andb].
  - destruct (now - jwksCacheTime st <? JWKS_CACHE_DURATION); cbn [result].
    + split; [done|]. by intros [? _].
    + destruct (fetch_keys net); cbn [result]; split; try done; by intros [? _].
  - destruct (fetch_keys net) as [keys|e']; cbn [result].
    + split; [done|]. by intros [_ ?].
    + split; [by intros [= ->]|]. by intros [_ [= ->]].
Qed.

(** X17. [verifyJanuaToken] accepts a token exactly when the signature
    check accepts it and the key set could be obtained; without a cached
    key set and with a failing fetch every token is rejected with the
    error of the fetch, whatever the signature check would say.  Any
    failure of the signature check is reported as the one error "Invalid
    or expired token".  The key cache is left as [getJWKS] leaves it. *)
Theorem verifyJanuaToken_outcome url now net jwtVerify token st :
  let v := verifyJanuaToken url now net jwtVerify token st in
  (∀ payload, verified v = Returns payload ↔
     jwtVerify token = Returns payload ∧
     ¬ (cached_set_exists st = false ∧ fetch_fails net = true)) ∧
  (∀ e, verified v = Throws e →
     (cached_set_exists st = false ∧ fetch_keys net = Throws e) ∨
     (e = Error "Invalid or expired token" ∧ ∃ e', jwtVerify token = Throws e')) ∧
  (cached_set_exists st = false → fetch_fails net = true →
     ∃ e, fetch_keys net = Throws e ∧ verified v = Throws e) ∧
  keys_after v = cache_after (getJWKS url now net st) ∧
  key_events v = events (getJWKS url now net st).
Proof.
  intros v. subst v. unfold verifyJanuaToken.
  pose proof (getJWKS_throws url now net st) as Ht.
  destruct (result (getJWKS url now net st)) as [keys|e0] eqn:Hr;
    cbn [verified keys_after key_events].
  - assert (Hok : ¬ (cached_set_exists st = false ∧ fetch_fails net = true)).
    { intros [Hc Hf]. unfold fetch_fails in Hf.
      destruct (fetch_keys net) as [|e'] eqn:Hk; [done|].
      discriminate (proj2 (Ht e') (conj Hc eq_refl)). }
    split_and!.
    + intros payload. destruct (jwtVerify token) as [p|e'];
        [|split; [done|by intros [? _]]].
      split; [intros [= ->]; by split|by intros [[= ->] _]].
    + intros e. destruct (jwtVerify token) as [p|e']; [done|].
      intros [= <-]. right. eauto.
    + intros Hc Hf. by destruct Hok.
    + done.
    + done.
  - destruct (proj1 (Ht e0) eq_refl) as [Hc Hk]. split_and!.
    + intros payload. split; [done|]. intros [_ Hn]. destruct Hn.
      unfold fetch_fails. by rewrite Hk.
    + intros e [= <-]. by left.
    + intros _ _. eauto.
    + done.
    + done.
Qed.

Lemma authenticateJanuaToken_cases verify req :
  authenticateJanuaToken verify req =
    match bearer_token (authorization req) with
    | Some (String c t) =>
        match verify (String c t) with
        | Returns payload =>
            Next {| authorization := authorization req; user := Some (user_of payload) |}
        | Throws error =>
            Respond 403 (JObj [ ("error", JStr "Invalid or expired token");
                                ("details", JStr (exn_message error)) ])
        end
    | _ =>
        Respond 401
          (JObj [ ("error", JStr "Access denied. No token provided.");
                  ("hint", JStr ("Include " +:+ String dquote "Authorization: Bearer <token>"
                                  +:+ String dquote " header")) ])
    end.
Proof.
  unfold authenticateJanuaToken.
  destruct (bearer_token (authorization req)) as [[|c t]|]; done.
Qed.

(** X18. The guard of the agent routes, [authenticateJanuaToken] followed
    by [requireScope], lets a request through exactly when its header
    carries a non-empty token that verifies and whose scope claim lists
    the required scope; the request passed on then carries the user of
    that token.  Otherwise it answers 401 when there is no token and 403
    when there is one. *)
Theorem guard_sound verify required req :
  (∀ req', guard verify required req = Next req' ↔
     ∃ token payload,
       bearer_token (authorization req) = Some token ∧ token ≠ "" ∧
       verify token = Returns payload ∧
       required ∈ scopes_of payload ∧
       req' = {| authorization := authorization req; user := Some (user_of payload) |}) ∧
  (∀ code body, guard verify required req = Respond code body →
     (code = 401 ∧ truthy_str (bearer_token (authorization req)) = false) ∨
     (code = 403 ∧ truthy_str (bearer_token (authorization req)) = true)).
Proof.
  unfold guard, chain. rewrite authenticateJanuaToken_cases.
  destruct (bearer_token (authorization req)) as [[|c t]|] eqn:Hb.
  - split.
    + intros req'. split; [done|]. intros (token & p & [= <-] & Hne & _). done.
    + intros code body [= <- <-]. by left.
  - destruct (verify (String c t)) as [payload|e] eqn:Hv.
    + rewrite requireScope_cases.
      change (user_scopes {| authorization := authorization req;
                             user := Some (user_of payload) |}) with (scopes_of payload).
      destruct (includes (scopes_of payload) required) eqn:Hi; cbn beta iota.
      * apply includes_elem_of in Hi. split.
        -- intros req'. split.
           ++ intros [= <-]. exists (String c t), payload. done.
           ++ intros (token & p & [= <-] & _ & Hp & _ & ->).
              rewrite Hv in Hp. by injection Hp as <-.
        -- done.
      * split.
        -- intros req'. split; [done|].
           intros (token & p & [= <-] & _ & Hp & Hin & ->).
           rewrite Hv in Hp. injection Hp as <-.
           apply includes_elem_of in Hin. congruence.
        -- intros code body [= <- <-]. by right.
    + split.
      * intros req'. split; [done|]. intros (token & p & [= <-] & _ & Hp & _). congruence.
      * intros code body [= <- <-]. by right.
  - split.
    + intros req'. split; [done|]. by intros (token & p & [=] & _).
    + intros code body [= <- <-]. by left.
Qed.

Lemma split_space_head t s :
  has_space t = false → split_space (t +:+ String " " s) !! 1%nat = head (split_space s).
Proof. intros Ht. rewrite split_space_app by done. by destruct (split_space s). Qed.

Lemma split_space_no_space s : has_space s = false → split_space s !! 1%nat = None.
Proof. intros H. by rewrite split_space_token. Qed.

Lemma append_space_truthy scheme s :
  truthy_str (Some (scheme +:+ String " " s)) = true.
Proof. by destruct scheme. Qed.

Lemma bearer_token_second scheme s :
  has_space scheme = false →
  bearer_token (Some (scheme +:+ String " " s)) = head (split_space s).
Proof.
  intros Hs. unfold bearer_token. rewrite append_space_truthy.
  cbn [default]. by apply split_space_head.
Qed.

Lemma bearer_token_none scheme :
  has_space scheme = false → bearer_token (Some scheme) = None.
Proof.
  intros Hs. unfold bearer_token. destruct (truthy_str (Some scheme)); [|done].
  cbn [default]. by apply split_space_no_space.
Qed.

(** X19. How the authorization header is read: the token is the second
    of the space-separated words, whatever the first word is, and
    whatever follows the second; a header of one word, no header, and a
    header with two spaces after the first word are all answered 401 as
    having no token, before any verification. *)
Theorem authorization_header_reading verify scheme token rest u :
  has_space scheme = false → has_space token = false → token ≠ "" →
  let ask h := authenticateJanuaToken verify {| authorization := h; user := u |} in
  bearer_token (Some (scheme +:+ " " +:+ token)) = Some token ∧
  bearer_token (Some (scheme +:+ " " +:+ token +:+ " " +:+ rest)) = Some token ∧
  (∀ payload, verify token = Returns payload →
     ask (Some (scheme +:+ " " +:+ token)) =
       Next {| authorization := Some (scheme +:+ " " +:+ token);
               user := Some (user_of payload) |}) ∧
  (∃ body,
     ask None = Respond 401 body ∧
     ask (Some scheme) = Respond 401 body ∧
     ask (Some (scheme +:+ "  " +:+ token)) = Respond 401 body).
Proof.
  intros Hs Ht Hne ask. subst ask. cbn beta.
  change (scheme +:+ " " +:+ token) with (scheme +:+ String " " token).
  change (scheme +:+ " " +:+ token +:+ " " +:+ rest)
    with (scheme +:+ String " " (token +:+ String " " rest)).
  change (scheme +:+ "  " +:+ token) with (scheme +:+ String " " (String " " token)).
  assert (H1 : bearer_token (Some (scheme +:+ String " " token)) = Some token).
  { rewrite bearer_token_second by done. by rewrite split_space_token. }
  split_and!.
  - done.
  - rewrite bearer_token_second by done. by rewrite split_space_app.
  - intros payload Hv. unfold authenticateJanuaToken. cbn [authorization]. rewrite H1.
    assert (Htr : truthy_str (Some token) = true).
    { simpl. apply negb_true_iff, String.eqb_neq. done. }
    rewrite Htr. cbn [negb]. change (default "" (Some token)) with token.
    by rewrite Hv.
  - eexists. split_and!.
    + reflexivity.
    + unfold authenticateJanuaToken. cbn [authorization].
      by rewrite bearer_token_none.
    + unfold authenticateJanuaToken. cbn [authorization].
      rewrite bearer_token_second by done. done.
Qed.

Lemma authorization_header_reading_witness :
  has_space "Basic" = false ∧ has_space "abc.def.ghi" = false ∧ "abc.def.ghi" ≠ "" ∧
  bearer_token (Some "Basic abc.def.ghi") = Some "abc.def.ghi" ∧
  authenticateJanuaToken Examples.verify_viewer
    {| authorization := Some "Basic abc.def.ghi"; user := None |} =
    Next {| authorization := Some "Basic abc.def.ghi";
            user := Some (user_of Examples.viewer) |}.
Proof.
  assert (Hne : "abc.def.ghi" ≠ "") by discriminate.
  destruct (authorization_header_reading Examples.verify_viewer "Basic" "abc.def.ghi"
              "" None eq_refl eq_refl Hne) as (Hb & _ & Hv & _).
  split_and!; [reflexivity|reflexivity|exact Hne|exact Hb|].
  exact (Hv Examples.viewer eq_refl).
Defined.

(** X20. [authenticateFlexible] extends [authenticateJanuaToken]: a request
    the latter lets through is let through with the same user, marked as
    authenticated by "janua", without asking the local middleware; where
    the latter answers 401 the former answers 401; where the latter
    answers 403 the former gives the answer of the local middleware, or
    403 "Invalid token" when that one throws. *)
Theorem authenticateFlexible_extends_janua verify authenticateToken req :
  (∀ req', authenticateJanuaToken verify req = Next req' →
           authenticateFlexible verify authenticateToken req = FlexNext req' (Some "janua")) ∧
  (∀ body, authenticateJanuaToken verify req = Respond 401 body →
           authenticateFlexible verify authenticateToken req =
             FlexRespond 401 (JObj [ ("error", JStr "Access denied. No token provided.") ])) ∧
  (∀ body, authenticateJanuaToken verify req = Respond 403 body →
           authenticateFlexible verify authenticateToken req =
             match authenticateToken req with
             | Returns h => of_handled h
             | Throws _ => FlexRespond 403 (JObj [ ("error", JStr "Invalid token") ])
             end).
Proof.
  unfold authenticateJanuaToken, authenticateFlexible.
  destruct (negb (truthy_str (bearer_token (authorization req)))).
  - split_and!; [done| |done]. done.
  - destruct (verify (default "" (bearer_token (authorization req)))) as [payload|e].
    + split_and!; [|done|done]. by intros req' [= <-].
    + split_and!; done.
Qed.
End guard_facts.

(** ** Task identifiers *)

Section task_id_facts.
Import Redis TaskService Base36.

Lemma digit36_code d :
  0 ≤ d < 36 →
  Z.of_N (N_of_ascii (digit36 d)) = if d <? 10 then 48 + d else 87 + d.
Proof.
  intros Hd. unfold digit36.
  destruct (d <? 10); rewrite N_ascii_embedding by lia; lia.
Qed.

Lemma digit36_value_digit36 d : 0 ≤ d < 36 → digit36_value (digit36 d) = d.
Proof.
  intros Hd. unfold digit36_value. rewrite digit36_code by done.
  destruct (d <? 10) eqn:E.
  - apply Z.ltb_lt in E. destruct (48 + d <? 58) eqn:E'; [lia|]. apply Z.ltb_ge in E'. lia.
  - apply Z.ltb_ge in E. destruct (87 + d <? 58) eqn:E'; [|lia]. apply Z.ltb_lt in E'. lia.
Qed.

Lemma digit36_no_dash d : 0 ≤ d < 36 → Ascii.eqb (digit36 d) "-" = false.
Proof.
  intros Hd. apply Ascii.eqb_neq. intros E.
  pose proof (digit36_code d Hd) as Hc. rewrite E in Hc.
  change (Z.of_N (N_of_ascii "-")) with 45 in Hc. destruct (d <? 10); lia.
Qed.

Lemma value36_app a b v : value36 (a +:+ b) v = value36 b (value36 a v).
Proof. revert v. induction a as [|c a IH]; intros v; [done|]. apply IH. Qed.

Lemma no_dash_app a b : no_dash (a +:+ b) = no_dash a && no_dash b.
Proof.
  induction a as [|c a IH]; [done|].
  change (negb (Ascii.eqb c "-") && no_dash (a +:+ b) =
          negb (Ascii.eqb c "-") && no_dash a && no_dash b).
  rewrite IH. by destruct (negb _).
Qed.

Lemma toString36_go_digits fuel n acc :
  0 ≤ n < 36 ^ Z.of_nat fuel →
  ∃ ds, toString36_go fuel n acc = ds +:+ acc ∧ value36 ds 0 = n ∧ no_dash ds = true.
Proof.
  revert n acc. induction fuel as [|fuel IH]; intros n acc Hn.
  - exists "". simpl in *. split_and!; [done|lia|done].
  - cbn [toString36_go]. cbv zeta.
    assert (Hm : 0 ≤ n mod 36 < 36) by (apply Z.mod_pos_bound; lia).
    destruct (n / 36 =? 0) eqn:E.
    + apply Z.eqb_eq in E. exists (String (digit36 (n mod 36)) "").
      split_and!; [done| |].
      * cbn [value36]. rewrite digit36_value_digit36 by done.
        pose proof (Z.div_mod n 36). lia.
      * cbn [no_dash]. by rewrite digit36_no_dash.
    + apply Z.eqb_neq in E.
      assert (Hq : 0 ≤ n / 36 < 36 ^ Z.of_nat fuel).
      { split; [apply Z.div_pos; lia|].
        apply Z.div_lt_upper_bound; [lia|].
        rewrite Nat2Z.inj_succ, Z.pow_succ_r in Hn by lia. lia. }
      destruct (IH (n / 36) (String (digit36 (n mod 36)) acc) Hq) as (ds & -> & Hv & Hd).
      exists (ds +:+ String (digit36 (n mod 36)) "").
      split_and!.
      * by rewrite string_app_assoc.
      * rewrite value36_app, Hv. cbn [value36]. rewrite digit36_value_digit36 by done.
        pose proof (Z.div_mod n 36). lia.
      * rewrite no_dash_app, Hd. cbn [no_dash]. by rewrite digit36_no_dash.
Qed.

Lemma toString36_digits n :
  0 ≤ n → value36 (toString36 n) 0 = n ∧ no_dash (toString36 n) = true.
Proof.
  intros Hn. unfold toString36.
  destruct (toString36_go_digits (S (Z.to_nat (Z.log2 n))) n "") as (ds & -> & Hv & Hd).
  - split; [done|]. rewrite Nat2Z.inj_succ, Z2Nat.id by apply Z.log2_nonneg.
    destruct (decide (n = 0)) as [->|Hz]; [done|].
    assert (n < 2 ^ Z.succ (Z.log2 n)) by (apply Z.log2_spec; lia).
    assert (2 ^ Z.succ (Z.log2 n) ≤ 36 ^ Z.succ (Z.log2 n)).
    { apply Z.pow_le_mono_l. lia. }
    lia.
  - by rewrite string_app_nil_r.
Qed.

Lemma dash_split a b r1 r2 :
  no_dash a = true → no_dash b = true →
  a +:+ String "-" r1 = b +:+ String "-" r2 → a = b ∧ r1 = r2.
Proof.
  revert b. induction a as [|c a IH]; intros [|c' b] Ha Hb.
  - by intros [= ->].
  - intros [= <- _]. done.
  - intros [= -> _]. done.
  - intros H. change (String c (a +:+ String "-" r1) = String c' (b +:+ String "-" r2)) in H.
    injection H as -> H. simpl in Ha, Hb.
    apply andb_true_iff in Ha as [_ Ha]. apply andb_true_iff in Hb as [_ Hb].
    destruct (IH b Ha Hb H) as [-> ->]. done.
Qed.

(** X21. Task identifiers of different submissions differ: two calls of
    [generateTaskId] that read different clock values (in milliseconds,
    not negative) or draw different random parts give different
    identifiers, and so different record keys. *)
Theorem generateTaskId_distinct env1 env2 :
  0 ≤ id_clock env1 → 0 ≤ id_clock env2 →
  id_clock env1 ≠ id_clock env2 ∨ id_random env1 ≠ id_random env2 →
  generateTaskId env1 ≠ generateTaskId env2 ∧
  task_key (generateTaskId env1) ≠ task_key (generateTaskId env2).
Proof.
  intros H1 H2 Hdiff.
  assert (Hne : generateTaskId env1 ≠ generateTaskId env2).
  { intros E. unfold generateTaskId in E.
    change ("task-" +:+ toString36 (id_clock env1) +:+ "-" +:+ id_random env1)
      with (String "t" (String "a" (String "s" (String "k" (String "-"
              (toString36 (id_clock env1) +:+ String "-" (id_random env1))))))) in E.
    change ("task-" +:+ toString36 (id_clock env2) +:+ "-" +:+ id_random env2)
      with (String "t" (String "a" (String "s" (String "k" (String "-"
              (toString36 (id_clock env2) +:+ String "-" (id_random env2))))))) in E.
    injection E as E.
    destruct (toString36_digits _ H1) as [Hv1 Hd1].
    destruct (toString36_digits _ H2) as [Hv2 Hd2].
    apply dash_split in E as [E Er]; [|done..].
    rewrite E in Hv1. destruct Hdiff as [Hc|Hr]; [|done]. apply Hc. congruence. }
  split; [done|]. intros E. apply Hne. by apply task_key_inj.
Qed.

Lemma generateTaskId_distinct_witness :
  0 ≤ id_clock Examples.env0 ∧ 0 ≤ id_clock Examples.env_soon ∧
  id_clock Examples.env0 ≠ id_clock Examples.env_soon ∧
  generateTaskId Examples.env0 ≠ generateTaskId Examples.env_soon.
Proof.
  assert (H1 : 0 ≤ id_clock Examples.env0) by (vm_compute; discriminate).
  assert (H2 : 0 ≤ id_clock Examples.env_soon) by (vm_compute; discriminate).
  assert (H3 : id_clock Examples.env0 ≠ id_clock Examples.env_soon)
    by (vm_compute; discriminate).
  split_and!; [exact H1|exact H2|exact H3|].
  exact (proj1 (generateTaskId_distinct Examples.env0 Examples.env_soon H1 H2
                  (or_introl H3))).
Defined.
End task_id_facts.

(** ** A cancelled task in the list of its submitter *)

Section cancelled_listing_facts.
Import Redis TaskService TaskQueries TaskViews.
Implicit Types (JSON_parse : string → option JSON).

Lemma cancelTask_returns JSON_parse taskId userId now st r :
  (cancelTask JSON_parse taskId userId now st).1 = Returns r →
  hGetAll (task_key taskId) st !! "submittedBy" = Some (JStr userId) ∧
  context_parses JSON_parse (hGetAll (task_key taskId) st) = true ∧
  (cancelTask JSON_parse taskId userId now st).2 = cancelled_store taskId userId now st.
Proof.
  intros Hr. split_and!; [| |by eapply cancelTask_success].
  - revert Hr. unfold cancelTask, getTaskDetails.
    destruct (Nat.eqb (size (hGetAll (task_key taskId) st)) 0); [done|].
    destruct (JSON_parse _) as [ctx|]; [|done].
    rewrite !lookup_insert_ne by done.
    destruct (strict_eq_str (hGetAll (task_key taskId) st !! "submittedBy") userId) eqn:E;
      [|done].
    intros _. by apply owned_by_submitter.
  - revert Hr. unfold cancelTask, getTaskDetails, context_parses.
    destruct (Nat.eqb (size (hGetAll (task_key taskId) st)) 0); [done|].
    by destruct (JSON_parse _) as [ctx|].
Qed.

(** X23. A cancellation does not delete the task: after a successful
    [cancelTask], a listing for the caller that scans the key of the task
    and returns still holds the task, now with status "cancelled" and the
    cancellation metadata; its other fields, but for the parsed context,
    are as they were stored before. *)
Theorem cancelled_task_listed JSON_parse getTime scanned taskId userId now st answer tasks :
  (cancelTask JSON_parse taskId userId now st).1 = Returns answer →
  task_key taskId ∈ scanned →
  getUserTasks JSON_parse getTime scanned userId (cancelTask JSON_parse taskId userId now st).2 = Returns tasks →
  ∃ task,
    task ∈ tasks ∧
    task !! "status" = Some (JStr "cancelled") ∧
    task !! "cancelledBy" = Some (JStr userId) ∧
    task !! "cancelledAt" = Some (JStr now) ∧
    (∀ f, f ∉ ["status"; "cancelledAt"; "cancelledBy"; "context"] →
          task !! f = hGetAll (task_key taskId) st !! f).
Proof.
  intros Hc Hk. destruct (cancelTask_returns _ _ _ _ _ _ Hc) as (Hown & Hp & ->). intros Hg.
  set (st' := cancelled_store taskId userId now st) in *.
  set (key := task_key taskId) in *.
  assert (Hold : ∀ f, f ∉ ["status"; "cancelledAt"; "cancelledBy"] →
                      hGetAll key st' !! f = hGetAll key st !! f).
  { intros f Hf. unfold st', key. rewrite cancelled_store_record.
    by rewrite cancellation_other. }
  assert (Hne : ∀ f : string, f ≠ "status" → f ≠ "cancelledAt" → f ≠ "cancelledBy" →
                  f ∉ ["status"; "cancelledAt"; "cancelledBy"]).
  { intros f ? ? ?. rewrite !not_elem_of_cons. split_and!; [done..|apply not_elem_of_nil]. }
  unfold context_parses in Hp.
  destruct (JSON_parse (js_String_json (js_or (hGetAll key st !! "context") (JStr "{}"))))
    as [ctx|] eqn:Hctx; [|done].
  assert (Hv : task_view JSON_parse st' key = Some (<["context" := ctx]> (hGetAll key st'))).
  { unfold task_view. rewrite (Hold "context") by (by apply Hne). by rewrite Hctx. }
  exists (<["context" := ctx]> (hGetAll key st')). split_and!.
  - apply (getUserTasks_elem _ _ _ _ _ _ _ Hg). exists key. split_and!; [done| |done].
    apply owned_by_submitter. by rewrite (Hold "submittedBy") by (by apply Hne).
  - rewrite lookup_insert_ne by done. unfold st', key. by rewrite cancelled_store_record.
  - rewrite lookup_insert_ne by done. unfold st', key. by rewrite cancelled_store_record.
  - rewrite lookup_insert_ne by done. unfold st', key. by rewrite cancelled_store_record.
  - intros f Hf. rewrite !not_elem_of_cons in Hf. destruct Hf as (? & ? & ? & ? & _).
    rewrite lookup_insert_ne by done. apply Hold. by apply Hne.
Qed.

Lemma cancelled_task_listed_witness :
  (cancelTask read_json Examples.id0 "alice" Scenarios.cancel_time Examples.store1).1 =
    Returns {| c_taskId := Examples.id0; c_status := "cancelled";
               c_message := "Task cancelled successfully" |} ∧
  task_key Examples.id0 ∈ [task_key Examples.id0] ∧
  getUserTasks read_json Scenarios.clock [task_key Examples.id0] "alice"
    (cancelTask read_json Examples.id0 "alice" Scenarios.cancel_time Examples.store1).2 =
    Returns Scenarios.alice_cancelled_tasks ∧
  ∃ task, task ∈ Scenarios.alice_cancelled_tasks ∧
          task !! "status" = Some (JStr "cancelled").
Proof.
  assert (Hc : (cancelTask read_json Examples.id0 "alice" Scenarios.cancel_time Examples.store1).1 =
               Returns {| c_taskId := Examples.id0; c_status := "cancelled";
                          c_message := "Task cancelled successfully" |}) by reflexivity.
  assert (Hk : task_key Examples.id0 ∈ [task_key Examples.id0]) by left.
  assert (Hg : getUserTasks read_json Scenarios.clock [task_key Examples.id0] "alice"
                 (cancelTask read_json Examples.id0 "alice" Scenarios.cancel_time Examples.store1).2 =
               Returns Scenarios.alice_cancelled_tasks) by reflexivity.
  split_and!; [exact Hc|exact Hk|exact Hg|].
  destruct (cancelled_task_listed read_json Scenarios.clock [task_key Examples.id0] Examples.id0
              "alice" Scenarios.cancel_time Examples.store1 _ _ Hc Hk Hg)
    as (task & Hin & Hs & _).
  exists task. split; [exact Hin|exact Hs].
Defined.
End cancelled_listing_facts.

(** ** Authentication while the issuer cannot be reached *)

Section outage_facts.
Import JanuaAuth JanuaVerify.

(** X24. While the issuer cannot be reached, neither the key set can be
    fetched nor can the signature check, which loads the remote key set
    itself, accept a token.  A request that carries a token is then
    refused by [authenticateJanuaToken] with 403, whatever the token and
    whatever the key cache holds: with the error of the fetch as details
    when no key set is cached, and with details "Invalid or expired token"
    when one is cached, fresh or stale.  The request is never let
    through. *)
Theorem key_outage_answers url now net jwtVerify st req token e e' :
  fetch_keys net = Throws e →
  jwtVerify token = Throws e' →
  bearer_token (authorization req) = Some token →
  token ≠ "" →
  let verify t := verified (verifyJanuaToken url now net jwtVerify t st) in
  (cached_set_exists st = false →
     authenticateJanuaToken verify req =
       Respond 403 (JObj [ ("error", JStr "Invalid or expired token");
                           ("details", JStr (exn_message e)) ])) ∧
  (cached_set_exists st = true →
     authenticateJanuaToken verify req =
       Respond 403 (JObj [ ("error", JStr "Invalid or expired token");
                           ("details", JStr "Invalid or expired token") ])) ∧
  (∀ req', authenticateJanuaToken verify req ≠ Next req').
Proof.
  intros Hf Hv Hb Hne verify. rewrite authenticateJanuaToken_cases, Hb.
  destruct token as [|c t]; [done|]. subst verify. cbn beta.
  unfold verifyJanuaToken. rewrite Hv.
  destruct (result (getJWKS url now net st)) as [keys|e''] eqn:Hr; cbn [verified].
  - split_and!; [|done|done].
    intros Hc.
    assert (Hr' : result (getJWKS url now net st) = Throws e) by (by apply getJWKS_throws).
    congruence.
  - apply getJWKS_throws in Hr as [Hno Hfe].
    assert (e'' = e) as -> by congruence.
    split_and!; [done| |done]. intros Hc. congruence.
Qed.

(** The issuer is unreachable and the cache holds a key set fetched
    earlier. *)
Lemma key_outage_answers_witness :
  fetch_keys Examples.outage = Throws (Error "getaddrinfo ENOTFOUND auth.madfam.io") ∧
  Scenarios.verify_offline "abc.def.ghi" =
    Throws (Error "getaddrinfo ENOTFOUND auth.madfam.io") ∧
  bearer_token (authorization Examples.request) = Some "abc.def.ghi" ∧
  "abc.def.ghi" ≠ "" ∧
  cached_set_exists Examples.stale_cache = true ∧
  authenticateJanuaToken
    (λ t, verified (verifyJanuaToken Examples.issuer (Examples.t0 + 7200000) Examples.outage
                      Scenarios.verify_offline t Examples.stale_cache))
    Examples.request =
    Respond 403 (JObj [ ("error", JStr "Invalid or expired token");
                        ("details", JStr "Invalid or expired token") ]).
Proof.
  assert (Hne : "abc.def.ghi" ≠ "") by discriminate.
  split_and!; [reflexivity|reflexivity|reflexivity|exact Hne|reflexivity|].
  exact (proj1 (proj2 (key_outage_answers Examples.issuer (Examples.t0 + 7200000)
                         Examples.outage Scenarios.verify_offline Examples.stale_cache
                         Examples.request "abc.def.ghi"
                         (Error "getaddrinfo ENOTFOUND auth.madfam.io")
                         (Error "getaddrinfo ENOTFOUND auth.madfam.io")
                         eq_refl eq_refl eq_refl Hne))
           eq_refl).
Defined.
End outage_facts.
